(** * A shallow embedding of the multi-agent orchestration core

    The development follows the Python sources under [core/]:
    [task_queue.py], [dependency_graph.py], [agent_registry.py],
    [message_bus.py], [shared_memory.py] and [orchestrator.py].

    Conventions of the embedding.
    - Python [int] is [Z]; list positions are [nat].
    - A [dict] is a [gmap], a [set] is a [gset]; iteration over a set
      follows [elements] (Python leaves the order of a set unspecified,
      the statements below never depend on it unless they say so).
    - Objects that the code mutates through several references (a [Task]
      held by [TaskQueue.tasks] and by the priority queue, an [AgentInfo]
      held by the registry) live once in the map that owns them and the
      other holders keep the key.
    - Wall-clock fields ([created_at], [started_at], [completed_at],
      [timestamp], [registered_at], [last_active]) and logging are left
      out: no control flow reads them.
    - [uuid.uuid4()] is an input: the operation that draws an identifier
      takes it as an argument. *)

From stdpp Require Import gmap strings list fin_maps.
From Stdlib Require Import ZArith Lia.

Set Default Proof Using "Type".
#[local] Set Warnings "-clear-no-such-hyp".

(** ** Python values and control outcomes *)

(** [Any]: the opaque payloads ([input_data], [content], [value], results). *)
#[local] Unset Elimination Schemes.
Inductive Any : Type :=
  | ANone
  | ABool (b : bool)
  | AInt (z : Z)
  | AStr (s : string)
  | AList (l : list Any)
  | ADict (d : list (string * Any)).
#[local] Set Elimination Schemes.

Inductive exn : Type :=
  | KeyError
  | ValueError
  | TypeError
  | CircularDependencyError.

(** What a call does: it returns, it raises, or (a blocking [get] on an
    empty queue with [timeout=None], nobody else running) it never returns. *)
Inductive outcome (A : Type) : Type :=
  | Returns (a : A)
  | Raises (e : exn)
  | Blocks.
Arguments Returns {A} a.
Arguments Raises {A} e.
Arguments Blocks {A}.

(** [l[i]] where the code has established [i < len(l)]; [d] stands for the
    [IndexError] that cannot occur there. *)
Definition getitem {A : Type} (l : list A) (i : nat) (d : A) : A :=
  default d (l !! i).

(** ** [heapq] (the standard library module behind [queue.PriorityQueue]) *)

Module heapq.
Section heapq.
Context {A : Type} (lt : A → A → bool).

(** The [while pos > startpos] loop of [_siftdown]; [pos] strictly
    decreases, [fuel = pos] iterations are all the loop can make. *)
Fixpoint _siftdown_loop (fuel : nat) (heap : list A) (newitem : A)
    (startpos pos : nat) : list A :=
  match fuel with
  | O => <[pos := newitem]> heap
  | S fuel' =>
      if decide (startpos < pos) then
        let parentpos := (pos - 1) `div` 2 in
        let parent := getitem heap parentpos newitem in
        if lt newitem parent
        then _siftdown_loop fuel' (<[pos := parent]> heap) newitem startpos parentpos
        else <[pos := newitem]> heap
      else <[pos := newitem]> heap
  end.

Definition _siftdown (heap : list A) (startpos pos : nat) : list A :=
  match heap !! pos with
  | Some newitem => _siftdown_loop pos heap newitem startpos pos
  | None => heap
  end.

(** The [while childpos < endpos] loop of [_siftup]: returns the heap and
    the final [pos]; [endpos - pos] strictly decreases. *)
Fixpoint _siftup_loop (fuel : nat) (heap : list A) (newitem : A)
    (endpos pos : nat) : list A * nat :=
  match fuel with
  | O => (heap, pos)
  | S fuel' =>
      let childpos := 2 * pos + 1 in
      if decide (childpos < endpos) then
        let rightpos := childpos + 1 in
        let childpos :=
          if decide (rightpos < endpos) then
            if negb (lt (getitem heap childpos newitem) (getitem heap rightpos newitem))
            then rightpos else childpos
          else childpos in
        _siftup_loop fuel' (<[pos := getitem heap childpos newitem]> heap)
                     newitem endpos childpos
      else (heap, pos)
  end.

Definition _siftup (heap : list A) (pos : nat) : list A :=
  match heap !! pos with
  | Some newitem =>
      let endpos := length heap in
      let '(heap, pos') := _siftup_loop endpos heap newitem endpos pos in
      _siftdown (<[pos' := newitem]> heap) pos pos'
  | None => heap
  end.

Definition heappush (heap : list A) (item : A) : list A :=
  let heap := heap ++ [item] in
  _siftdown heap 0 (length heap - 1).

(** [None]: [heap.pop()] raised [IndexError] (empty heap). *)
Definition heappop (heap : list A) : option (A * list A) :=
  match last heap with
  | None => None
  | Some lastelt =>
      let heap := take (length heap - 1) heap in
      match heap with
      | returnitem :: _ => Some (returnitem, _siftup (<[0 := lastelt]> heap) 0)
      | [] => Some (lastelt, [])
      end
  end.
End heapq.
End heapq.

(** ** [core/task_queue.py] *)

Module TaskQueue.

Inductive TaskStatus : Type :=
  | PENDING | IN_PROGRESS | COMPLETED | FAILED | CANCELLED.

#[global] Instance TaskStatus_eq_dec : EqDecision TaskStatus.
Proof. solve_decision. Defined.

(** [TaskPriority]: the enumeration's values. *)
Definition LOW : Z := 3.
Definition MEDIUM : Z := 2.
Definition HIGH : Z := 1.
Definition CRITICAL : Z := 0.

Record Task : Type := mkTask {
  priority : Z;
  task_id : string;
  agent_type : string;
  action : string;
  input_data : Any;
  dependencies : list string;
  metadata : gmap string Any;
  status : TaskStatus;
  result : Any;
  error : option string
}.

Definition with_status (s : TaskStatus) (t : Task) : Task :=
  mkTask (priority t) (task_id t) (agent_type t) (action t) (input_data t)
         (dependencies t) (metadata t) s (result t) (error t).

Definition start (t : Task) : Task := with_status IN_PROGRESS t.

Definition complete (r : Any) (t : Task) : Task :=
  mkTask (priority t) (task_id t) (agent_type t) (action t) (input_data t)
         (dependencies t) (metadata t) COMPLETED r (error t).

Definition fail (e : string) (t : Task) : Task :=
  mkTask (priority t) (task_id t) (agent_type t) (action t) (input_data t)
         (dependencies t) (metadata t) FAILED (result t) (Some e).

Definition cancel (t : Task) : Task := with_status CANCELLED t.

Definition status_value (s : TaskStatus) : string :=
  match s with
  | PENDING => "pending"
  | IN_PROGRESS => "in_progress"
  | COMPLETED => "completed"
  | FAILED => "failed"
  | CANCELLED => "cancelled"
  end.

(** [Task.to_dict] without the time stamps and the duration. *)
Definition to_dict (t : Task) : Any :=
  ADict [("task_id", AStr (task_id t));
         ("agent_type", AStr (agent_type t));
         ("action", AStr (action t));
         ("priority", AInt (priority t));
         ("status", AStr (status_value (status t)));
         ("dependencies", AList (AStr <$> dependencies t));
         ("metadata", ADict (map_to_list (metadata t)))].

(** An entry of the priority queue: a reference to a [Task] object (its
    [task_id], the key of [tasks]) with the one field that
    [@dataclass(order=True)] compares, [priority]; nothing assigns
    [priority] after construction. *)
Definition qitem : Type := Z * string.

(** [Task.__lt__]: only [priority] has [compare=True]. *)
Definition task_lt (a b : qitem) : bool := bool_decide (a.1 < b.1)%Z.

Record Stats : Type := mkStats {
  total_tasks : Z;
  completed_tasks : Z;
  failed_tasks : Z;
  cancelled_tasks : Z
}.

Record t : Type := mkQueue {
  queue : list qitem;
  tasks : gmap string Task;
  pending : gset string;
  in_progress : gset string;
  completed : gset string;
  failed : gset string;
  stats : Stats
}.

Definition init : t :=
  mkQueue [] ∅ ∅ ∅ ∅ ∅ (mkStats 0 0 0 0).

(** [queue.PriorityQueue.put] (unbounded: never blocks). *)
Definition put (heap : list qitem) (item : qitem) : list qitem :=
  heapq.heappush task_lt heap item.

(** [queue.PriorityQueue.get(timeout=timeout)] with no other thread
    running; [Returns None] stands for the [Empty] exception. *)
Definition get (timeout : option Z) (heap : list qitem)
    : outcome (option (qitem * list qitem)) :=
  match timeout with
  | None =>
      match heapq.heappop task_lt heap with
      | Some r => Returns (Some r)
      | None => Blocks
      end
  | Some secs =>
      if decide (secs < 0)%Z then Raises ValueError
      else Returns (heapq.heappop task_lt heap)
  end.

Definition _can_execute (q : t) (task : Task) : bool :=
  match dependencies task with
  | [] => true
  | deps => forallb (λ dep_id, bool_decide (dep_id ∈ completed q)) deps
  end.

(** [add_task]; [new_id] is the identifier [uuid.uuid4()] draws. *)
Definition add_task (new_id : string) (agent_type action : string)
    (input_data : Any) (priority : Z) (dependencies : option (list string))
    (metadata : option (gmap string Any)) (q : t) : Task * t :=
  let task := mkTask priority new_id agent_type action input_data
                     (default [] dependencies) (default ∅ metadata)
                     PENDING ANone None in
  let st := stats q in
  let q1 := mkQueue (queue q) (<[new_id := task]> (tasks q))
                    ({[new_id]} ∪ pending q) (in_progress q) (completed q)
                    (failed q)
                    (mkStats (total_tasks st + 1) (completed_tasks st)
                             (failed_tasks st) (cancelled_tasks st)) in
  if _can_execute q1 task
  then (task, mkQueue (put (queue q1) (priority, new_id)) (tasks q1) (pending q1)
                      (in_progress q1) (completed q1) (failed q1) (stats q1))
  else (task, q1).

(** [get_next_task]: the task returned is the object after [start()]. *)
Definition get_next_task (timeout : option Z) (q : t) : outcome (option Task * t) :=
  match get timeout (queue q) with
  | Returns (Some ((_, tid), heap')) =>
      let tasks' := alter start tid (tasks q) in
      match tasks' !! tid with
      | Some task =>
          Returns (Some task,
                   mkQueue heap' tasks' (pending q ∖ {[tid]})
                           ({[tid]} ∪ in_progress q) (completed q) (failed q)
                           (stats q))
      | None => Raises KeyError (* a queued reference always has its object *)
      end
  | Returns None => Returns (None, q)
  | Raises e => Raises e
  | Blocks => Blocks
  end.

(** The body of the loop of [_check_dependent_tasks]: a pending task that
    lists the completed one and can now execute is put on the queue. *)
Definition check_dependent (completed_task_id : string) (q : t) (tid : string) : t :=
  match tasks q !! tid with
  | Some task =>
      if bool_decide (completed_task_id ∈ dependencies task)
         && _can_execute q task
      then mkQueue (put (queue q) (priority task, tid)) (tasks q)
                   (pending q) (in_progress q) (completed q)
                   (failed q) (stats q)
      else q
  | None => q (* [self.tasks[task_id]]: a pending identifier has its task *)
  end.

(** [_check_dependent_tasks]: the loop over [list(self.pending)]. *)
Definition _check_dependent_tasks (completed_task_id : string) (q : t) : t :=
  foldl (check_dependent completed_task_id) q (elements (pending q)).

Definition complete_task (tid : string) (r : Any) (q : t) : t :=
  match tasks q !! tid with
  | None => q
  | Some _ =>
      let st := stats q in
      _check_dependent_tasks tid
        (mkQueue (queue q) (alter (complete r) tid (tasks q)) (pending q)
                 (in_progress q ∖ {[tid]}) ({[tid]} ∪ completed q) (failed q)
                 (mkStats (total_tasks st) (completed_tasks st + 1)
                          (failed_tasks st) (cancelled_tasks st)))
  end.

Definition fail_task (tid : string) (e : string) (q : t) : t :=
  match tasks q !! tid with
  | None => q
  | Some _ =>
      let st := stats q in
      mkQueue (queue q) (alter (fail e) tid (tasks q)) (pending q)
              (in_progress q ∖ {[tid]}) (completed q) ({[tid]} ∪ failed q)
              (mkStats (total_tasks st) (completed_tasks st)
                       (failed_tasks st + 1) (cancelled_tasks st))
  end.

Definition cancel_task (tid : string) (q : t) : t :=
  match tasks q !! tid with
  | None => q
  | Some _ =>
      let st := stats q in
      mkQueue (queue q) (alter cancel tid (tasks q)) (pending q ∖ {[tid]})
              (in_progress q ∖ {[tid]}) (completed q) (failed q)
              (mkStats (total_tasks st) (completed_tasks st)
                       (failed_tasks st) (cancelled_tasks st + 1))
  end.

Definition get_task (tid : string) (q : t) : option Task := tasks q !! tid.

End TaskQueue.

(** ** [core/dependency_graph.py] *)

Module DependencyGraph.

(** [graph] and [reverse_graph] are [defaultdict(set)]: reading a missing
    key yields the empty set. ([d[k]] also stores that empty set under [k];
    [add_node] has stored every node's key in both maps before any method
    reads them with [d[k]], so the store never happens on a graph built
    through the methods below.) *)
Record t : Type := mkGraph {
  graph : gmap string (gset string);
  reverse_graph : gmap string (gset string);
  nodes : gset string
}.

Definition init : t := mkGraph ∅ ∅ ∅.

Definition getset (m : gmap string (gset string)) (k : string) : gset string :=
  default ∅ (m !! k).

(** [if k not in m: m[k] = set()] *)
Definition ensure_key (k : string) (m : gmap string (gset string))
    : gmap string (gset string) :=
  match m !! k with
  | Some _ => m
  | None => <[k := ∅]> m
  end.

Definition add_node (node_id : string) (g : t) : t :=
  mkGraph (ensure_key node_id (graph g))
          (ensure_key node_id (reverse_graph g))
          ({[node_id]} ∪ nodes g).

(** Number of edges stored in an adjacency map (its size bounds the work
    of the search below). *)
Definition edge_count (m : gmap string (gset string)) : nat :=
  map_fold (λ _ s acc, size s + acc) 0 m.

(** The [while queue] loop of [_would_create_cycle]: [queue] is the deque,
    popped on the left and appended on the right. Every iteration pops one
    entry and an entry is pushed once per edge of a node visited for the
    first time, so [1 + edge_count] iterations empty the deque
    ([DependencyGraphFacts.loop_complete] below). *)
Fixpoint _would_create_cycle_loop (fuel : nat) (g : t) (from_node : string)
    (visited : gset string) (queue : list string) : bool :=
  match fuel with
  | O => false
  | S fuel' =>
      match queue with
      | [] => false
      | current :: queue =>
          if decide (current = from_node) then true
          else if decide (current ∈ visited)
          then _would_create_cycle_loop fuel' g from_node visited queue
          else _would_create_cycle_loop fuel' g from_node ({[current]} ∪ visited)
                 (queue ++ elements (getset (graph g) current))
      end
  end.

Definition _would_create_cycle (g : t) (from_node to_node : string) : bool :=
  _would_create_cycle_loop (2 + edge_count (graph g)) g from_node ∅ [to_node].

(** [add_dependency]: the state after the call, and the exception if it
    raised (the two [add_node] calls come before the check and stay). *)
Definition add_dependency (node_id depends_on : string) (g : t) : t * option exn :=
  let g := add_node depends_on (add_node node_id g) in
  if _would_create_cycle g node_id depends_on
  then (g, Some CircularDependencyError)
  else (mkGraph (<[node_id := {[depends_on]} ∪ getset (graph g) node_id]> (graph g))
                (<[depends_on := {[node_id]} ∪ getset (reverse_graph g) depends_on]>
                   (reverse_graph g))
                (nodes g),
        None).

Definition remove_dependency (node_id depends_on : string) (g : t) : t :=
  mkGraph (alter (λ s, s ∖ {[depends_on]}) node_id (graph g))
          (alter (λ s, s ∖ {[node_id]}) depends_on (reverse_graph g))
          (nodes g).

Definition get_dependencies (node_id : string) (g : t) : gset string :=
  getset (graph g) node_id.

Definition get_dependents (node_id : string) (g : t) : gset string :=
  getset (reverse_graph g) node_id.

Definition can_execute (node_id : string) (completed : gset string) (g : t) : bool :=
  bool_decide (getset (graph g) node_id ⊆ completed).

Definition get_ready_nodes (completed : gset string) (g : t) : list string :=
  filter (λ node_id, (node_id ∉ completed) ∧ (can_execute node_id completed g = true))
         (elements (nodes g)).

(** The [for dependent in self.reverse_graph[node]] loop of
    [topological_sort]; [None] is the [KeyError] of
    [in_degree[dependent] -= 1] on an identifier that is not a node. *)
Fixpoint reduce_in_degree (dependents : list string)
    (in_degree : gmap string Z) (queue : list string)
    : option (gmap string Z * list string) :=
  match dependents with
  | [] => Some (in_degree, queue)
  | dependent :: rest =>
      match in_degree !! dependent with
      | None => None
      | Some d =>
          let d' := (d - 1)%Z in
          let in_degree := <[dependent := d']> in_degree in
          if decide (d' = 0%Z)
          then reduce_in_degree rest in_degree (queue ++ [dependent])
          else reduce_in_degree rest in_degree queue
      end
  end.

(** The [while queue] loop of Kahn's algorithm. [None]: out of fuel. *)
Fixpoint topological_sort_loop (fuel : nat) (g : t) (in_degree : gmap string Z)
    (queue result : list string) : option (outcome (list string)) :=
  match queue with
  | [] =>
      Some (if decide (length result ≠ size (nodes g))
            then Raises CircularDependencyError
            else Returns result)
  | node :: queue =>
      match fuel with
      | O => None
      | S fuel' =>
          match reduce_in_degree (elements (getset (reverse_graph g) node))
                                 in_degree queue with
          | None => Some (Raises KeyError)
          | Some (in_degree, queue) =>
              topological_sort_loop fuel' g in_degree queue (result ++ [node])
          end
      end
  end.

Definition initial_in_degree (g : t) : gmap string Z :=
  list_to_map ((λ node, (node, Z.of_nat (size (getset (graph g) node))))
                 <$> elements (nodes g)).

(** [topological_sort]; the loop appends each node at most once, so it
    makes at most [len(self.nodes)] iterations. *)
Definition topological_sort (g : t) : option (outcome (list string)) :=
  let in_degree := initial_in_degree g in
  let queue := filter (λ node, in_degree !! node = Some 0%Z) (elements (nodes g)) in
  topological_sort_loop (size (nodes g)) g in_degree queue [].

(** [order.index(x)]: the first position of [x]. *)
Fixpoint index (x : string) (order : list string) : option nat :=
  match order with
  | [] => None
  | y :: order => if decide (y = x) then Some 0 else S <$> index x order
  end.

(** [has_cycle]: [topological_sort] with its [CircularDependencyError]
    caught; any other exception passes. [None]: out of fuel. *)
Definition has_cycle (g : t) : option (outcome bool) :=
  match topological_sort g with
  | Some (Returns _) => Some (Returns false)
  | Some (Raises CircularDependencyError) => Some (Returns true)
  | Some (Raises e) => Some (Raises e)
  | Some Blocks => Some Blocks
  | None => None
  end.

(** The [while remaining] loop of [get_execution_layers]. Every iteration
    that does not raise takes at least one node out of [remaining], so
    [len(self.nodes)] iterations are enough. [None]: out of fuel. A layer
    lists its nodes in the iteration order of the set [remaining], here
    that of [elements]. *)
Fixpoint get_execution_layers_loop (fuel : nat) (g : t)
    (layers : list (list string)) (completed remaining : gset string)
    : option (outcome (list (list string))) :=
  if decide (remaining = ∅) then Some (Returns layers)
  else
    match fuel with
    | O => None
    | S fuel' =>
        let ready := filter (λ node, can_execute node completed g = true)
                            (elements remaining) in
        match ready with
        | [] => Some (Raises CircularDependencyError)
        | _ :: _ =>
            get_execution_layers_loop fuel' g (layers ++ [ready])
              (completed ∪ list_to_set ready) (remaining ∖ list_to_set ready)
        end
    end.

Definition get_execution_layers (g : t) : option (outcome (list (list string))) :=
  get_execution_layers_loop (size (nodes g)) g [] ∅ (nodes g).

(** [clear] *)
Definition clear (g : t) : t := mkGraph ∅ ∅ ∅.

End DependencyGraph.

(** ** [core/agent_registry.py] *)

Module AgentRegistry.

Record AgentInfo : Type := mkAgentInfo {
  agent_id : string;
  agent_type : string;
  name : string;
  capabilities : list string;
  status : string;
  workload : Z;
  total_tasks_completed : Z;
  total_tasks_failed : Z
}.

#[global] Instance AgentInfo_eq_dec : EqDecision AgentInfo.
Proof. solve_decision. Defined.

Definition increment_workload (a : AgentInfo) : AgentInfo :=
  mkAgentInfo (agent_id a) (agent_type a) (name a) (capabilities a)
              "busy" (workload a + 1)
              (total_tasks_completed a) (total_tasks_failed a).

Definition decrement_workload (a : AgentInfo) : AgentInfo :=
  let w := Z.max 0 (workload a - 1) in
  mkAgentInfo (agent_id a) (agent_type a) (name a) (capabilities a)
              (if decide (w = 0%Z) then "idle" else status a) w
              (total_tasks_completed a) (total_tasks_failed a).

Definition complete_task (a : AgentInfo) : AgentInfo :=
  decrement_workload
    (mkAgentInfo (agent_id a) (agent_type a) (name a) (capabilities a)
                 (status a) (workload a)
                 (total_tasks_completed a + 1) (total_tasks_failed a)).

Definition fail_task (a : AgentInfo) : AgentInfo :=
  decrement_workload
    (mkAgentInfo (agent_id a) (agent_type a) (name a) (capabilities a)
                 (status a) (workload a)
                 (total_tasks_completed a) (total_tasks_failed a + 1)).

Definition set_status (s : string) (a : AgentInfo) : AgentInfo :=
  mkAgentInfo (agent_id a) (agent_type a) (name a) (capabilities a)
              s (workload a)
              (total_tasks_completed a) (total_tasks_failed a).

(** [self.agents] is a [dict]: it keeps its keys in the order in which
    they were inserted, and assigning to a key it holds keeps the key's
    place. [agents] is the mapping and [agent_order] the order of its
    keys, which [list(self.agents.values())] follows. *)
Record t : Type := mkRegistry {
  agents : gmap string AgentInfo;
  agents_by_type : gmap string (gset string);
  agents_by_capability : gmap string (gset string);
  agent_order : list string
}.

Definition init : t := mkRegistry ∅ ∅ ∅ [].

(** [if k not in index: index[k] = set()] then [index[k].add(aid)] *)
Definition index_add (k aid : string) (index : gmap string (gset string))
    : gmap string (gset string) :=
  <[k := {[aid]} ∪ default ∅ (index !! k)]> index.

(** [if k in index: index[k].discard(aid)] *)
Definition index_discard (k aid : string) (index : gmap string (gset string))
    : gmap string (gset string) :=
  alter (λ s, s ∖ {[aid]}) k index.

Definition register (agent_id agent_type name : string)
    (capabilities : list string) (r : t) : AgentInfo * t :=
  let agent_info := mkAgentInfo agent_id agent_type name capabilities
                                "idle" 0 0 0 in
  (agent_info,
   mkRegistry (<[agent_id := agent_info]> (agents r))
              (index_add agent_type agent_id (agents_by_type r))
              (foldl (λ index capability, index_add capability agent_id index)
                     (agents_by_capability r) capabilities)
              (match agents r !! agent_id with
               | Some _ => agent_order r
               | None => agent_order r ++ [agent_id]
               end)).

Definition unregister (agent_id : string) (r : t) : t :=
  match agents r !! agent_id with
  | None => r
  | Some agent_info =>
      mkRegistry (delete agent_id (agents r))
                 (index_discard (agent_type agent_info) agent_id (agents_by_type r))
                 (foldl (λ index capability, index_discard capability agent_id index)
                        (agents_by_capability r) (capabilities agent_info))
                 (filter (λ aid, aid ≠ agent_id) (agent_order r))
  end.

Definition get_agent (agent_id : string) (r : t) : option AgentInfo :=
  agents r !! agent_id.

(** [[self.agents[aid] for aid in agent_ids]]: [KeyError] when an indexed
    identifier has no record. *)
Definition lookup_all (r : t) (agent_ids : gset string) : outcome (list AgentInfo) :=
  match mapM (λ aid, agents r !! aid) (elements agent_ids) with
  | Some l => Returns l
  | None => Raises KeyError
  end.

Definition find_by_type (agent_type : string) (r : t) : outcome (list AgentInfo) :=
  lookup_all r (default ∅ (agents_by_type r !! agent_type)).

Definition find_by_capability (capability : string) (r : t) : outcome (list AgentInfo) :=
  lookup_all r (default ∅ (agents_by_capability r !! capability)).

(** Truth value of an [Optional[str]] in [if x:]. *)
Definition truthy (x : option string) : option string :=
  match x with
  | Some s => if decide (s = EmptyString) then None else Some s
  | None => None
  end.

(** [min(candidates, key=...)]: the first element with the least key. *)
Fixpoint min_by {A : Type} (key : A → Z) (best : A) (l : list A) : A :=
  match l with
  | [] => best
  | x :: l => min_by key (if decide (key x < key best)%Z then x else best) l
  end.

Definition available (a : AgentInfo) : bool :=
  bool_decide (status a = "idle") || bool_decide (status a = "busy").

(** [find_available_agent]; without a type and a capability the
    candidates are [list(self.agents.values())], the records in the order
    in which their identifiers were inserted. *)
Definition find_available_agent (agent_type capability : option string) (r : t)
    : outcome (option AgentInfo) :=
  let candidates :=
    match truthy agent_type with
    | Some ty => find_by_type ty r
    | None =>
        match truthy capability with
        | Some c => find_by_capability c r
        | None => Returns (omap (λ aid, agents r !! aid) (agent_order r))
        end
    end in
  match candidates with
  | Returns candidates =>
      match filter (λ a, available a = true) candidates with
      | [] => Returns None
      | a :: rest => Returns (Some (min_by workload a rest))
      end
  | Raises e => Raises e
  | Blocks => Blocks
  end.

Definition update_agent_status (agent_id status : string) (r : t) : t :=
  mkRegistry (alter (set_status status) agent_id (agents r))
             (agents_by_type r) (agents_by_capability r) (agent_order r).

Definition increment_agent_workload (agent_id : string) (r : t) : t :=
  mkRegistry (alter increment_workload agent_id (agents r))
             (agents_by_type r) (agents_by_capability r) (agent_order r).

Definition decrement_agent_workload (agent_id : string) (r : t) : t :=
  mkRegistry (alter decrement_workload agent_id (agents r))
             (agents_by_type r) (agents_by_capability r) (agent_order r).

Definition record_task_completion (agent_id : string) (success : bool) (r : t) : t :=
  mkRegistry (alter (if success then complete_task else fail_task) agent_id (agents r))
             (agents_by_type r) (agents_by_capability r) (agent_order r).

End AgentRegistry.

(** ** [Message] ([agents/base_agent.py]) and [core/message_bus.py] *)

Module MessageBus.

Record Message : Type := mkMessage {
  sender : string;
  receiver : string;
  msg_type : string;
  content : Any;
  metadata : gmap string Any;
  id : string
}.

Record Stats : Type := mkStats {
  messages_sent : Z;
  messages_received : Z;
  broadcasts_sent : Z
}.

(** A mailbox ([queue.Queue]) is the list of its messages, oldest first. *)
Record t : Type := mkBus {
  queues : gmap string (list Message);
  subscriptions : gmap string (gset string);
  message_history : list Message;
  max_history_size : nat;
  stats : Stats
}.

Definition init : t := mkBus ∅ ∅ [] 1000 (mkStats 0 0 0).

Definition register_agent (agent_id : string) (b : t) : t :=
  match queues b !! agent_id with
  | None => mkBus (<[agent_id := []]> (queues b)) (subscriptions b)
                  (message_history b) (max_history_size b) (stats b)
  | Some _ => b
  end.

Definition unregister_agent (agent_id : string) (b : t) : t :=
  mkBus (delete agent_id (queues b))
        ((λ s : gset string, s ∖ {[agent_id]}) <$> subscriptions b)
        (message_history b) (max_history_size b) (stats b).

Definition _add_to_history (message : Message) (b : t) : t :=
  let h := message_history b ++ [message] in
  mkBus (queues b) (subscriptions b)
        (if decide (max_history_size b < length h) then drop 1 h else h)
        (max_history_size b) (stats b).

(** [send] never raises: [self.queues[message.receiver]] is read after the
    receiver has been registered. *)
Definition send (message : Message) (b : t) : t :=
  let b := match queues b !! receiver message with
           | None => register_agent (receiver message) b
           | Some _ => b
           end in
  let b := mkBus (alter (λ q, q ++ [message]) (receiver message) (queues b))
                 (subscriptions b) (message_history b) (max_history_size b)
                 (mkStats (messages_sent (stats b) + 1)
                          (messages_received (stats b))
                          (broadcasts_sent (stats b))) in
  _add_to_history message b.

(** [receive]: [queue.Queue.get(timeout=timeout)] with nobody else
    running: [ValueError] on a negative timeout, the oldest message if
    there is one, otherwise [None] after the timeout, or no return at all
    when [timeout] is [None]. *)
Definition receive (agent_id : string) (timeout : option Z) (b : t)
    : outcome (option Message * t) :=
  match queues b !! agent_id with
  | None => Raises ValueError
  | Some q =>
      let got message rest :=
        Returns (Some message,
                 mkBus (<[agent_id := rest]> (queues b)) (subscriptions b)
                       (message_history b) (max_history_size b)
                       (mkStats (messages_sent (stats b))
                                (messages_received (stats b) + 1)
                                (broadcasts_sent (stats b)))) in
      match timeout, q with
      | None, [] => Blocks
      | None, message :: rest => got message rest
      | Some secs, q =>
          if decide (secs < 0)%Z then Raises ValueError
          else match q with
               | [] => Returns (None, b)
               | message :: rest => got message rest
               end
      end
  end.

Definition subscribe (agent_id msg_type : string) (b : t) : t :=
  mkBus (queues b)
        (<[msg_type := {[agent_id]} ∪ default ∅ (subscriptions b !! msg_type)]>
           (subscriptions b))
        (message_history b) (max_history_size b) (stats b).

Definition unsubscribe (agent_id msg_type : string) (b : t) : t :=
  mkBus (queues b)
        (<[msg_type := default ∅ (subscriptions b !! msg_type) ∖ {[agent_id]}]>
           (subscriptions b))
        (message_history b) (max_history_size b) (stats b).

Definition has_messages (agent_id : string) (b : t) : bool :=
  match queues b !! agent_id with
  | None => false
  | Some q => bool_decide (q ≠ [])
  end.

Definition get_pending_count (agent_id : string) (b : t) : Z :=
  match queues b !! agent_id with
  | None => 0
  | Some q => Z.of_nat (length q)
  end.

(** [broadcast]: one copy of the message for every subscriber of its
    type, sent with [send]; [new_id] is the identifier drawn for the copy
    made for each subscriber. An empty (or missing) subscriber set is the
    early [return]. *)
Definition broadcast (new_id : string → string) (message : Message) (b : t) : t :=
  let subscribers := default ∅ (subscriptions b !! msg_type message) in
  if decide (subscribers = ∅) then b
  else
    let b := foldl (λ b agent_id,
                      send (mkMessage (sender message) agent_id (msg_type message)
                                      (content message) (metadata message)
                                      (new_id agent_id)) b)
                   b (elements subscribers) in
    mkBus (queues b) (subscriptions b) (message_history b) (max_history_size b)
          (mkStats (messages_sent (stats b)) (messages_received (stats b))
                   (broadcasts_sent (stats b) + 1)).

End MessageBus.

(** ** [core/shared_memory.py] *)

Module SharedMemory.

Record MemoryEntry : Type := mkEntry {
  value : Any;
  author : string;
  version : Z;
  metadata : gmap string Any
}.

(** An observer callback is code of the caller: the blackboard only calls
    it and notes whether it raised. [cb_id] is the identity of the
    callable ([list.remove] compares with it), [cb_raises] says on which
    notifications it raises. A callback that itself calls into the
    blackboard is outside this model. *)
Record Callback : Type := mkCallback {
  cb_id : string;
  cb_raises : string → MemoryEntry → bool
}.

Record Stats : Type := mkStats {
  reads : Z;
  writes : Z;
  deletes : Z;
  notifications_sent : Z
}.

(** [_key_locks] holds one [Lock] per key; between two calls every lock is
    free, so the table is the set of its keys. [_save_to_disk] writes a
    file and changes no field; the file system is not part of the state. *)
Record t : Type := mkMemory {
  data : gmap string MemoryEntry;
  _key_locks : gset string;
  _observers : gmap string (list Callback);
  enable_persistence : bool;
  stats : Stats
}.

Definition init : t := mkMemory ∅ ∅ ∅ false (mkStats 0 0 0 0).

(** [_notify_observers]: the number of callbacks that returned. *)
Definition _notify_observers (key : string) (entry : MemoryEntry) (m : t) : Z :=
  match _observers m !! key with
  | None => 0
  | Some cbs =>
      Z.of_nat (length (filter (λ cb, cb_raises cb key entry = false) cbs))
  end.

Definition write (key : string) (value : Any) (agent_id : string)
    (metadata : option (gmap string Any)) (m : t) : t :=
  let locks := {[key]} ∪ _key_locks m in
  let new_version :=
    match data m !! key with
    | Some old_entry => (version old_entry + 1)%Z
    | None => 1%Z
    end in
  let entry := mkEntry value agent_id new_version (default ∅ metadata) in
  let st := stats m in
  mkMemory (<[key := entry]> (data m)) locks (_observers m)
           (enable_persistence m)
           (mkStats (reads st) (writes st + 1) (deletes st)
                    (notifications_sent st + _notify_observers key entry m)).

Definition read (key : string) (default_value : Any) (m : t) : Any * t :=
  match data m !! key with
  | None => (default_value, m)
  | Some entry =>
      let st := stats m in
      (value entry,
       mkMemory (data m) (_key_locks m) (_observers m) (enable_persistence m)
                (mkStats (reads st + 1) (writes st) (deletes st)
                         (notifications_sent st)))
  end.

Definition read_entry (key : string) (m : t) : option MemoryEntry :=
  data m !! key.

Definition delete (key : string) (m : t) : bool * t :=
  match data m !! key with
  | Some _ =>
      let st := stats m in
      (true,
       mkMemory (base.delete key (data m)) (_key_locks m ∖ {[key]})
                (base.delete key (_observers m)) (enable_persistence m)
                (mkStats (reads st) (writes st) (deletes st + 1)
                         (notifications_sent st)))
  | None => (false, m)
  end.

Definition exists_ (key : string) (m : t) : bool :=
  bool_decide (is_Some (data m !! key)).

Definition keys (m : t) : list string := (map_to_list (data m)).*1.

Definition subscribe (key : string) (callback : Callback) (m : t) : t :=
  mkMemory (data m) (_key_locks m)
           (<[key := default [] (_observers m !! key) ++ [callback]]> (_observers m))
           (enable_persistence m) (stats m).

(** [list.remove]: drops the first callback that is the given one. *)
Fixpoint remove_callback (callback : Callback) (cbs : list Callback) : list Callback :=
  match cbs with
  | [] => []
  | cb :: cbs =>
      if decide (cb_id cb = cb_id callback) then cbs
      else cb :: remove_callback callback cbs
  end.

Definition unsubscribe (key : string) (callback : Callback) (m : t) : t :=
  mkMemory (data m) (_key_locks m)
           (alter (remove_callback callback) key (_observers m))
           (enable_persistence m) (stats m).

Definition clear (m : t) : t :=
  mkMemory ∅ ∅ ∅ (enable_persistence m) (stats m).

Definition get_by_author (author_id : string) (m : t) : gmap string Any :=
  value <$> filter (λ kv, author kv.2 = author_id) (data m).

End SharedMemory.

(** ** [core/orchestrator.py] *)

Module Orchestrator.

Record t : Type := mkOrchestrator {
  task_queue : TaskQueue.t;
  dependency_graph : DependencyGraph.t;
  agent_registry : AgentRegistry.t;
  message_bus : MessageBus.t;
  shared_memory : SharedMemory.t
}.

Definition init : t :=
  mkOrchestrator TaskQueue.init DependencyGraph.init AgentRegistry.init
                 MessageBus.init SharedMemory.init.

(** [register_agent], for an agent object with the given identifier, name
    and capabilities ([agent_type=agent.name]). *)
Definition register_agent (agent_id name : string) (capabilities : list string)
    (o : t) : t :=
  mkOrchestrator (task_queue o) (dependency_graph o)
                 (AgentRegistry.register agent_id name name capabilities
                                         (agent_registry o)).2
                 (MessageBus.register_agent agent_id (message_bus o))
                 (shared_memory o).

Definition unregister_agent (agent_id : string) (o : t) : t :=
  mkOrchestrator (task_queue o) (dependency_graph o)
                 (AgentRegistry.unregister agent_id (agent_registry o))
                 (MessageBus.unregister_agent agent_id (message_bus o))
                 (shared_memory o).

(** The [for dep_id in dependencies] loop of [add_task]: it stops at the
    first [add_dependency] that raises. *)
Fixpoint add_dependencies (tid : string) (deps : list string)
    (g : DependencyGraph.t) : DependencyGraph.t * option exn :=
  match deps with
  | [] => (g, None)
  | dep_id :: deps =>
      match DependencyGraph.add_dependency tid dep_id g with
      | (g, None) => add_dependencies tid deps g
      | (g, Some e) => (g, Some e)
      end
  end.

(** [add_task]: the task is in the queue before the graph is touched, so
    it stays there when [add_dependency] raises. *)
Definition add_task (new_id agent_type action : string) (input_data : Any)
    (priority : Z) (dependencies : option (list string))
    (metadata : option (gmap string Any)) (o : t)
    : t * outcome TaskQueue.Task :=
  let '(task, q) := TaskQueue.add_task new_id agent_type action input_data
                                       priority dependencies metadata
                                       (task_queue o) in
  let g := DependencyGraph.add_node (TaskQueue.task_id task) (dependency_graph o) in
  let '(g, err) := add_dependencies (TaskQueue.task_id task)
                                    (default [] dependencies) g in
  (mkOrchestrator q g (agent_registry o) (message_bus o) (shared_memory o),
   match err with
   | None => Returns task
   | Some e => Raises e
   end).

(** [task.metadata.get("timeout", 60)] as the [timeout] of [Queue.get]:
    [None] blocks, a number is a bound, [timeout < 0] on anything else is a
    [TypeError]. *)
Definition task_timeout (task : TaskQueue.Task) : option (option Z) :=
  match TaskQueue.metadata task !! "timeout" with
  | None => Some (Some 60%Z)
  | Some ANone => Some None
  | Some (AInt z) => Some (Some z)
  | Some (ABool b) => Some (Some (Z.b2z b))
  | Some _ => None
  end.

(** [execute_task]. The agents run in other threads: [env] is what they do
    to the bus between the orchestrator's [send] and its [receive], and
    [msg_id] is the identifier drawn for the task message. *)
Definition execute_task (env : MessageBus.t → MessageBus.t) (msg_id : string)
    (task : TaskQueue.Task) (o : t) : outcome (bool * t) :=
  match AgentRegistry.find_available_agent (Some (TaskQueue.agent_type task)) None
                                           (agent_registry o) with
  | Raises e => Raises e
  | Blocks => Blocks
  | Returns None => Returns (false, o)
  | Returns (Some agent_info) =>
      let aid := AgentRegistry.agent_id agent_info in
      let tid := TaskQueue.task_id task in
      let reg := AgentRegistry.increment_agent_workload aid (agent_registry o) in
      let mem := SharedMemory.write ("task_" +:+ tid) (TaskQueue.to_dict task)
                                    "orchestrator" None (shared_memory o) in
      let message :=
        MessageBus.mkMessage "orchestrator" aid "task"
          (ADict [("task_id", AStr tid);
                  ("action", AStr (TaskQueue.action task));
                  ("input_data", TaskQueue.input_data task);
                  ("metadata", ADict (map_to_list (TaskQueue.metadata task)))])
          ∅ msg_id in
      let bus := env (MessageBus.send message (message_bus o)) in
      let received :=
        match MessageBus.queues bus !! "orchestrator", task_timeout task with
        | Some _, None => Raises TypeError
        | _, timeout => MessageBus.receive "orchestrator" (default None timeout) bus
        end in
      match received with
      | Raises e => Raises e
      | Blocks => Blocks
      | Returns (response, bus) =>
          match response with
          | Some r =>
              if bool_decide (MessageBus.msg_type r = "result") then
                let res := MessageBus.content r in
                Returns (true,
                  mkOrchestrator
                    (TaskQueue.complete_task tid res (task_queue o))
                    (dependency_graph o)
                    (AgentRegistry.record_task_completion aid true reg)
                    bus
                    (SharedMemory.write ("result_" +:+ tid) res aid None mem))
              else
                Returns (false,
                  mkOrchestrator
                    (TaskQueue.fail_task tid "Unexpected response" (task_queue o))
                    (dependency_graph o)
                    (AgentRegistry.record_task_completion aid false reg)
                    bus mem)
          | None =>
              Returns (false,
                mkOrchestrator
                  (TaskQueue.fail_task tid "Agent did not respond in time"
                                       (task_queue o))
                  (dependency_graph o)
                  (AgentRegistry.record_task_completion aid false reg)
                  bus mem)
          end
      end
  end.

(** The [results] dictionary of [execute_all]. *)
Record Results : Type := mkResults {
  total_tasks : Z;
  completed : list string;
  failed : list string;
  cancelled : list string
}.

(** One iteration of the [while iteration < max_iterations] loop; the
    boolean says whether the loop goes on ([false]: the [break]). *)
Definition execute_all_step (env : MessageBus.t → MessageBus.t) (msg_id : string)
    (o : t) (results : Results) : outcome (bool * t * Results) :=
  match TaskQueue.get_next_task (Some 1%Z) (task_queue o) with
  | Raises e => Raises e
  | Blocks => Blocks
  | Returns (None, _) =>
      if decide (size (TaskQueue.pending (task_queue o)) = 0)
      then Returns (false, o, results)
      else Returns (true, o, results)
  | Returns (Some task, q) =>
      let o := mkOrchestrator q (dependency_graph o) (agent_registry o)
                              (message_bus o) (shared_memory o) in
      match execute_task env msg_id task o with
      | Raises e => Raises e
      | Blocks => Blocks
      | Returns (success, o) =>
          Returns (true, o,
                   if success
                   then mkResults (total_tasks results)
                                  (completed results ++ [TaskQueue.task_id task])
                                  (failed results) (cancelled results)
                   else mkResults (total_tasks results) (completed results)
                                  (failed results ++ [TaskQueue.task_id task])
                                  (cancelled results))
      end
  end.

(** The loop of [execute_all]: [remaining] is [max_iterations - iteration];
    the environment and the message identifier of each iteration are
    indexed by the iteration number. *)
Fixpoint execute_all_loop (remaining : nat) (iteration : nat)
    (env : nat → MessageBus.t → MessageBus.t) (msg_ids : nat → string)
    (o : t) (results : Results) : outcome (t * Results) :=
  match remaining with
  | O => Returns (o, results)
  | S remaining =>
      match execute_all_step (env iteration) (msg_ids iteration) o results with
      | Raises e => Raises e
      | Blocks => Blocks
      | Returns (false, o, results) => Returns (o, results)
      | Returns (true, o, results) =>
          execute_all_loop remaining (S iteration) env msg_ids o results
      end
  end.

Definition execute_all (max_iterations : nat)
    (env : nat → MessageBus.t → MessageBus.t) (msg_ids : nat → string)
    (o : t) : outcome (t * Results) :=
  let results := mkResults (Z.of_nat (size (TaskQueue.tasks (task_queue o))))
                           [] [] [] in
  match execute_all_loop max_iterations 0 env msg_ids o results with
  | Returns (o, results) =>
      Returns (o, mkResults (total_tasks results) (completed results)
                            (failed results)
                            (elements (TaskQueue.pending (task_queue o))))
  | Raises e => Raises e
  | Blocks => Blocks
  end.

(** [get_task_result]: the result stored in a completed task, otherwise
    what the blackboard holds under [result_<task_id>] ([None] when it
    holds nothing); a read that hits is counted by the blackboard. *)
Definition get_task_result (task_id : string) (o : t) : Any * t :=
  let from_memory :=
    let '(v, mem) := SharedMemory.read ("result_" +:+ task_id) ANone
                                       (shared_memory o) in
    (v, mkOrchestrator (task_queue o) (dependency_graph o) (agent_registry o)
                       (message_bus o) mem) in
  match TaskQueue.get_task task_id (task_queue o) with
  | Some task =>
      if decide (TaskQueue.status task = TaskQueue.COMPLETED)
      then (TaskQueue.result task, o)
      else from_memory
  | None => from_memory
  end.

Definition get_execution_plan (o : t) : option (outcome (list (list string))) :=
  DependencyGraph.get_execution_layers (dependency_graph o).

End Orchestrator.

(** * Properties *)

(** ** The blackboard: versions *)

Module SharedMemoryFacts.
Import SharedMemory.

(** The public operations of [SharedMemory], as a caller issues them. *)
Inductive op : Type :=
  | Write (key : string) (value : Any) (agent_id : string)
          (metadata : option (gmap string Any))
  | Read (key : string) (default_value : Any)
  | ReadEntry (key : string)
  | Delete (key : string)
  | Exists (key : string)
  | Keys
  | Subscribe (key : string) (callback : Callback)
  | Unsubscribe (key : string) (callback : Callback)
  | Clear
  | GetByAuthor (author_id : string).

(** The state an operation leaves behind. *)
Definition step (o : op) (m : t) : t :=
  match o with
  | Write key value agent_id metadata => write key value agent_id metadata m
  | Read key default_value => (read key default_value m).2
  | Delete key => (delete key m).2
  | Subscribe key callback => subscribe key callback m
  | Unsubscribe key callback => unsubscribe key callback m
  | Clear => clear m
  | ReadEntry _ | Exists _ | Keys | GetByAuthor _ => m
  end.

Definition run (ops : list op) (m : t) : t := foldl (λ m o, step o m) m ops.

Definition writes_key (key : string) (o : op) : bool :=
  match o with
  | Write k _ _ _ => bool_decide (k = key)
  | _ => false
  end.

Definition removes_key (key : string) (o : op) : bool :=
  match o with
  | Delete k => bool_decide (k = key)
  | Clear => true
  | _ => false
  end.

(** The version stored under [key], [0] when the key is absent. *)
Definition version_of (key : string) (m : t) : Z :=
  match data m !! key with
  | Some e => version e
  | None => 0
  end.

Lemma write_lookup key value agent_id metadata m :
  data (write key value agent_id metadata m) !! key
  = Some (mkEntry value agent_id
            (match data m !! key with
             | Some old => version old + 1
             | None => 1
             end)%Z
            (default ∅ metadata)).
Proof. unfold write; simpl. by rewrite lookup_insert_eq. Qed.

Lemma write_lookup_ne key k value agent_id metadata m :
  key ≠ k → data (write key value agent_id metadata m) !! k = data m !! k.
Proof. intros Hne. unfold write; simpl. by rewrite lookup_insert_ne. Qed.

(** An operation that is not a write to [k] leaves the entry of [k] as it
    was, or removes it. *)
Lemma step_entry o m k e' :
  writes_key k o = false →
  data (step o m) !! k = Some e' → data m !! k = Some e'.
Proof.
  destruct o; intros Hw Hl; simpl in Hw; unfold step in Hl; try done.
  - apply bool_decide_eq_false in Hw. by rewrite write_lookup_ne in Hl.
  - unfold read in Hl. by destruct (data m !! key).
  - unfold delete in Hl. destruct (data m !! key) eqn:E; simpl in Hl; [|done].
    destruct (decide (key = k)) as [->|Hne].
    + by rewrite lookup_delete_eq in Hl.
    + by rewrite lookup_delete_ne in Hl.
Qed.

Lemma step_keeps o m k :
  writes_key k o = false → removes_key k o = false →
  data (step o m) !! k = data m !! k.
Proof.
  destruct o; intros Hw Hr; simpl in Hw, Hr; unfold step; try done.
  - apply bool_decide_eq_false in Hw. by rewrite write_lookup_ne.
  - unfold read. by destruct (data m !! key).
  - apply bool_decide_eq_false in Hr. unfold delete.
    destruct (data m !! key); simpl; [|done]. by rewrite lookup_delete_ne.
Qed.



Lemma run_absent ops : ∀ m k,
  forallb (λ o, negb (writes_key k o)) ops = true →
  data m !! k = None → data (run ops m) !! k = None.
Proof.
  induction ops as [|o ops IH]; intros m k Hall Hk; simpl in *; [done|].
  apply andb_prop in Hall as [Ho Hall]. apply negb_true_iff in Ho.
  apply IH; [done|].
  destruct (data (step o m) !! k) eqn:E; [|done].
  apply step_entry in E; [congruence|done].
Qed.


Definition demo_ops : list op :=
  [Write "k" (AInt 1) "a1" None; Read "k" ANone; Write "j" ANone "a2" None;
   Subscribe "k" (mkCallback "cb" (λ _ _, false)); Write "k" (AInt 2) "a2" None;
   Write "k" (AInt 3) "a1" None].


(** C10. A [delete] that returns [True] removes the entry, the key's lock
    and the key's observers; whatever else happens in between short of a
    write to the key, the next write to it stores version 1, whatever the
    version was before the deletion. *)
Theorem delete_restarts_versions m key m' :
  delete key m = (true, m') →
  data m' !! key = None ∧ (key ∉ _key_locks m') ∧ _observers m' !! key = None ∧
  ∀ ops value agent_id metadata,
    forallb (λ o, negb (writes_key key o)) ops = true →
    version <$> data (write key value agent_id metadata (run ops m')) !! key
    = Some 1%Z.
Proof.
  unfold delete. destruct (data m !! key) eqn:E; [|done].
  intros Heq. apply (f_equal snd) in Heq. simpl in Heq. subst m'.
  split; [|split; [|split]].
  - apply lookup_delete_eq.
  - simpl. intros [_ Hn]%elem_of_difference. apply Hn. by apply elem_of_singleton.
  - apply lookup_delete_eq.
  - intros ops value agent_id metadata Hops.
    rewrite write_lookup, run_absent; [done|done|]. apply lookup_delete_eq.
Qed.

Definition demo_memory : t := run demo_ops init.

Lemma delete_restarts_versions_witness :
  version_of "k" demo_memory = 3%Z ∧
  data (delete "k" demo_memory).2 !! "k" = None ∧
  version <$> data (write "k" ANone "a" None (delete "k" demo_memory).2) !! "k"
  = Some 1%Z.
Proof.
  destruct (delete_restarts_versions demo_memory "k" (delete "k" demo_memory).2)
    as (H1 & _ & _ & H4); [reflexivity|].
  split; [reflexivity|]. split; [exact H1|]. exact (H4 [] ANone "a" None eq_refl).
Defined.

End SharedMemoryFacts.

(** ** The message bus: unknown receivers and unknown readers *)

Module MessageBusFacts.
Import MessageBus.

Lemma send_queue message b :
  queues (send message b) !! receiver message
  = Some (default [] (queues b !! receiver message) ++ [message]).
Proof.
  unfold send, register_agent, _add_to_history.
  destruct (queues b !! receiver message) as [q|] eqn:E; simpl.
  - by rewrite lookup_alter_eq, E.
  - by rewrite lookup_alter_eq, lookup_insert_eq.
Qed.

Lemma send_queue_ne message b agent_id :
  agent_id ≠ receiver message →
  queues (send message b) !! agent_id = queues b !! agent_id.
Proof.
  intros Hne. unfold send, register_agent, _add_to_history.
  destruct (queues b !! receiver message) as [q|] eqn:E; simpl.
  - by rewrite lookup_alter_ne.
  - rewrite lookup_alter_ne by done. by rewrite lookup_insert_ne.
Qed.

Definition nonnegative (timeout : option Z) : Prop :=
  match timeout with
  | Some secs => (0 ≤ secs)%Z
  | None => True
  end.

(** C8. [send] is total (it returns the new bus, it has no way to raise);
    for a receiver without a mailbox it creates the mailbox and the
    message is its only entry, which a later [receive] by that agent
    hands out; [receive] for an identifier without a mailbox raises
    [ValueError] and hands out nothing. *)
Theorem send_registers_receive_raises :
  (∀ b message,
      queues b !! receiver message = None →
      queues (send message b) !! receiver message = Some [message] ∧
      messages_sent (stats (send message b)) = (messages_sent (stats b) + 1)%Z ∧
      ∀ timeout, nonnegative timeout →
        ∃ b', receive (receiver message) timeout (send message b)
              = Returns (Some message, b')) ∧
  (∀ b agent_id timeout,
      queues b !! agent_id = None →
      receive agent_id timeout b = Raises ValueError).
Proof.
  split.
  - intros b message Hq.
    assert (queues (send message b) !! receiver message = Some [message]) as Hs
      by (by rewrite send_queue, Hq).
    split; [done|]. split.
    + unfold send, register_agent, _add_to_history. rewrite Hq. done.
    + intros timeout Ht. unfold receive. rewrite Hs.
      destruct timeout as [secs|]; simpl in *; [|eauto].
      rewrite decide_False by lia. eauto.
  - intros b agent_id timeout Hq. unfold receive. by rewrite Hq.
Qed.

Definition hello : Message :=
  mkMessage "alice" "bob" "notification" (AStr "hello") ∅ "m1".

Lemma send_registers_receive_raises_witness :
  queues (send hello init) !! "bob" = Some [hello] ∧
  receive "bob" (Some 5%Z) init = Raises ValueError.
Proof.
  destruct send_registers_receive_raises as [H1 H2]. split.
  - apply (H1 init hello). reflexivity.
  - apply (H2 init "bob" (Some 5%Z)). reflexivity.
Defined.

End MessageBusFacts.

(** ** The agent directory: workload and status *)

Module AgentRegistryFacts.
Import AgentRegistry.

(** The operations of [AgentRegistry] that create or change records. *)
Inductive op : Type :=
  | Register (agent_id agent_type name : string) (capabilities : list string)
  | Unregister (agent_id : string)
  | UpdateStatus (agent_id status : string)
  | Increment (agent_id : string)
  | Decrement (agent_id : string)
  | Record (agent_id : string) (success : bool).

Definition step (o : op) (r : t) : t :=
  match o with
  | Register agent_id agent_type name capabilities =>
      (register agent_id agent_type name capabilities r).2
  | Unregister agent_id => unregister agent_id r
  | UpdateStatus agent_id s => update_agent_status agent_id s r
  | Increment agent_id => increment_agent_workload agent_id r
  | Decrement agent_id => decrement_agent_workload agent_id r
  | Record agent_id success => record_task_completion agent_id success r
  end.

Definition run (ops : list op) (r : t) : t := foldl (λ r o, step o r) r ops.

(** The invariant of the data model: idle exactly at workload 0, busy
    exactly at a positive workload, unless the status is offline. *)
Definition status_matches_workload (a : AgentInfo) : Prop :=
  status a = "offline" ∨
  ((status a = "idle" ↔ workload a = 0%Z) ∧
   (status a = "busy" ↔ (0 < workload a)%Z)).

(** [update_agent_status] used for what the invariant allows it to do:
    taking an agent offline. *)
Definition only_sets_offline (o : op) : Prop :=
  match o with
  | UpdateStatus _ s => s = "offline"
  | _ => True
  end.

Lemma registry_run_snoc ops o r : run (ops ++ [o]) r = step o (run ops r).
Proof. unfold run. by rewrite foldl_app. Qed.

Lemma increment_workload_ok a :
  (0 ≤ workload a)%Z →
  (0 ≤ workload (increment_workload a))%Z ∧
  status_matches_workload (increment_workload a).
Proof.
  intros Hw. unfold status_matches_workload; simpl. split; [lia|]. right.
  split; split; try done; lia.
Qed.

Lemma decrement_workload_ok a :
  (0 ≤ workload a)%Z → status_matches_workload a →
  status_matches_workload (decrement_workload a).
Proof.
  intros Hw Hs. unfold status_matches_workload in *; simpl.
  destruct (decide (Z.max 0 (workload a - 1) = 0%Z)) as [Hz|Hz].
  - right. rewrite Hz. split; split; try done; lia.
  - destruct Hs as [Hoff|[Hidle Hbusy]]; [by left|]. right.
    assert (0 < workload a)%Z as Hpos by lia.
    split; split; intros H; try lia.
    + apply Hidle in H. lia.
    + by apply Hbusy.
Qed.

(** One operation changes the record stored under [aid] in one of these
    ways. *)
Lemma step_record o r aid a' :
  agents (step o r) !! aid = Some a' →
  (∃ ty n caps, o = Register aid ty n caps ∧ a' = mkAgentInfo aid ty n caps "idle" 0 0 0) ∨
  agents r !! aid = Some a' ∨
  ∃ a, agents r !! aid = Some a ∧
       (a' = increment_workload a ∨ a' = decrement_workload a ∨
        a' = complete_task a ∨ a' = fail_task a ∨
        ∃ s, o = UpdateStatus aid s ∧ a' = set_status s a).
Proof.
  destruct o as [id ty n caps|id|id s|id|id|id success]; simpl.
  - destruct (decide (id = aid)) as [->|Hne].
    + rewrite lookup_insert_eq. intros [= <-]. left. eauto.
    + rewrite lookup_insert_ne by done. auto.
  - unfold unregister. destruct (agents r !! id) eqn:E; simpl; [|auto].
    destruct (decide (id = aid)) as [->|Hne].
    + by rewrite lookup_delete_eq.
    + rewrite lookup_delete_ne by done. auto.
  - destruct (decide (id = aid)) as [->|Hne].
    + rewrite lookup_alter_eq. destruct (agents r !! aid) eqn:E; simpl; [|done].
      intros [= <-]. right; right. eexists; split; [done|]. eauto 10.
    + rewrite lookup_alter_ne by done. auto.
  - destruct (decide (id = aid)) as [->|Hne].
    + rewrite lookup_alter_eq. destruct (agents r !! aid) eqn:E; simpl; [|done].
      intros [= <-]. right; right. eexists; split; [done|]. eauto 10.
    + rewrite lookup_alter_ne by done. auto.
  - destruct (decide (id = aid)) as [->|Hne].
    + rewrite lookup_alter_eq. destruct (agents r !! aid) eqn:E; simpl; [|done].
      intros [= <-]. right; right. eexists; split; [done|]. eauto 10.
    + rewrite lookup_alter_ne by done. auto.
  - destruct (decide (id = aid)) as [->|Hne].
    + rewrite lookup_alter_eq. destruct (agents r !! aid) eqn:E; simpl; [|done].
      intros [= <-]. right; right. eexists; split; [done|].
      destruct success; eauto 10.
    + rewrite lookup_alter_ne by done. auto.
Qed.

Lemma workload_nonneg ops : ∀ aid a,
  agents (run ops init) !! aid = Some a → (0 ≤ workload a)%Z.
Proof.
  induction ops as [|o ops IH] using rev_ind; intros aid a.
  - done.
  - rewrite registry_run_snoc. intros Ha. apply step_record in Ha.
    destruct Ha as [(ty & n & caps & _ & ->)|[Ha|(a0 & Ha0 & Ha)]].
    + simpl. lia.
    + eauto.
    + apply IH in Ha0.
      destruct Ha as [->|[->|[->|[->|(s & _ & ->)]]]]; simpl; lia.
Qed.

(** C4 (amended). Along every sequence of registry operations the
    workload of every record is non-negative; and when
    [update_agent_status] is only used to set "offline", every record is
    idle exactly at workload 0 and busy exactly at a positive workload,
    unless it is offline. *)
Theorem workload_status_invariant ops aid a :
  agents (run ops init) !! aid = Some a →
  (0 ≤ workload a)%Z ∧
  (Forall only_sets_offline ops → status_matches_workload a).
Proof.
  intros Ha. split; [by eapply workload_nonneg|].
  revert aid a Ha. induction ops as [|o ops IH] using rev_ind; intros aid a.
  - done.
  - rewrite registry_run_snoc. intros Ha Hall.
    apply Forall_app in Hall as [Hops Ho]. apply Forall_inv in Ho.
    apply step_record in Ha.
    destruct Ha as [(ty & n & caps & _ & ->)|[Ha|(a0 & Ha0 & Ha)]].
    + right. simpl. split; split; try done; lia.
    + eauto.
    + pose proof (workload_nonneg _ _ _ Ha0) as Hw.
      specialize (IH _ _ Ha0 Hops).
      destruct Ha as [->|[->|[->|[->|(s & -> & ->)]]]].
      * by apply increment_workload_ok.
      * by apply decrement_workload_ok.
      * by apply (decrement_workload_ok (mkAgentInfo _ _ _ _ _ _ _ _)).
      * by apply (decrement_workload_ok (mkAgentInfo _ _ _ _ _ _ _ _)).
      * left. exact Ho.
Qed.

Definition busy_day : list op :=
  [Register "a1" "researcher" "R" ["search"]; Increment "a1"; Increment "a1";
   UpdateStatus "a1" "offline"; Record "a1" true; Decrement "a1";
   Decrement "a1"; Increment "a1"].

Lemma workload_status_invariant_witness :
  (0 ≤ 1)%Z ∧
  status_matches_workload (mkAgentInfo "a1" "researcher" "R" ["search"] "busy" 1 1 0).
Proof.
  destruct (workload_status_invariant busy_day "a1"
              (mkAgentInfo "a1" "researcher" "R" ["search"] "busy" 1 1 0))
    as [H1 H2]; [reflexivity|].
  split; [exact H1|]. apply H2.
  repeat first [apply Forall_nil_2
               |apply Forall_cons_2; [simpl; first [exact I|reflexivity]|]].
Defined.

(** C4 as stated fails: [update_agent_status] stores whatever status it is
    given, here "busy" on an agent without work. *)
Lemma update_agent_status_breaks_invariant :
  ∃ a, agents (run [Register "a1" "researcher" "R" []; UpdateStatus "a1" "busy"] init)
         !! "a1" = Some a ∧
       status a = "busy" ∧ workload a = 0%Z ∧ ¬ status_matches_workload a.
Proof.
  eexists. split; [reflexivity|]. simpl. split; [done|]. split; [done|].
  intros [Hoff|[_ Hbusy]]; [done|].
  assert (0 < 0)%Z by (by apply Hbusy). lia.
Qed.


(** *** Registering an identifier again *)

Definition getidx (index : gmap string (gset string)) (k : string) : gset string :=
  default ∅ (index !! k).

Lemma getidx_index_add index k aid k' :
  getidx (index_add k aid index) k'
  = if decide (k = k') then {[aid]} ∪ getidx index k else getidx index k'.
Proof.
  unfold getidx, index_add. destruct (decide (k = k')) as [->|Hne].
  - by rewrite lookup_insert_eq.
  - by rewrite lookup_insert_ne.
Qed.

Lemma getidx_index_discard index k aid k' :
  getidx (index_discard k aid index) k'
  = if decide (k = k') then getidx index k ∖ {[aid]} else getidx index k'.
Proof.
  unfold getidx, index_discard. destruct (decide (k = k')) as [->|Hne].
  - rewrite lookup_alter_eq. destruct (index !! k'); simpl; [done|].
    apply leibniz_equiv. intros x. rewrite elem_of_difference.
    split; [intros []%not_elem_of_empty|intros [[]%not_elem_of_empty _]].
  - by rewrite lookup_alter_ne.
Qed.

Lemma getidx_add_all caps : ∀ index aid k,
  getidx (foldl (λ index c, index_add c aid index) index caps) k
  = if decide (k ∈ caps) then {[aid]} ∪ getidx index k else getidx index k.
Proof.
  induction caps as [|c caps IH]; intros index aid k; simpl.
  - done.
  - rewrite IH, getidx_index_add.
    destruct (decide (k ∈ caps)) as [Hin|Hin], (decide (c = k)) as [->|Hne].
    + rewrite decide_True by (by left). apply leibniz_equiv. intros x.
      rewrite !elem_of_union. tauto.
    + rewrite decide_True by (by right). done.
    + rewrite decide_True by (by left). done.
    + rewrite decide_False; [done|].
      intros [->|?]%elem_of_cons; [done|done].
Qed.

Lemma getidx_discard_all caps : ∀ index aid k other,
  other ≠ aid →
  other ∈ getidx index k →
  other ∈ getidx (foldl (λ index c, index_discard c aid index) index caps) k.
Proof.
  induction caps as [|c caps IH]; intros index aid k other Hne Hin; simpl; [done|].
  apply IH; [done|]. rewrite getidx_index_discard.
  destruct (decide (c = k)) as [->|]; [|done].
  apply elem_of_difference. split; [done|]. by rewrite elem_of_singleton.
Qed.

(** A record is indexed under its type and under each of its capabilities. *)
Definition indexed (r : t) (aid : string) (a : AgentInfo) : Prop :=
  aid ∈ getidx (agents_by_type r) (agent_type a) ∧
  ∀ c, c ∈ capabilities a → aid ∈ getidx (agents_by_capability r) c.

Lemma alter_keeps_indexed (f : AgentInfo → AgentInfo) r r' id aid a' :
  (∀ a, agent_type (f a) = agent_type a ∧ capabilities (f a) = capabilities a) →
  agents r' = alter f id (agents r) →
  agents_by_type r' = agents_by_type r →
  agents_by_capability r' = agents_by_capability r →
  (∀ a, agents r !! aid = Some a → indexed r aid a) →
  agents r' !! aid = Some a' → indexed r' aid a'.
Proof.
  intros Hf Hag Hty Hcap IH. rewrite Hag. unfold indexed. rewrite Hty, Hcap.
  destruct (decide (id = aid)) as [->|Hne].
  - rewrite lookup_alter_eq. destruct (agents r !! aid) as [a|] eqn:E; simpl; [|done].
    intros [= <-]. destruct (Hf a) as [-> ->]. by apply IH.
  - rewrite lookup_alter_ne by done. apply IH.
Qed.

Lemma registered_indexed ops : ∀ aid a,
  agents (run ops init) !! aid = Some a → indexed (run ops init) aid a.
Proof.
  induction ops as [|o ops IH] using rev_ind; intros aid a; [done|].
  rewrite registry_run_snoc. set (r := run ops init) in *.
  destruct o as [id ty n caps|id|id s|id|id|id success]; unfold step.
  - simpl. destruct (decide (id = aid)) as [->|Hne].
    + rewrite lookup_insert_eq. intros [= <-]. split; simpl.
      * rewrite getidx_index_add, decide_True by done.
        apply elem_of_union_l. by apply elem_of_singleton.
      * intros c Hc. rewrite getidx_add_all, decide_True by done.
        apply elem_of_union_l. by apply elem_of_singleton.
    + rewrite lookup_insert_ne by done. intros Ha.
      destruct (IH _ _ Ha) as [Hty Hcap]. split; simpl.
      * rewrite getidx_index_add. case_decide as Hd; [|done].
        rewrite Hd. by apply elem_of_union_r.
      * intros c Hc. rewrite getidx_add_all. case_decide; [|by apply Hcap].
        apply elem_of_union_r. by apply Hcap.
  - unfold unregister. destruct (agents r !! id) as [info|] eqn:E; [|apply IH].
    simpl. destruct (decide (id = aid)) as [->|Hne].
    + by rewrite lookup_delete_eq.
    + rewrite lookup_delete_ne by done. intros Ha.
      destruct (IH _ _ Ha) as [Hty Hcap]. split; simpl.
      * rewrite getidx_index_discard. case_decide as Hd; [|done].
        apply elem_of_difference. rewrite Hd. split; [done|].
        rewrite elem_of_singleton. congruence.
      * intros c Hc. apply getidx_discard_all; [congruence|by apply Hcap].
  - apply (alter_keeps_indexed (set_status s) r _ id);
      [by intros; split|done|done|done|apply IH].
  - apply (alter_keeps_indexed increment_workload r _ id);
      [by intros; split|done|done|done|apply IH].
  - apply (alter_keeps_indexed decrement_workload r _ id);
      [by intros; split|done|done|done|apply IH].
  - apply (alter_keeps_indexed (if success then complete_task else fail_task) r _ id);
      [by intros; destruct success; split|done|done|done|apply IH].
Qed.

Lemma min_by_spec {A : Type} (key : A → Z) l : ∀ best,
  min_by key best l ∈ best :: l ∧
  ∀ x, x ∈ best :: l → (key (min_by key best l) ≤ key x)%Z.
Proof.
  induction l as [|y l IH]; intros best; simpl.
  - split; [by left|]. intros x ->%list_elem_of_singleton. lia.
  - destruct (IH (if decide (key y < key best)%Z then y else best)) as [Hin Hle].
    split.
    + apply elem_of_cons in Hin as [->|Hin].
      * case_decide; [right; by left|by left].
      * right; by right.
    + intros x Hx.
      assert (key (min_by key (if decide (key y < key best)%Z then y else best) l)
              ≤ key (if decide (key y < key best)%Z then y else best))%Z as H0
        by (apply Hle; by left).
      apply elem_of_cons in Hx as [->|Hx]; [case_decide; lia|].
      apply elem_of_cons in Hx as [->|Hx]; [case_decide; lia|].
      apply Hle. by right.
Qed.

Lemma lookup_all_elem r ids l aid a :
  lookup_all r ids = Returns l → aid ∈ ids → agents r !! aid = Some a → a ∈ l.
Proof.
  unfold lookup_all. destruct (mapM _ _) as [k|] eqn:E; [|done].
  intros [= ->] Hin Ha. apply mapM_Some_1 in E.
  apply elem_of_elements in Hin. apply list_elem_of_lookup in Hin as [i Hi].
  destruct (Forall2_lookup_l _ _ _ _ _ E Hi) as (y & Hy & Hfy).
  rewrite Ha in Hfy. injection Hfy as <-. by eapply list_elem_of_lookup_2.
Qed.

Lemma lookup_all_returns r ids :
  (∀ aid, aid ∈ ids → is_Some (agents r !! aid)) →
  ∃ l, lookup_all r ids = Returns l.
Proof.
  intros Hall. unfold lookup_all.
  destruct (mapM_is_Some_2 (λ aid, agents r !! aid) (elements ids)) as [l ->];
    [|by eauto].
  apply Forall_forall. intros aid Hin%elem_of_elements. by apply Hall.
Qed.

(** C9 (amended). Registering an identifier again under another type
    stores a fresh idle record with workload and counters at zero, and
    leaves the identifier in the index of the old type and in every
    capability index that held it. When every identifier indexed under
    the old type has a record, [find_by_type] on the old type lists the
    new record, and [find_available_agent] restricted to the old type
    returns an agent of workload zero at most, which is this agent's
    record whenever every other available agent listed there has work. *)
Theorem register_again_stays_in_old_index ops aid old new_type new_name new_caps :
  let r := run ops init in
  let info := (register aid new_type new_name new_caps r).1 in
  let r' := (register aid new_type new_name new_caps r).2 in
  agents r !! aid = Some old →
  agent_type old ≠ new_type →
  agent_type old ≠ EmptyString →
  agents r' !! aid = Some info ∧
  info = mkAgentInfo aid new_type new_name new_caps "idle" 0 0 0 ∧
  aid ∈ getidx (agents_by_type r') (agent_type old) ∧
  (∀ c, c ∈ capabilities old → aid ∈ getidx (agents_by_capability r') c) ∧
  ((∀ other, other ∈ getidx (agents_by_type r) (agent_type old) →
             is_Some (agents r !! other)) →
   ∃ l, find_by_type (agent_type old) r' = Returns l ∧ info ∈ l ∧
     ∃ a, find_available_agent (Some (agent_type old)) None r' = Returns (Some a) ∧
          (workload a ≤ 0)%Z ∧
          ((∀ b, b ∈ l → b ≠ info → available b = true → (0 < workload b)%Z) →
           a = info)).
Proof.
  intros r info r' Hold Hty Hne.
  destruct (registered_indexed ops aid old Hold) as [Hidx Hcaps]. fold r in Hidx, Hcaps.
  assert (getidx (agents_by_type r') (agent_type old)
          = getidx (agents_by_type r) (agent_type old)) as Hsame.
  { subst r'. simpl. rewrite getidx_index_add. by rewrite decide_False. }
  assert (agents r' !! aid = Some info) as Hinfo
    by (subst r' info; simpl; apply lookup_insert_eq).
  split; [done|]. split; [done|]. split; [by rewrite Hsame|]. split.
  { intros c Hc. subst r'. simpl. rewrite getidx_add_all.
    case_decide; [apply elem_of_union_r|]; by apply Hcaps. }
  intros Hrec.
  destruct (lookup_all_returns r' (getidx (agents_by_type r') (agent_type old)))
    as [l Hl].
  { intros other Hother. rewrite Hsame in Hother. subst r'. simpl.
    destruct (decide (aid = other)) as [->|Hd].
    - rewrite lookup_insert_eq. eauto.
    - rewrite lookup_insert_ne by done. by apply Hrec. }
  assert (info ∈ l) as Hin.
  { eapply lookup_all_elem; [exact Hl| |exact Hinfo]. by rewrite Hsame. }
  exists l. split; [exact Hl|]. split; [exact Hin|].
  unfold find_available_agent. simpl. rewrite decide_False by done.
  unfold find_by_type. fold (getidx (agents_by_type r') (agent_type old)).
  rewrite Hl.
  assert (info ∈ filter (λ a, available a = true) l) as Hf
    by (apply list_elem_of_filter; split; [done|exact Hin]).
  destruct (filter (λ a, available a = true) l) as [|a0 rest] eqn:Ef;
    [by apply not_elem_of_nil in Hf|].
  destruct (min_by_spec workload rest a0) as [Hmin Hle].
  exists (min_by workload a0 rest). split; [done|]. split.
  - apply (Hle info Hf).
  - intros Hbusy. destruct (decide (min_by workload a0 rest = info)) as [|Hd]; [done|].
    rewrite <- Ef in Hmin. apply list_elem_of_filter in Hmin as [Hav Hml].
    specialize (Hbusy _ Hml Hd Hav). specialize (Hle info Hf). simpl in Hle. lia.
Qed.

(** Checking a property of the members of a concrete set by running
    through its elements. *)
Lemma set_forall_elements (X : gset string) (P : string → bool) :
  forallb P (elements X) = true → ∀ x, x ∈ X → P x = true.
Proof.
  intros Hall x Hx. rewrite forallb_forall in Hall. apply Hall.
  apply list_elem_of_In. by apply elem_of_elements.
Qed.

Definition two_researchers : list op :=
  [Register "a1" "researcher" "R1" ["search"]; Register "a2" "researcher" "R2" [];
   Increment "a2"].

Lemma register_again_stays_in_old_index_witness :
  find_available_agent (Some "researcher") None
    (register "a1" "writer" "W" [] (run two_researchers init)).2
  = Returns (Some (mkAgentInfo "a1" "writer" "W" [] "idle" 0 0 0)).
Proof.
  destruct (register_again_stays_in_old_index two_researchers "a1"
              (mkAgentInfo "a1" "researcher" "R1" ["search"] "idle" 0 0 0)
              "writer" "W" [])
    as (_ & _ & _ & _ & H); [reflexivity|done|done|].
  destruct H as (l & Hl & _ & a & Ha & _ & Huniq).
  { intros other Hother.
    apply (set_forall_elements _
             (λ x, bool_decide (is_Some (agents (run two_researchers init) !! x))))
      in Hother; [by apply bool_decide_eq_true in Hother|].
    vm_compute. reflexivity. }
  etrans; [exact Ha|]. f_equal. f_equal. apply Huniq.
  intros b Hb Hne Hav. vm_compute in Hl. injection Hl as <-.
  repeat (apply elem_of_cons in Hb as [->|Hb]; [first [done|simpl; lia]|]).
  by apply not_elem_of_nil in Hb.
Defined.

(** C9 as stated fails in two ways. After ["x"] was registered under "T",
    then under "U", then unregistered, "x" is still indexed under "T"
    without a record: [find_by_type "T"] and [find_available_agent] on "T"
    raise [KeyError], also once "y" has moved from "T" to "V". And of two
    idle agents indexed under "T", [min] returns the first in the set's
    iteration order, which need not be the one registered again (the order
    of "T"'s set is the same whether "a1" or "a2" moves to "V", so one of
    the two moves gets the other agent back). *)
Lemma register_again_not_returned :
  (let r := run [Register "x" "T" "X" []; Register "x" "U" "X" [];
                 Unregister "x"; Register "y" "T" "Y" []] init in
   agents r !! "y" = Some (mkAgentInfo "y" "T" "Y" [] "idle" 0 0 0) ∧
   find_by_type "T" (register "y" "V" "Y" [] r).2 = Raises KeyError ∧
   find_available_agent (Some "T") None (register "y" "V" "Y" [] r).2
   = Raises KeyError) ∧
  (let r := run [Register "a1" "T" "A1" []; Register "a2" "T" "A2" []] init in
   agents r !! "a2" = Some (mkAgentInfo "a2" "T" "A2" [] "idle" 0 0 0) ∧
   find_available_agent (Some "T") None (register "a2" "V" "A2" [] r).2
   = Returns (Some (mkAgentInfo "a1" "T" "A1" [] "idle" 0 0 0))).
Proof. vm_compute. done. Qed.

Lemma lookup_all_inv r ids l a :
  lookup_all r ids = Returns l → a ∈ l →
  ∃ aid, aid ∈ ids ∧ agents r !! aid = Some a.
Proof.
  unfold lookup_all. destruct (mapM _ _) as [k|] eqn:E; [|done].
  intros [= ->] Hin. apply mapM_Some_1 in E.
  apply list_elem_of_lookup in Hin as [i Hi].
  destruct (Forall2_lookup_r _ _ _ _ _ E Hi) as (aid & Haid & Hfa).
  exists aid. split; [|done]. apply elem_of_elements.
  by eapply list_elem_of_lookup_2.
Qed.

(** A record sits under its own identifier. *)
Lemma run_agent_id ops : ∀ aid a,
  agents (run ops init) !! aid = Some a → agent_id a = aid.
Proof.
  induction ops as [|o ops IH] using rev_ind; intros aid a.
  - simpl. by rewrite lookup_empty.
  - rewrite registry_run_snoc. intros Ha.
    apply step_record in Ha
      as [(ty & n & caps & _ & ->)|[Ha|(a0 & Ha0 & Ha)]]; [done|by apply IH|].
    pose proof (IH aid a0 Ha0) as Hid.
    destruct Ha as [->|[->|[->|[->|(s & _ & ->)]]]]; done.
Qed.

(** [agent_order] lists the keys of [agents], each once. *)
Lemma agent_order_keys ops :
  NoDup (agent_order (run ops init)) ∧
  ∀ aid, aid ∈ agent_order (run ops init) ↔ is_Some (agents (run ops init) !! aid).
Proof.
  induction ops as [|o ops IH] using rev_ind.
  - split; [apply NoDup_nil_2|]. intros aid. simpl. rewrite lookup_empty.
    split; [by intros ?%elem_of_nil|by intros []].
  - destruct IH as [Hnd Hkeys]. rewrite registry_run_snoc.
    set (r := run ops init) in *.
    assert (∀ (f : AgentInfo → AgentInfo) id aid,
              is_Some (alter f id (agents r) !! aid) ↔ is_Some (agents r !! aid))
      as Halter.
    { intros f id aid. destruct (decide (id = aid)) as [->|Hne].
      - rewrite lookup_alter_eq. destruct (agents r !! aid); simpl.
        + split; eauto.
        + split; by intros [].
      - by rewrite lookup_alter_ne. }
    destruct o as [id ty n caps|id|id st|id|id|id success]; simpl;
      try (split; [done|]; intros aid; by rewrite Halter).
    + destruct (agents r !! id) as [a0|] eqn:E.
      * split; [done|]. intros aid. rewrite Hkeys.
        destruct (decide (id = aid)) as [->|Hne].
        -- rewrite lookup_insert_eq, E. split; eauto.
        -- by rewrite lookup_insert_ne.
      * split.
        -- apply NoDup_app. split; [done|]. split; [|apply NoDup_singleton].
           intros aid Hin ->%list_elem_of_singleton.
           apply Hkeys in Hin as [? ?]. congruence.
        -- intros aid. rewrite elem_of_app, list_elem_of_singleton, Hkeys.
           destruct (decide (id = aid)) as [->|Hne].
           ++ rewrite lookup_insert_eq. split; eauto.
           ++ rewrite lookup_insert_ne by done. split; [|by left].
              intros [? | ->]; done.
    + unfold unregister. destruct (agents r !! id) as [a0|] eqn:E; [|done].
      simpl. split; [by apply NoDup_filter|]. intros aid.
      rewrite list_elem_of_filter, Hkeys.
      destruct (decide (id = aid)) as [->|Hne].
      * rewrite lookup_delete_eq. split; [by intros [[] _]|by intros []].
      * rewrite lookup_delete_ne by done. split; [by intros [_ ?]|].
        intros H. split; [by intros ->|done].
Qed.

(** An agent [find_available_agent] returns is a record of the registry,
    and it is idle or busy. *)
Lemma find_available_agent_registered ty capability r a :
  find_available_agent ty capability r = Returns (Some a) →
  available a = true ∧ ∃ aid, agents r !! aid = Some a.
Proof.
  unfold find_available_agent.
  assert (∀ ids, match lookup_all r ids with
                 | Returns l => ∀ x, x ∈ l → ∃ aid, agents r !! aid = Some x
                 | _ => True
                 end) as Hall.
  { intros ids. destruct (lookup_all r ids) as [l| |] eqn:E; [|done|done].
    intros x Hx. destruct (lookup_all_inv r ids l x E Hx) as (aid & _ & Ha). eauto. }
  assert (∀ l : list AgentInfo,
            (∀ x, x ∈ l → ∃ aid, agents r !! aid = Some x) →
            match filter (λ a, available a = true) l with
            | [] => Returns None
            | a0 :: rest => Returns (Some (min_by workload a0 rest))
            end = Returns (Some a) →
            available a = true ∧ ∃ aid, agents r !! aid = Some a) as Hpick.
  { intros l Hl. destruct (filter (λ a, available a = true) l) as [|a0 rest] eqn:Ef;
      [done|].
    intros [= <-]. destruct (min_by_spec workload rest a0) as [Hin _].
    rewrite <- Ef in Hin. apply list_elem_of_filter in Hin as [Hav Hin].
    split; [done|]. by apply Hl. }
  destruct (truthy ty) as [ty'|].
  - unfold find_by_type. specialize (Hall (default ∅ (agents_by_type r !! ty'))).
    destruct (lookup_all r _) as [l| |]; [|done|done]. by apply Hpick.
  - destruct (truthy capability) as [c|].
    + unfold find_by_capability.
      specialize (Hall (default ∅ (agents_by_capability r !! c))).
      destruct (lookup_all r _) as [l| |]; [|done|done]. by apply Hpick.
    + apply Hpick. intros x (aid & _ & Hx)%list_elem_of_omap. eauto.
Qed.

End AgentRegistryFacts.

(** ** The binary heap keeps its entries *)

Module heapqFacts.
Import heapq.
Section heapqFacts.
Context {A : Type} (lt : A → A → bool).

Lemma insert_cons_perm (l : list A) : ∀ j x y,
  l !! j = Some y → y :: <[j := x]> l ≡ₚ x :: l.
Proof.
  induction l as [|a l IH]; intros [|j] x y Hj; simpl in *; try done.
  - injection Hj as ->. apply perm_swap.
  - etrans; [apply perm_swap|]. etrans; [|apply perm_swap].
    apply perm_skip. by apply IH.
Qed.

Lemma insert_swap_perm (l : list A) : ∀ i x y,
  i < length l → x :: <[i := y]> l ≡ₚ y :: <[i := x]> l.
Proof.
  induction l as [|a l IH]; intros [|i] x y Hi; simpl in *; try lia.
  - apply perm_swap.
  - etrans; [apply perm_swap|]. etrans; [|apply perm_swap].
    apply perm_skip. apply IH. lia.
Qed.

(** Writing [y = l[j]] at [i] and then [x] at [j] leaves the same entries
    as writing [x] at [i]: one step of moving a hole through the heap. *)
Lemma insert_insert_perm (l : list A) : ∀ i j x y,
  i ≠ j → i < length l → l !! j = Some y →
  <[j := x]> (<[i := y]> l) ≡ₚ <[i := x]> l.
Proof.
  induction l as [|a l IH]; intros [|i] [|j] x y Hne Hi Hj; simpl in *;
    try done; try lia.
  - by apply insert_cons_perm.
  - injection Hj as ->. apply insert_swap_perm. lia.
  - f_equiv. apply IH; [congruence|lia|done].
Qed.

Lemma _siftdown_loop_perm startpos fuel : ∀ heap newitem pos,
  pos < length heap →
  _siftdown_loop lt fuel heap newitem startpos pos ≡ₚ <[pos := newitem]> heap.
Proof.
  induction fuel as [|fuel IH]; intros heap newitem pos Hpos;
    cbn [_siftdown_loop]; [done|].
  case_decide as Hlt; [|done].
  assert ((pos - 1) `div` 2 < pos) as Hpar.
  { apply Nat.le_lt_trans with (pos - 1); [|lia]. apply Nat.Div0.div_le_upper_bound. lia. }
  remember ((pos - 1) `div` 2) as parentpos eqn:Hpp. clear Hpp.
  destruct (lookup_lt_is_Some_2 heap parentpos) as [parent Hparent]; [lia|].
  unfold getitem. rewrite Hparent. simpl.
  destruct (lt newitem parent); [|done].
  rewrite IH by (rewrite length_insert; lia).
  apply insert_insert_perm; [lia|done|done].
Qed.

Lemma _siftdown_perm heap startpos pos : _siftdown lt heap startpos pos ≡ₚ heap.
Proof.
  unfold _siftdown. destruct (heap !! pos) as [newitem|] eqn:E; [|done].
  rewrite _siftdown_loop_perm by (by eapply lookup_lt_Some).
  by rewrite list_insert_id.
Qed.

Lemma _siftup_loop_perm endpos fuel : ∀ heap newitem pos heap' pos',
  endpos ≤ length heap → pos < length heap →
  _siftup_loop lt fuel heap newitem endpos pos = (heap', pos') →
  pos' < length heap' ∧ <[pos' := newitem]> heap' ≡ₚ <[pos := newitem]> heap.
Proof.
  induction fuel as [|fuel IH]; intros heap newitem pos heap' pos' Hend Hpos;
    cbn [_siftup_loop].
  - intros [= <- <-]. done.
  - case_decide as Hchild; [|intros [= <- <-]; done].
    set (childpos := if decide (2 * pos + 1 + 1 < endpos)
                     then if negb (lt (getitem heap (2 * pos + 1) newitem)
                                      (getitem heap (2 * pos + 1 + 1) newitem))
                          then 2 * pos + 1 + 1 else 2 * pos + 1
                     else 2 * pos + 1).
    assert (pos < childpos ∧ childpos < endpos) as [Hgt Hlt].
    { subst childpos. case_decide; [destruct (negb _)|]; lia. }
    destruct (lookup_lt_is_Some_2 heap childpos) as [child Hc]; [lia|].
    unfold getitem at 1. rewrite Hc. simpl. intros Hloop.
    apply IH in Hloop; [|rewrite length_insert; lia..].
    destruct Hloop as [Hlen Hperm]. split; [done|].
    rewrite Hperm. apply insert_insert_perm; [lia|done|done].
Qed.

Lemma _siftup_perm heap pos : _siftup lt heap pos ≡ₚ heap.
Proof.
  unfold _siftup. destruct (heap !! pos) as [newitem|] eqn:E; [|done].
  destruct (_siftup_loop lt _ _ _ _ _) as [heap' pos'] eqn:Hloop.
  apply _siftup_loop_perm in Hloop as [Hlen Hperm];
    [|done|by eapply lookup_lt_Some].
  rewrite _siftdown_perm, Hperm. by rewrite list_insert_id.
Qed.

Lemma heappush_perm heap item : heappush lt heap item ≡ₚ item :: heap.
Proof.
  unfold heappush. rewrite _siftdown_perm. by rewrite Permutation_app_comm.
Qed.

Lemma heappop_perm heap item heap' :
  heappop lt heap = Some (item, heap') → heap ≡ₚ item :: heap'.
Proof.
  unfold heappop. destruct (last heap) as [lastelt|] eqn:Hlast; [|done].
  apply last_Some in Hlast as [front ->].
  rewrite length_app, Nat.add_sub, take_app_length.
  destruct front as [|returnitem front]; simpl.
  - by intros [= <- <-].
  - intros [= <- <-]. rewrite _siftup_perm.
    apply perm_skip. symmetry. apply Permutation_cons_append.
Qed.

Lemma heappop_None heap : heappop lt heap = None ↔ heap = [].
Proof.
  unfold heappop. split.
  - destruct (last heap) eqn:Hlast; [|intros _; by apply last_None].
    by destruct (take _ _).
  - by intros ->.
Qed.

(** With no entry smaller than the new one, [heappush] appends. *)
Lemma heappush_append heap item :
  (∀ x, x ∈ heap → lt item x = false) → heappush lt heap item = heap ++ [item].
Proof.
  intros Hge. unfold heappush, _siftdown.
  rewrite length_app, Nat.add_sub. simpl.
  rewrite lookup_app_r, Nat.sub_diag by done. simpl.
  destruct (length heap) as [|n] eqn:Hlen; cbn [_siftdown_loop].
  - by destruct heap.
  - rewrite decide_True by lia.
    assert ((S n - 1) `div` 2 < S n) as Hpar.
    { apply Nat.le_lt_trans with (S n - 1); [|lia].
      apply Nat.Div0.div_le_upper_bound. lia. }
    remember ((S n - 1) `div` 2) as parentpos eqn:Hpp. clear Hpp.
    destruct (lookup_lt_is_Some_2 heap parentpos) as [p Hp]; [lia|].
    unfold getitem. rewrite lookup_app_l, Hp by lia. cbn [default from_option id].
    rewrite (Hge p) by (by eapply list_elem_of_lookup_2).
    rewrite <- Hlen. apply list_insert_id.
    by rewrite lookup_app_r, Nat.sub_diag.
Qed.

End heapqFacts.
End heapqFacts.

(** ** The task queue: what is queued, and in which order it comes out *)

Module TaskQueueFacts.
Import TaskQueue.

(** The calls a client makes on a [TaskQueue]. *)
Inductive op : Type :=
  | AddTask (new_id agent_type action : string) (input_data : Any)
            (priority : Z) (dependencies : option (list string))
            (metadata : option (gmap string Any))
  | GetNextTask (timeout : option Z)
  | CompleteTask (tid : string) (r : Any)
  | FailTask (tid : string) (e : string)
  | CancelTask (tid : string).

(** The queue after a call (a [get_next_task] that raises or blocks leaves
    it as it was). *)
Definition step (o : op) (q : t) : t :=
  match o with
  | AddTask new_id agent_type action input_data priority dependencies metadata =>
      (add_task new_id agent_type action input_data priority dependencies
                metadata q).2
  | GetNextTask timeout =>
      match get_next_task timeout q with
      | Returns (_, q') => q'
      | _ => q
      end
  | CompleteTask tid r => complete_task tid r q
  | FailTask tid e => fail_task tid e q
  | CancelTask tid => cancel_task tid q
  end.

Definition run (ops : list op) (q : t) : t := foldl (λ q o, step o q) q ops.

(** The identifiers drawn by the [add_task] calls, in order; [uuid4]
    draws a new one each time. *)
Definition added_ids (ops : list op) : list string :=
  omap (λ o, match o with
             | AddTask new_id _ _ _ _ _ _ => Some new_id
             | _ => None
             end) ops.

Definition fresh_ids (ops : list op) : Prop := NoDup (added_ids ops).

Definition nonnegative (timeout : option Z) : Prop :=
  match timeout with
  | Some secs => (0 ≤ secs)%Z
  | None => True
  end.

(** [n] consecutive [get_next_task] calls: the tasks they return, up to
    the first call that returns no task. *)
Fixpoint drain (timeout : option Z) (n : nat) (q : t) : list Task :=
  match n with
  | O => []
  | S n =>
      match get_next_task timeout q with
      | Returns (Some task, q') => task :: drain timeout n q'
      | _ => []
      end
  end.

(** The same on the heap alone. *)
Fixpoint heap_drain (n : nat) (heap : list qitem) : list qitem :=
  match n with
  | O => []
  | S n =>
      match heapq.heappop task_lt heap with
      | Some (item, heap') => item :: heap_drain n heap'
      | None => []
      end
  end.

(** Every stored task sits under its own identifier, and every queue entry
    refers to a stored task, carries its priority, and has all its
    dependencies completed. *)
Record wf (q : t) : Prop := mkWf {
  wf_ids : ∀ tid task, tasks q !! tid = Some task → task_id task = tid;
  wf_queue : ∀ p tid, (p, tid) ∈ queue q →
    ∃ task, tasks q !! tid = Some task ∧ priority task = p ∧
            ∀ d, d ∈ dependencies task → d ∈ completed q
}.

(** The field updates of [start], [complete], [fail] and [cancel] leave
    identifier, priority and dependencies alone. *)
Definition keeps_core (f : Task → Task) : Prop :=
  ∀ task, task_id (f task) = task_id task ∧ priority (f task) = priority task ∧
          dependencies (f task) = dependencies task.

Lemma start_keeps_core : keeps_core start.
Proof. by intros []. Qed.
Lemma complete_keeps_core r : keeps_core (complete r).
Proof. by intros []. Qed.
Lemma fail_keeps_core e : keeps_core (fail e).
Proof. by intros []. Qed.
Lemma cancel_keeps_core : keeps_core cancel.
Proof. by intros []. Qed.

Lemma _can_execute_true q task :
  _can_execute q task = true ↔ ∀ d, d ∈ dependencies task → d ∈ completed q.
Proof.
  unfold _can_execute. destruct (dependencies task) as [|d0 deps] eqn:E.
  - split; [|done]. intros _ d Hd. by apply elem_of_nil in Hd.
  - rewrite forallb_forall. split.
    + intros H d Hd. apply list_elem_of_In, H in Hd. by apply bool_decide_eq_true in Hd.
    + intros H d Hd. apply bool_decide_eq_true, H. by apply list_elem_of_In.
Qed.

Lemma wf_alter (f : Task → Task) tid q q' :
  keeps_core f → wf q →
  tasks q' = alter f tid (tasks q) →
  (∀ item, item ∈ queue q' → item ∈ queue q) →
  completed q ⊆ completed q' →
  wf q'.
Proof.
  intros Hf [Hids Hq] Htasks Hsub Hcompl. split.
  - intros tid' task. rewrite Htasks.
    destruct (decide (tid = tid')) as [->|Hne].
    + rewrite lookup_alter_eq. destruct (tasks q !! tid') as [t0|] eqn:E; [|done].
      simpl. intros [= <-]. destruct (Hf t0) as (-> & _ & _). eauto.
    + rewrite lookup_alter_ne by done. eauto.
  - intros p tid' Hin. destruct (Hq p tid' (Hsub _ Hin)) as (task & Ht & Hp & Hd).
    rewrite Htasks. destruct (decide (tid = tid')) as [->|Hne].
    + exists (f task). rewrite lookup_alter_eq, Ht. simpl.
      destruct (Hf task) as (_ & -> & ->). split; [done|]. split; [done|].
      intros d Hdin. apply Hcompl. eauto.
    + exists task. rewrite lookup_alter_ne by done. split; [done|]. split; [done|].
      intros d Hdin. apply Hcompl. eauto.
Qed.

Lemma put_elem heap item x : x ∈ put heap item ↔ x = item ∨ x ∈ heap.
Proof.
  unfold put. rewrite (heapqFacts.heappush_perm task_lt heap item).
  apply elem_of_cons.
Qed.

Lemma get_Returns timeout heap item heap' :
  get timeout heap = Returns (Some (item, heap')) →
  heapq.heappop task_lt heap = Some (item, heap').
Proof.
  unfold get. destruct timeout as [secs|].
  - case_decide; [done|]. by intros [= ->].
  - by destruct (heapq.heappop task_lt heap) as [[]|]; intros [= -> ->].
Qed.

(** What a successful [get_next_task] has done. *)
Lemma get_next_task_Some timeout q task q' :
  get_next_task timeout q = Returns (Some task, q') →
  ∃ p tid, heapq.heappop task_lt (queue q) = Some ((p, tid), queue q') ∧
    tasks q' = alter start tid (tasks q) ∧ tasks q' !! tid = Some task ∧
    pending q' = pending q ∖ {[tid]} ∧ in_progress q' = {[tid]} ∪ in_progress q ∧
    completed q' = completed q ∧ failed q' = failed q ∧ stats q' = stats q.
Proof.
  unfold get_next_task.
  destruct (get timeout (queue q)) as [[[[p tid] heap']|]| |] eqn:E; try done.
  apply get_Returns in E.
  destruct (alter start tid (tasks q) !! tid) as [t0|] eqn:Ht; [|done].
  intros [= <- <-]. exists p, tid. simpl. done.
Qed.

Lemma get_next_task_wf timeout q task q' :
  wf q → get_next_task timeout q = Returns (Some task, q') → wf q'.
Proof.
  intros Hwf (p & tid & Hpop & Htasks & _ & _ & _ & Hc & _)%get_next_task_Some.
  apply (wf_alter start tid q q' start_keeps_core Hwf Htasks).
  - intros item Hin. apply heapqFacts.heappop_perm in Hpop. rewrite Hpop. by right.
  - by rewrite Hc.
Qed.

(** On a well-formed queue with something queued, [get_next_task] with a
    non-negative timeout returns the task the heap's top entry refers to. *)
Lemma get_next_task_pops timeout q p tid heap' :
  wf q → nonnegative timeout →
  heapq.heappop task_lt (queue q) = Some ((p, tid), heap') →
  ∃ task q', get_next_task timeout q = Returns (Some task, q') ∧
             task_id task = tid ∧ queue q' = heap'.
Proof.
  intros Hwf Ht Hpop. pose proof Hpop as Hperm%heapqFacts.heappop_perm.
  destruct (wf_queue q Hwf p tid) as (task & Htask & _ & _).
  { rewrite Hperm. by left. }
  unfold get_next_task.
  assert (get timeout (queue q) = Returns (Some ((p, tid), heap'))) as ->.
  { unfold get. rewrite Hpop. destruct timeout as [secs|]; [|done].
    simpl in Ht. by rewrite decide_False by lia. }
  rewrite lookup_alter_eq, Htask. simpl.
  eexists _, _. split; [done|]. split; [|done].
  destruct (start_keeps_core task) as (-> & _). by eapply wf_ids.
Qed.

Lemma drain_heap_drain timeout n : ∀ q,
  wf q → nonnegative timeout →
  task_id <$> drain timeout n q = (heap_drain n (queue q)).*2.
Proof.
  induction n as [|n IH]; intros q Hwf Ht; [done|]. simpl.
  destruct (heapq.heappop task_lt (queue q)) as [[[p tid] heap']|] eqn:Hpop.
  - destruct (get_next_task_pops timeout q p tid heap' Hwf Ht Hpop)
      as (task & q' & Hget & Hid & Hq').
    rewrite Hget. simpl. rewrite Hid, <- Hq'. f_equal. apply IH; [|done].
    by eapply get_next_task_wf.
  - apply heapqFacts.heappop_None in Hpop. unfold get_next_task, get.
    rewrite Hpop. simpl. destruct timeout as [secs|]; [|done].
    by case_decide.
Qed.

Lemma heap_drain_perm n : ∀ heap, length heap = n → heap_drain n heap ≡ₚ heap.
Proof.
  induction n as [|n IH]; intros heap Hlen; simpl.
  - by destruct heap.
  - destruct (heapq.heappop task_lt heap) as [[item heap']|] eqn:Hpop.
    + pose proof Hpop as Hperm%heapqFacts.heappop_perm. rewrite Hperm.
      apply perm_skip, IH. apply Permutation_length in Hperm. simpl in Hperm. lia.
    + apply heapqFacts.heappop_None in Hpop. by subst heap.
Qed.


(** The entries [_check_dependent_tasks] puts on the queue. *)
Definition unblocked (completed_task_id : string) (q : t) (l : list string)
    : list qitem :=
  omap (λ tid, match tasks q !! tid with
               | Some task =>
                   if bool_decide (completed_task_id ∈ dependencies task)
                      && _can_execute q task
                   then Some (priority task, tid) else None
               | None => None
               end) l.

Lemma check_dependent_fold cid l : ∀ q,
  let q' := foldl (check_dependent cid) q l in
  tasks q' = tasks q ∧ pending q' = pending q ∧ in_progress q' = in_progress q ∧
  completed q' = completed q ∧ failed q' = failed q ∧ stats q' = stats q ∧
  queue q' ≡ₚ unblocked cid q l ++ queue q.
Proof.
  induction l as [|tid l IH]; intros q; simpl; [done|].
  destruct (IH (check_dependent cid q tid)) as (Ht & Hp & Hi & Hc & Hf & Hs & Hq).
  rewrite Ht, Hp, Hi, Hc, Hf, Hs, Hq. clear IH Ht Hp Hi Hc Hf Hs Hq.
  assert (∀ q1, tasks q1 = tasks q → completed q1 = completed q →
                unblocked cid q1 l = unblocked cid q l) as Hun.
  { intros q1 Ht Hc. unfold unblocked, _can_execute. by rewrite Ht, Hc. }
  unfold check_dependent. destruct (tasks q !! tid) as [task|] eqn:E; [|done].
  destruct (bool_decide _ && _) eqn:Hcond; [|done]. simpl.
  rewrite Hun by done. repeat (split; [done|]).
  unfold put. rewrite heapqFacts.heappush_perm.
  by rewrite Permutation_middle.
Qed.

Lemma elem_of_unblocked cid q l p tid :
  (p, tid) ∈ unblocked cid q l ↔
  tid ∈ l ∧ ∃ task, tasks q !! tid = Some task ∧ priority task = p ∧
                    cid ∈ dependencies task ∧ _can_execute q task = true.
Proof.
  unfold unblocked. rewrite list_elem_of_omap. split.
  - intros (tid' & Hin & Hsome). destruct (tasks q !! tid') as [task|] eqn:E; [|done].
    destruct (bool_decide _ && _) eqn:Hcond; [|done]. injection Hsome as <- <-.
    apply andb_prop in Hcond as [Hdep%bool_decide_eq_true Hcan]. eauto 10.
  - intros (Hin & task & Ht & <- & Hdep & Hcan). exists tid. split; [done|].
    rewrite Ht, Hcan, bool_decide_eq_true_2 by done. done.
Qed.

Lemma complete_task_known tid r q :
  is_Some (tasks q !! tid) →
  let q' := complete_task tid r q in
  tasks q' = alter (complete r) tid (tasks q) ∧ pending q' = pending q ∧
  completed q' = {[tid]} ∪ completed q ∧
  ∃ q1, tasks q1 = tasks q' ∧ completed q1 = completed q' ∧
        queue q' ≡ₚ unblocked tid q1 (elements (pending q)) ++ queue q.
Proof.
  intros [t0 Ht0]. unfold complete_task. rewrite Ht0.
  unfold _check_dependent_tasks. cbv zeta.
  match goal with |- context [foldl _ ?q0 _] => set (q1 := q0) end.
  destruct (check_dependent_fold tid (elements (pending q1)) q1)
    as (Ht & Hp & _ & Hc & _ & _ & Hq).
  rewrite Ht, Hp, Hc. do 3 (split; [done|]). exists q1. do 2 (split; [done|]).
  exact Hq.
Qed.

Lemma complete_task_unknown tid r q :
  tasks q !! tid = None → complete_task tid r q = q.
Proof. intros H. unfold complete_task. by rewrite H. Qed.

Lemma complete_task_wf tid r q : wf q → wf (complete_task tid r q).
Proof.
  intros Hwf. destruct (tasks q !! tid) as [t0|] eqn:E;
    [|by rewrite complete_task_unknown].
  destruct (complete_task_known tid r q) as (Ht & Hp & Hc & q1 & Ht1 & Hc1 & Hq);
    [by eauto|].
  assert (wf (mkQueue (queue q) (tasks (complete_task tid r q)) (pending q)
                      (in_progress q) (completed (complete_task tid r q))
                      (failed q) (stats q))) as Hwf1.
  { apply (wf_alter (complete r) tid q); auto using complete_keeps_core.
    simpl. rewrite Hc. apply union_subseteq_r. }
  destruct Hwf1 as [Hids Hqueue]. simpl in *. split; [done|].
  intros p tid' Hin. rewrite Hq in Hin. apply elem_of_app in Hin as [Hin|Hin].
  - apply elem_of_unblocked in Hin as (_ & task & Htask & Hprio & _ & Hcan).
    exists task. rewrite <- Ht1. split; [done|]. split; [done|].
    rewrite <- Hc1. by apply _can_execute_true.
  - by apply Hqueue.
Qed.

Lemma add_task_fields new_id ty act inp p deps md q :
  let task := mkTask p new_id ty act inp (default [] deps) (default ∅ md)
                     PENDING ANone None in
  let q' := (add_task new_id ty act inp p deps md q).2 in
  (add_task new_id ty act inp p deps md q).1 = task ∧
  tasks q' = <[new_id := task]> (tasks q) ∧
  pending q' = {[new_id]} ∪ pending q ∧ completed q' = completed q ∧
  queue q' = if _can_execute q task then put (queue q) (p, new_id) else queue q.
Proof.
  unfold add_task. simpl.
  match goal with |- context [_can_execute ?q1 ?t] =>
    replace (_can_execute q1 t) with (_can_execute q t) by done
  end.
  by destruct (_can_execute q _).
Qed.

Lemma add_task_wf new_id ty act inp p deps md q :
  tasks q !! new_id = None → wf q →
  wf (add_task new_id ty act inp p deps md q).2.
Proof.
  intros Hfresh [Hids Hqueue].
  destruct (add_task_fields new_id ty act inp p deps md q) as (_ & Ht & _ & Hc & Hq).
  split.
  - intros tid task. rewrite Ht. destruct (decide (new_id = tid)) as [->|Hne].
    + rewrite lookup_insert_eq. by intros [= <-].
    + rewrite lookup_insert_ne by done. apply Hids.
  - intros p' tid Hin. rewrite Hq in Hin. rewrite Ht, Hc.
    assert ((p', tid) ∈ queue q →
            ∃ task, <[new_id := mkTask p new_id ty act inp (default [] deps)
                                       (default ∅ md) PENDING ANone None]>
                      (tasks q) !! tid = Some task ∧
                    priority task = p' ∧
                    ∀ d, d ∈ dependencies task → d ∈ completed q) as Hold.
    { intros Hin'. destruct (Hqueue _ _ Hin') as (task & Htask & Hrest).
      exists task. split; [|done]. rewrite lookup_insert_ne; [done|]. congruence. }
    destruct (_can_execute q _) eqn:Hcan; [|by apply Hold].
    apply put_elem in Hin as [[= -> ->]|Hin]; [|by apply Hold].
    eexists. rewrite lookup_insert_eq. split; [done|]. split; [done|].
    by apply _can_execute_true.
Qed.

Lemma step_wf o q :
  match o with
  | AddTask new_id _ _ _ _ _ _ => tasks q !! new_id = None
  | _ => True
  end →
  wf q → wf (step o q).
Proof.
  destruct o as [new_id ty act inp p deps md|timeout|tid r|tid e|tid]; simpl;
    intros Hfresh Hwf.
  - by apply add_task_wf.
  - destruct (get_next_task timeout q) as [[[task|] q']| |] eqn:E; try done.
    + by eapply get_next_task_wf.
    + unfold get_next_task in E.
      destruct (get timeout (queue q)) as [[[[p tid] heap']|]| |]; try done.
      * by destruct (alter start tid (tasks q) !! tid).
      * by injection E as <-.
  - by apply complete_task_wf.
  - unfold fail_task. destruct (tasks q !! tid); [|done].
    by apply (wf_alter (fail e) tid q); auto using fail_keeps_core.
  - unfold cancel_task. destruct (tasks q !! tid); [|done].
    by apply (wf_alter cancel tid q); auto using cancel_keeps_core.
Qed.

Lemma queue_run_snoc ops o q : run (ops ++ [o]) q = step o (run ops q).
Proof. unfold run. by rewrite foldl_app. Qed.

Lemma added_ids_snoc ops o :
  added_ids (ops ++ [o])
  = added_ids ops ++ match o with
                     | AddTask new_id _ _ _ _ _ _ => [new_id]
                     | _ => []
                     end.
Proof. unfold added_ids. rewrite omap_app. by destruct o. Qed.

(** The stored tasks are the added ones. *)
Lemma step_tasks_dom o q tid :
  is_Some (tasks (step o q) !! tid) ↔
  is_Some (tasks q !! tid) ∨
  ∃ ty act inp p deps md, o = AddTask tid ty act inp p deps md.
Proof.
  assert (∀ f tid', is_Some (alter f tid' (tasks q) !! tid)
                    ↔ is_Some (tasks q !! tid)) as Halter.
  { intros f tid'. destruct (decide (tid' = tid)) as [->|Hne].
    - rewrite lookup_alter_eq. by rewrite fmap_is_Some.
    - by rewrite lookup_alter_ne. }
  assert (∀ o', (∀ ty act inp p deps md, o' ≠ AddTask tid ty act inp p deps md) →
    ∀ P : Prop, (P ↔ is_Some (tasks q !! tid)) →
    (P ↔ is_Some (tasks q !! tid) ∨
         ∃ ty act inp p deps md, o' = AddTask tid ty act inp p deps md)) as Hother.
  { intros o' Hne P HP. rewrite HP. split; [by left|].
    intros [?|(ty & act & inp & p & deps & md & ->)]; [done|]. by destruct (Hne ty act inp p deps md). }
  destruct o as [new_id ty act inp p deps md|timeout|tid' r|tid' e|tid']; simpl.
  - destruct (add_task_fields new_id ty act inp p deps md q) as (_ & -> & _).
    destruct (decide (new_id = tid)) as [->|Hne].
    + rewrite lookup_insert_eq. split; [|by eauto]. intros _. right. eauto 10.
    + rewrite lookup_insert_ne by done. split; [by left|].
      intros [?|(? & ? & ? & ? & ? & ? & [= ->])]; done.
  - apply Hother; [done|].
    destruct (get_next_task timeout q) as [[[task|] q']| |] eqn:E; try done.
    + apply get_next_task_Some in E as (p & tid' & _ & -> & _). apply Halter.
    + unfold get_next_task in E.
      destruct (get timeout (queue q)) as [[[[p tid'] heap']|]| |]; try done.
      * by destruct (alter start tid' (tasks q) !! tid').
      * by injection E as <-.
  - apply Hother; [done|].
    destruct (tasks q !! tid') as [t0|] eqn:E; [|by rewrite complete_task_unknown].
    destruct (complete_task_known tid' r q) as (-> & _); [by eauto|]. apply Halter.
  - apply Hother; [done|]. unfold fail_task. destruct (tasks q !! tid'); [|done].
    apply Halter.
  - apply Hother; [done|]. unfold cancel_task. destruct (tasks q !! tid'); [|done].
    apply Halter.
Qed.

Lemma run_tasks_dom ops : ∀ tid,
  is_Some (tasks (run ops init) !! tid) ↔ tid ∈ added_ids ops.
Proof.
  induction ops as [|o ops IH] using rev_ind; intros tid.
  - simpl. rewrite lookup_empty, elem_of_nil. split; [by intros []|done].
  - rewrite queue_run_snoc, step_tasks_dom, IH, added_ids_snoc, elem_of_app. f_equiv.
    split.
    + intros (ty & act & inp & p & deps & md & ->). by apply list_elem_of_singleton.
    + destruct o; try (by intros ?%elem_of_nil).
      intros ->%list_elem_of_singleton. eauto 10.
Qed.

Lemma run_wf ops : fresh_ids ops → wf (run ops init).
Proof.
  induction ops as [|o ops IH] using rev_ind; intros Hfresh.
  - split; [done|]. intros p tid Hin. by apply elem_of_nil in Hin.
  - unfold fresh_ids in Hfresh. rewrite added_ids_snoc in Hfresh.
    apply NoDup_app in Hfresh as (Hnd & Hdisj & _).
    rewrite queue_run_snoc. apply step_wf; [|by apply IH].
    destruct o; try done.
    destruct (tasks (run ops init) !! new_id) eqn:E; [|done].
    assert (new_id ∈ added_ids ops) as Hin by (apply run_tasks_dom; eauto).
    destruct (Hdisj _ Hin). by apply list_elem_of_singleton.
Qed.

(** An identifier enters [completed] through [complete_task] only. *)
Lemma step_completed o q d :
  d ∈ completed (step o q) → d ∈ completed q ∨ ∃ r, o = CompleteTask d r.
Proof.
  destruct o as [new_id ty act inp p deps md|timeout|tid r|tid e|tid]; simpl.
  - destruct (add_task_fields new_id ty act inp p deps md q) as (_ & _ & _ & -> & _).
    auto.
  - destruct (get_next_task timeout q) as [[[task|] q']| |] eqn:E; auto.
    + apply get_next_task_Some in E as (p & tid' & _ & _ & _ & _ & _ & -> & _). auto.
    + unfold get_next_task in E.
      destruct (get timeout (queue q)) as [[[[p tid'] heap']|]| |]; try done.
      * by destruct (alter start tid' (tasks q) !! tid').
      * injection E as <-. auto.
  - destruct (tasks q !! tid) as [t0|] eqn:E; [|rewrite complete_task_unknown; auto].
    destruct (complete_task_known tid r q) as (_ & _ & -> & _); [by eauto|].
    intros [->%elem_of_singleton|?]%elem_of_union; eauto.
  - unfold fail_task. destruct (tasks q !! tid); auto.
  - unfold cancel_task. destruct (tasks q !! tid); auto.
Qed.

Lemma run_completed ops : ∀ d,
  d ∈ completed (run ops init) → ∃ r, CompleteTask d r ∈ ops.
Proof.
  induction ops as [|o ops IH] using rev_ind; intros d.
  - simpl. by intros ?%not_elem_of_empty.
  - rewrite queue_run_snoc. intros [Hd|[r ->]]%step_completed.
    + destruct (IH d Hd) as [r Hr]. exists r. apply elem_of_app. by left.
    + exists r. apply elem_of_app. right. by apply list_elem_of_singleton.
Qed.


Lemma heap_drain_elem n : ∀ heap item, item ∈ heap_drain n heap → item ∈ heap.
Proof.
  induction n as [|n IH]; intros heap item; simpl; [by intros ?%elem_of_nil|].
  destruct (heapq.heappop task_lt heap) as [[x heap']|] eqn:Hpop;
    [|by intros ?%elem_of_nil].
  apply heapqFacts.heappop_perm in Hpop. rewrite Hpop.
  intros [->|Hin]%elem_of_cons; [by left|]. right. by apply IH.
Qed.

(** *** Equal priorities *)

(** An [add_task] call with priority [p] and no dependencies. *)
Definition submits (p : Z) (o : op) : Prop :=
  match o with
  | AddTask _ _ _ _ p' deps _ => p' = p ∧ default [] deps = []
  | _ => False
  end.

Lemma submits_added_ids p ops :
  Forall (submits p) ops → length (added_ids ops) = length ops.
Proof.
  induction 1 as [|o ops Ho _ IH]; [done|]. destruct o; try done. simpl.
  by rewrite IH.
Qed.

(** Tasks of one priority lie in the heap in the order they were added. *)
Lemma submits_queue p ops :
  Forall (submits p) ops →
  queue (run ops init) = (λ tid, (p, tid)) <$> added_ids ops.
Proof.
  induction ops as [|o ops IH] using rev_ind; intros Hall; [done|].
  apply Forall_app in Hall as [Hops Ho]. apply Forall_inv in Ho.
  rewrite queue_run_snoc, added_ids_snoc. destruct o as [new_id ty act inp p' deps md| | | |];
    try done.
  destruct Ho as [-> Hdeps]. simpl.
  destruct (add_task_fields new_id ty act inp p deps md (run ops init))
    as (_ & _ & _ & _ & ->).
  unfold _can_execute. simpl. rewrite Hdeps. rewrite fmap_app. simpl.
  rewrite <- IH by done. unfold put. apply heapqFacts.heappush_append.
  intros [p' tid]. rewrite IH by done. intros (tid' & [= -> ->] & _)%list_elem_of_fmap.
  unfold task_lt. simpl. apply bool_decide_eq_false_2. lia.
Qed.

(** Up to three entries of one priority leave the heap first in, first
    out. *)
Lemma heap_drain_fifo p (ids : list string) :
  length ids ≤ 3 →
  heap_drain (length ids) ((λ tid, (p, tid)) <$> ids) = (λ tid, (p, tid)) <$> ids.
Proof.
  assert (∀ a b : string, task_lt (p, a) (p, b) = false) as Hlt.
  { intros a b. unfold task_lt. simpl. apply bool_decide_eq_false_2. lia. }
  destruct ids as [|a [|b [|c [|d ids]]]]; intros Hlen;
    [done|done| | |simpl in Hlen; lia];
    cbv -[task_lt]; by rewrite ?Hlt.
Qed.

(** C2 (amended). Tasks added to an empty queue with one priority and no
    dependencies all come out of as many [get_next_task] calls, each once;
    they come out in insertion order when there are at most three. *)
Theorem equal_priority_order p ops timeout :
  Forall (submits p) ops → fresh_ids ops → nonnegative timeout →
  task_id <$> drain timeout (length ops) (run ops init) ≡ₚ added_ids ops ∧
  (length ops ≤ 3 →
   task_id <$> drain timeout (length ops) (run ops init) = added_ids ops).
Proof.
  intros Hall Hfresh Ht.
  rewrite drain_heap_drain by auto using run_wf.
  rewrite (submits_queue p) by done.
  pose proof (submits_added_ids p ops Hall) as Hlen.
  assert (∀ ids : list string, ((λ tid, (p, tid)) <$> ids).*2 = ids) as Hsnd.
  { intros ids. rewrite <- list_fmap_compose. apply list_fmap_id. }
  split.
  - rewrite heap_drain_perm by (by rewrite length_fmap). apply reflexive_eq, Hsnd.
  - intros Hle. rewrite <- Hlen. rewrite heap_drain_fifo by lia. apply Hsnd.
Qed.

Definition three_tasks : list op :=
  [AddTask "t1" "researcher" "research" (AStr "x") MEDIUM None None;
   AddTask "t2" "analyst" "analyze" (AStr "y") MEDIUM (Some []) None;
   AddTask "t3" "writer" "write" (AStr "z") MEDIUM None None].

Lemma equal_priority_order_witness :
  task_id <$> drain (Some 1%Z) 3 (run three_tasks init) = ["t1"; "t2"; "t3"].
Proof.
  refine (proj2 (equal_priority_order MEDIUM three_tasks (Some 1%Z) _ _ _) _).
  - repeat first [apply Forall_nil_2|apply Forall_cons_2; [by split|]].
  - apply (bool_decide_eq_true_1 (NoDup (added_ids three_tasks))). reflexivity.
  - simpl. lia.
  - simpl. lia.
Defined.

Definition four_tasks : list op :=
  [AddTask "t1" "researcher" "research" ANone MEDIUM None None;
   AddTask "t2" "researcher" "research" ANone MEDIUM None None;
   AddTask "t3" "researcher" "research" ANone MEDIUM None None;
   AddTask "t4" "researcher" "research" ANone MEDIUM None None].

(** C2 as stated fails at four tasks: after the first pop, [heappop] moves
    the last entry to the root and [_siftup] lifts the right child. *)
Lemma equal_priority_not_fifo :
  added_ids four_tasks = ["t1"; "t2"; "t3"; "t4"] ∧
  task_id <$> drain (Some 1%Z) 4 (run four_tasks init) = ["t1"; "t3"; "t2"; "t4"].
Proof. vm_compute. done. Qed.

(** *** Dependencies *)

(** C6 (amended). A task that [get_next_task] returns has every
    dependency in [completed], put there by a [complete_task] call. A
    task with a dependency that is not in [completed] is in no queue
    entry, so no number of [get_next_task] calls returns it. Once
    [complete_task] has been called on its last unmet dependency,
    [get_next_task] calls return it, provided the dependency is a task
    the queue knows and the waiting task is still in [pending]. *)
Theorem dependency_gating ops timeout :
  fresh_ids ops → nonnegative timeout →
  let q := run ops init in
  (∀ task q', get_next_task timeout q = Returns (Some task, q') →
     ∀ d, d ∈ dependencies task →
          d ∈ completed q ∧ ∃ r, CompleteTask d r ∈ ops) ∧
  (∀ tid task dep,
     tasks q !! tid = Some task → dep ∈ dependencies task → dep ∉ completed q →
     ∀ n, tid ∉ task_id <$> drain timeout n q) ∧
  (∀ tid task dep r,
     tasks q !! tid = Some task → tid ∈ pending q →
     dep ∈ dependencies task → dep ∉ completed q → is_Some (tasks q !! dep) →
     (∀ d, d ∈ dependencies task → d ≠ dep → d ∈ completed q) →
     let q' := complete_task dep r q in
     tid ∈ task_id <$> drain timeout (length (queue q')) q').
Proof.
  intros Hfresh Ht q. pose proof (run_wf ops Hfresh) as Hwf. fold q in Hwf.
  split; [|split].
  - intros task q' Hget d Hd.
    apply get_next_task_Some in Hget as (p & tid & Hpop & Htasks & Htask & _).
    apply heapqFacts.heappop_perm in Hpop.
    destruct (wf_queue q Hwf p tid) as (task0 & Htask0 & _ & Hdeps).
    { rewrite Hpop. by left. }
    rewrite Htasks, lookup_alter_eq, Htask0 in Htask. injection Htask as <-.
    destruct (start_keeps_core task0) as (_ & _ & Hsame). rewrite Hsame in Hd.
    split; [by apply Hdeps|]. apply run_completed. by apply Hdeps.
  - intros tid task dep Htask Hdep Hunmet n Hin.
    rewrite drain_heap_drain in Hin by done.
    apply list_elem_of_fmap in Hin as ([p tid'] & -> & Hin). simpl in *.
    apply heap_drain_elem in Hin.
    destruct (wf_queue q Hwf p tid' Hin) as (task0 & Htask0 & _ & Hdeps).
    rewrite Htask in Htask0. injection Htask0 as <-. by apply Hunmet, Hdeps.
  - intros tid task dep r Htask Hpend Hdep Hunmet Hknown Hothers.
    intros q'. pose proof (complete_task_wf dep r q Hwf) as Hwf'. fold q' in Hwf'.
    rewrite drain_heap_drain by done. rewrite heap_drain_perm by done.
    destruct (complete_task_known dep r q Hknown)
      as (Htasks & _ & Hcompl & q1 & Ht1 & Hc1 & Hq).
    fold q' in Htasks, Hcompl, Ht1, Hc1, Hq.
    assert (∃ task', tasks q1 !! tid = Some task' ∧
                     priority task' = priority task ∧
                     dependencies task' = dependencies task) as (task' & Ht' & Hp' & Hd').
    { rewrite Ht1, Htasks. destruct (decide (dep = tid)) as [->|Hne].
      - rewrite lookup_alter_eq, Htask. eexists. split; [done|].
        by destruct (complete_keeps_core r task) as (_ & -> & ->).
      - rewrite lookup_alter_ne by done. eauto. }
    apply list_elem_of_fmap. exists (priority task, tid). split; [done|].
    rewrite Hq. apply elem_of_app. left. apply elem_of_unblocked.
    split; [by apply elem_of_elements|]. exists task'.
    split; [done|]. split; [done|]. rewrite Hd'. split; [done|].
    apply _can_execute_true. rewrite Hd', Hc1, Hcompl. intros d Hd.
    destruct (decide (d = dep)) as [->|Hne].
    + apply elem_of_union_l. by apply elem_of_singleton.
    + apply elem_of_union_r. by apply Hothers.
Qed.

Definition report_ops : list op :=
  [AddTask "research" "researcher" "research" (AStr "topic") HIGH None None;
   AddTask "report" "writer" "write" ANone CRITICAL (Some ["research"]) None;
   GetNextTask (Some 1%Z)].

Lemma dependency_gating_witness :
  ("report" ∉ task_id <$> drain (Some 1%Z) 5 (run report_ops init)) ∧
  ("report" ∈ task_id <$> drain (Some 1%Z) 1
                 (complete_task "research" (AStr "done") (run report_ops init))).
Proof.
  destruct (dependency_gating report_ops (Some 1%Z)) as (_ & H1 & H2).
  - apply (bool_decide_eq_true_1 (NoDup (added_ids report_ops))). reflexivity.
  - simpl. lia.
  - split.
    + apply (H1 "report"
                (mkTask CRITICAL "report" "writer" "write" ANone ["research"] ∅
                        PENDING ANone None)
                "research").
      * reflexivity.
      * by left.
      * apply (bool_decide_eq_true_1 (_ ∉ _)). vm_compute. reflexivity.
    + apply (H2 "report"
                (mkTask CRITICAL "report" "writer" "write" ANone ["research"] ∅
                        PENDING ANone None)
                "research" (AStr "done")).
      * reflexivity.
      * apply (bool_decide_eq_true_1 (_ ∈ _)). vm_compute. reflexivity.
      * by left.
      * apply (bool_decide_eq_true_1 (_ ∉ _)). vm_compute. reflexivity.
      * by eexists.
      * intros d ->%list_elem_of_singleton Hne. done.
Defined.

(** C6 as stated fails in two ways. [complete_task] on an identifier the
    queue does not know returns at once: a task that waits for such a
    dependency is never released, whatever is called on the dependency.
    And [_check_dependent_tasks] looks at [pending] only: a task that was
    cancelled while it waited is not released when its dependency is
    completed. *)
Lemma unmet_dependency_not_released :
  (let q := run [AddTask "report" "writer" "write" ANone MEDIUM (Some ["ghost"]) None]
                init in
   tasks q !! "ghost" = None ∧ "report" ∈ pending q ∧
   complete_task "ghost" (AStr "done") q = q ∧
   ∀ n, drain (Some 1%Z) n (complete_task "ghost" (AStr "done") q) = []) ∧
  (let q := run [AddTask "research" "researcher" "research" ANone MEDIUM None None;
                 AddTask "report" "writer" "write" ANone MEDIUM (Some ["research"])
                         None;
                 CancelTask "report"; GetNextTask (Some 1%Z)] init in
   let q' := complete_task "research" (AStr "done") q in
   "research" ∈ completed q' ∧
   (∃ task, tasks q' !! "report" = Some task ∧
            dependencies task = ["research"] ∧ status task = CANCELLED) ∧
   ∀ n, drain (Some 1%Z) n q' = []).
Proof.
  split.
  - split; [reflexivity|]. split.
    { apply (bool_decide_eq_true_1 (_ ∈ _)). vm_compute. reflexivity. }
    split; [reflexivity|]. intros [|n]; reflexivity.
  - split.
    { apply (bool_decide_eq_true_1 (_ ∈ _)). vm_compute. reflexivity. }
    split; [eexists; split; [reflexivity|]; split; reflexivity|].
    intros [|n]; vm_compute; reflexivity.
Qed.

(** *** Identifiers that have left the queue *)

(** [tid] is neither pending nor in a queue entry. *)
Definition gone (tid : string) (q : t) : Prop :=
  (tid ∉ pending q) ∧ ∀ p, (p, tid) ∉ queue q.

(** Nothing brings such an identifier back, short of adding a task under
    it again: [add_task] queues the new task only, [get_next_task] queues
    nothing, and [complete_task] queues pending tasks only. *)
Lemma step_gone tid o q :
  match o with
  | AddTask new_id _ _ _ _ _ _ => new_id ≠ tid
  | _ => True
  end →
  gone tid q → gone tid (step o q).
Proof.
  intros Hnew [Hp Hq].
  destruct o as [new_id ty act inp p deps md|timeout|tid' r|tid' e|tid']; simpl.
  - destruct (add_task_fields new_id ty act inp p deps md q)
      as (_ & _ & Hpend & _ & Hqueue).
    unfold gone. rewrite Hpend, Hqueue. split.
    + rewrite elem_of_union, elem_of_singleton. intros [?|?]; done.
    + intros p'. destruct (_can_execute q _); [|done].
      rewrite put_elem. intros [[= _ ?]|?]; [done|]. by apply (Hq p').
  - destruct (get_next_task timeout q) as [[[task|] q']| |] eqn:E; try done.
    + apply get_next_task_Some in E as (p & tid0 & Hpop & _ & _ & Hpend & _).
      apply heapqFacts.heappop_perm in Hpop. split.
      * rewrite Hpend. intros [? _]%elem_of_difference. done.
      * intros p' Hin. apply (Hq p'). rewrite Hpop. by right.
    + unfold get_next_task in E.
      destruct (get timeout (queue q)) as [[[[p tid0] heap']|]| |]; try done.
      * by destruct (alter start tid0 (tasks q) !! tid0).
      * by injection E as <-.
  - destruct (tasks q !! tid') as [t0|] eqn:E; [|by rewrite complete_task_unknown].
    destruct (complete_task_known tid' r q) as (_ & Hpend & _ & q1 & _ & _ & Hqueue);
      [by eauto|].
    split; [by rewrite Hpend|].
    intros p'. rewrite Hqueue, elem_of_app.
    intros [(Hin & _)%elem_of_unblocked|Hin]; [|by apply (Hq p')].
    by apply elem_of_elements in Hin.
  - unfold fail_task. by destruct (tasks q !! tid').
  - unfold cancel_task. destruct (tasks q !! tid'); [|done]. split; [|done].
    simpl. intros [? _]%elem_of_difference. done.
Qed.

End TaskQueueFacts.

(** ** The dispatch loop: a task nobody can take *)

Module OrchestratorFacts.
Import Orchestrator.

(** The outcomes of [execute_task] that return: no agent, or an agent
    and what came back on the orchestrator's mailbox. *)
Lemma execute_task_Returns env msg_id task o ok o' :
  execute_task env msg_id task o = Returns (ok, o') →
  (AgentRegistry.find_available_agent (Some (TaskQueue.agent_type task)) None
                                      (agent_registry o) = Returns None ∧
   ok = false ∧ o' = o) ∨
  ∃ agent response bus,
    AgentRegistry.find_available_agent (Some (TaskQueue.agent_type task)) None
                                       (agent_registry o)
    = Returns (Some agent) ∧
    let aid := AgentRegistry.agent_id agent in
    let tid := TaskQueue.task_id task in
    let mem := SharedMemory.write ("task_" +:+ tid) (TaskQueue.to_dict task)
                                  "orchestrator" None (shared_memory o) in
    dependency_graph o' = dependency_graph o ∧ message_bus o' = bus ∧
    agent_registry o'
    = AgentRegistry.record_task_completion aid ok
        (AgentRegistry.increment_agent_workload aid (agent_registry o)) ∧
    match response with
    | Some r =>
        if bool_decide (MessageBus.msg_type r = "result")
        then ok = true ∧
             task_queue o'
             = TaskQueue.complete_task tid (MessageBus.content r) (task_queue o) ∧
             shared_memory o'
             = SharedMemory.write ("result_" +:+ tid) (MessageBus.content r) aid
                                  None mem
        else ok = false ∧
             task_queue o'
             = TaskQueue.fail_task tid "Unexpected response" (task_queue o) ∧
             shared_memory o' = mem
    | None =>
        ok = false ∧
        task_queue o'
        = TaskQueue.fail_task tid "Agent did not respond in time" (task_queue o) ∧
        shared_memory o' = mem
    end.
Proof.
  unfold execute_task.
  destruct (AgentRegistry.find_available_agent _ _ _) as [[agent|]| |] eqn:Efind;
    try done.
  - cbv zeta.
    match goal with
    | |- match ?rcv with _ => _ end = _ → _ =>
        destruct rcv as [[response bus]| |]; try done
    end.
    intros H. right. exists agent, response, bus. split; [done|].
    destruct response as [r|].
    + destruct (bool_decide (MessageBus.msg_type r = "result"));
        injection H as <- <-; done.
    + injection H as <- <-. done.
  - intros [= <- <-]. by left.
Qed.

(** No registered agent of the type is idle or busy. *)
Definition no_available_agent (ty : string) (reg : AgentRegistry.t) : Prop :=
  ∀ aid a, AgentRegistry.agents reg !! aid = Some a →
           AgentRegistry.agent_type a = ty → AgentRegistry.available a = false.

(** Every identifier the registry indexes under the type is a registered
    agent of that type. *)
Definition type_index_sound (ty : string) (reg : AgentRegistry.t) : Prop :=
  ∀ aid, aid ∈ AgentRegistryFacts.getidx (AgentRegistry.agents_by_type reg) ty →
         ∃ a, AgentRegistry.agents reg !! aid = Some a ∧
              AgentRegistry.agent_type a = ty.

Lemma no_agent_found ty reg :
  ty ≠ EmptyString → type_index_sound ty reg → no_available_agent ty reg →
  AgentRegistry.find_available_agent (Some ty) None reg = Returns None.
Proof.
  intros Hty Hidx Hnone. unfold AgentRegistry.find_available_agent. simpl.
  rewrite decide_False by done. unfold AgentRegistry.find_by_type.
  destruct (AgentRegistryFacts.lookup_all_returns reg
              (default ∅ (AgentRegistry.agents_by_type reg !! ty))) as [l Hl].
  { intros aid Hin. destruct (Hidx aid Hin) as (a & Ha & _). eauto. }
  rewrite Hl.
  destruct (filter (λ a, AgentRegistry.available a = true) l) as [|a0 rest] eqn:Ef;
    [done|].
  assert (a0 ∈ filter (λ a, AgentRegistry.available a = true) l) as Hin
    by (rewrite Ef; by left).
  apply list_elem_of_filter in Hin as [Hav Hin].
  destruct (AgentRegistryFacts.lookup_all_inv reg _ l a0 Hl Hin) as (aid & Haid & Ha).
  destruct (Hidx aid Haid) as (a & Ha' & Htype).
  rewrite Ha in Ha'. injection Ha' as <-.
  rewrite (Hnone aid a0 Ha Htype) in Hav. done.
Qed.

(** A pass of the dispatch loop on a queue that holds no entry for [tid]
    and does not have it pending: the pass hands out another task or
    none, and leaves the queue without [tid] again. *)
Lemma execute_all_step_gone tid env msg_id o results b o' results' :
  TaskQueueFacts.wf (task_queue o) → TaskQueueFacts.gone tid (task_queue o) →
  execute_all_step env msg_id o results = Returns (b, o', results') →
  TaskQueueFacts.wf (task_queue o') ∧ TaskQueueFacts.gone tid (task_queue o') ∧
  ∃ more_completed more_failed,
    completed results' = completed results ++ more_completed ∧
    failed results' = failed results ++ more_failed ∧
    (tid ∉ more_completed) ∧ (tid ∉ more_failed).
Proof.
  intros Hwf Hgone. unfold execute_all_step.
  destruct (TaskQueue.get_next_task (Some 1%Z) (task_queue o))
    as [[[task|] q]| |] eqn:Hget; try done.
  - pose proof (TaskQueueFacts.get_next_task_wf _ _ _ _ Hwf Hget) as Hwfq.
    pose proof (TaskQueueFacts.step_gone tid (TaskQueueFacts.GetNextTask (Some 1%Z))
                  (task_queue o) I Hgone) as Hgq.
    simpl in Hgq. rewrite Hget in Hgq.
    assert (TaskQueue.task_id task ≠ tid) as Hne.
    { apply TaskQueueFacts.get_next_task_Some in Hget
        as (p & tid0 & Hpop & _ & Htask & _).
      rewrite (TaskQueueFacts.wf_ids q Hwfq tid0 task Htask). intros ->.
      apply heapqFacts.heappop_perm in Hpop. destruct Hgone as [_ Hq].
      apply (Hq p). rewrite Hpop. by left. }
    destruct (execute_task env msg_id task _) as [[ok o1]| |] eqn:Hex; try done.
    intros [= <- <- <-].
    assert (TaskQueueFacts.wf (task_queue o1) ∧
            TaskQueueFacts.gone tid (task_queue o1)) as [Hwf1 Hg1].
    { apply execute_task_Returns in Hex
        as [(_ & _ & ->)|(agent & response & bus & _ & _ & _ & _ & Hresp)];
        [done|]. simpl in Hresp.
      destruct response as [r|].
      - destruct (bool_decide (MessageBus.msg_type r = "result"));
          destruct Hresp as (_ & -> & _).
        + split; [by apply TaskQueueFacts.complete_task_wf|].
          apply (TaskQueueFacts.step_gone tid
                   (TaskQueueFacts.CompleteTask (TaskQueue.task_id task)
                                                (MessageBus.content r)) q I Hgq).
        + split.
          * apply (TaskQueueFacts.step_wf
                     (TaskQueueFacts.FailTask (TaskQueue.task_id task)
                                              "Unexpected response") q I Hwfq).
          * apply (TaskQueueFacts.step_gone tid
                     (TaskQueueFacts.FailTask (TaskQueue.task_id task)
                                              "Unexpected response") q I Hgq).
      - destruct Hresp as (_ & -> & _). split.
        + apply (TaskQueueFacts.step_wf
                   (TaskQueueFacts.FailTask (TaskQueue.task_id task)
                                            "Agent did not respond in time") q I Hwfq).
        + apply (TaskQueueFacts.step_gone tid
                   (TaskQueueFacts.FailTask (TaskQueue.task_id task)
                                            "Agent did not respond in time") q I Hgq). }
    split; [done|]. split; [done|]. destruct ok; simpl.
    + exists [TaskQueue.task_id task], []. rewrite app_nil_r.
      split; [done|]. split; [done|].
      split; [by intros ->%list_elem_of_singleton|by intros ?%elem_of_nil].
    + exists [], [TaskQueue.task_id task]. rewrite app_nil_r.
      split; [done|]. split; [done|].
      split; [by intros ?%elem_of_nil|by intros ->%list_elem_of_singleton].
  - assert (o' = o ∧ results' = results → TaskQueueFacts.wf (task_queue o') ∧
            TaskQueueFacts.gone tid (task_queue o') ∧
            ∃ more_completed more_failed,
              completed results' = completed results ++ more_completed ∧
              failed results' = failed results ++ more_failed ∧
              (tid ∉ more_completed) ∧ (tid ∉ more_failed)) as Hsame.
    { intros [-> ->]. split; [done|]. split; [done|]. exists [], [].
      rewrite !app_nil_r. split; [done|]. split; [done|].
      split; by intros ?%elem_of_nil. }
    case_decide; intros [= <- <- <-]; by apply Hsame.
Qed.

(** The same for the rest of the run. *)
Lemma execute_all_loop_gone tid n : ∀ i envs msg_ids o results o2 results2,
  TaskQueueFacts.wf (task_queue o) → TaskQueueFacts.gone tid (task_queue o) →
  execute_all_loop n i envs msg_ids o results = Returns (o2, results2) →
  TaskQueueFacts.gone tid (task_queue o2) ∧
  ∃ more_completed more_failed,
    completed results2 = completed results ++ more_completed ∧
    failed results2 = failed results ++ more_failed ∧
    (tid ∉ more_completed) ∧ (tid ∉ more_failed).
Proof.
  induction n as [|n IH]; intros i envs msg_ids o results o2 results2 Hwf Hgone;
    simpl.
  - intros [= <- <-]. split; [done|]. exists [], []. rewrite !app_nil_r.
    split; [done|]. split; [done|]. split; by intros ?%elem_of_nil.
  - destruct (execute_all_step (envs i) (msg_ids i) o results)
      as [[[b o1] results1]| |] eqn:Hstep; try done.
    destruct (execute_all_step_gone tid _ _ _ _ _ _ _ Hwf Hgone Hstep)
      as (Hwf1 & Hg1 & mc1 & mf1 & Hc1 & Hf1 & Hnc1 & Hnf1).
    destruct b.
    + intros Hloop.
      destruct (IH _ _ _ _ _ _ _ Hwf1 Hg1 Hloop)
        as (Hg2 & mc2 & mf2 & Hc2 & Hf2 & Hnc2 & Hnf2).
      split; [done|]. exists (mc1 ++ mc2), (mf1 ++ mf2).
      rewrite Hc2, Hc1, Hf2, Hf1, <- !app_assoc.
      split; [done|]. split; [done|].
      split; intros [?|?]%elem_of_app; done.
    + intros [= <- <-]. split; [done|]. by exists mc1, mf1.
Qed.

(** C1 (amended). Let the dispatch loop hand out a task whose type is a
    non-empty string, on a registry whose index of that type lists
    registered agents of that type only, none of them idle or busy. The
    pass then goes on to the next iteration ([execute_task] has returned
    [False]) with registry, bus, blackboard and graph as they were and
    with the task's identifier appended to the run's "failed" list. The
    task has left the pending set and is left in progress; the pass has
    taken its queue entry and put none back. When the queue holds no second entry for the task, no
    later pass of the run hands it out: the rest of the run reports it
    neither as completed nor as failed again, and it is not pending at
    the end, so it is not reported as cancelled either. *)
Theorem unmatched_task_is_consumed ops env msg_id o results task q :
  task_queue o = TaskQueueFacts.run ops TaskQueue.init →
  TaskQueueFacts.fresh_ids ops →
  TaskQueue.get_next_task (Some 1%Z) (task_queue o) = Returns (Some task, q) →
  TaskQueue.agent_type task ≠ EmptyString →
  type_index_sound (TaskQueue.agent_type task) (agent_registry o) →
  no_available_agent (TaskQueue.agent_type task) (agent_registry o) →
  let tid := TaskQueue.task_id task in
  let o1 := mkOrchestrator q (dependency_graph o) (agent_registry o)
                           (message_bus o) (shared_memory o) in
  let results1 := mkResults (total_tasks results) (completed results)
                            (failed results ++ [tid]) (cancelled results) in
  execute_all_step env msg_id o results = Returns (true, o1, results1) ∧
  execute_task env msg_id task o1 = Returns (false, o1) ∧
  (tid ∉ TaskQueue.pending q) ∧ tid ∈ TaskQueue.in_progress q ∧
  TaskQueue.tasks q !! tid = Some task ∧
  TaskQueue.status task = TaskQueue.IN_PROGRESS ∧
  TaskQueue.queue (task_queue o)
  ≡ₚ (TaskQueue.priority task, tid) :: TaskQueue.queue q ∧
  ((∀ p, (p, tid) ∉ TaskQueue.queue q) →
   ∀ n i envs msg_ids o2 results2,
     execute_all_loop n i envs msg_ids o1 results1 = Returns (o2, results2) →
     ∃ more_completed more_failed,
       completed results2 = completed results ++ more_completed ∧
       failed results2 = failed results ++ [tid] ++ more_failed ∧
       (tid ∉ more_completed) ∧ (tid ∉ more_failed) ∧
       (tid ∉ TaskQueue.pending (task_queue o2))).
Proof.
  intros Hq Hfresh Hget Hty Hidx Hnone. cbv zeta.
  pose proof (no_agent_found _ _ Hty Hidx Hnone) as Hfind.
  pose proof (TaskQueueFacts.run_wf ops Hfresh) as Hwf. rewrite <- Hq in Hwf.
  pose proof (TaskQueueFacts.get_next_task_wf _ _ _ _ Hwf Hget) as Hwf'.
  pose proof Hget as (p & tid & Hpop & Htasks & Htask & Hpend & Hprog & _)
    %TaskQueueFacts.get_next_task_Some.
  pose proof (TaskQueueFacts.wf_ids q Hwf' tid task Htask) as Hid.
  apply heapqFacts.heappop_perm in Hpop.
  destruct (TaskQueueFacts.wf_queue _ Hwf p tid) as (t0 & Ht0 & Hp & _).
  { rewrite Hpop. by left. }
  assert (task = TaskQueue.start t0) as Hstart.
  { rewrite Htasks, lookup_alter_eq, Ht0 in Htask. by injection Htask as <-. }
  assert (tid ∉ TaskQueue.pending q) as Hnp.
  { rewrite Hpend. intros [_ Hn]%elem_of_difference. apply Hn.
    by apply elem_of_singleton. }
  rewrite Hid.
  split; [|split; [|split; [|split; [|split; [|split; [|split]]]]]].
  - unfold execute_all_step. rewrite Hget. unfold execute_task. simpl.
    by rewrite Hfind, Hid.
  - unfold execute_task. simpl. by rewrite Hfind.
  - done.
  - rewrite Hprog. apply elem_of_union_l. by apply elem_of_singleton.
  - done.
  - by rewrite Hstart.
  - rewrite Hpop, Hstart.
    destruct (TaskQueueFacts.start_keeps_core t0) as (_ & -> & _). by rewrite Hp.
  - intros Hsingle n i envs msg_ids o2 results2 Hloop.
    destruct (execute_all_loop_gone tid n i envs msg_ids
                (mkOrchestrator q (dependency_graph o) (agent_registry o)
                                (message_bus o) (shared_memory o))
                _ o2 results2 Hwf' (conj Hnp Hsingle) Hloop)
      as ([Hnp2 _] & mc & mf & Hc & Hf & Hnc & Hnf).
    exists mc, mf. simpl in Hc, Hf. rewrite <- app_assoc in Hf. done.
Qed.

(** One task for a researcher, and a registry with a single writer. *)
Definition lonely_ops : list TaskQueueFacts.op :=
  [TaskQueueFacts.AddTask "t1" "researcher" "research" (AStr "topic")
                          TaskQueue.MEDIUM None None].

Definition lonely : t :=
  mkOrchestrator (TaskQueueFacts.run lonely_ops TaskQueue.init)
                 (DependencyGraph.add_node "t1" DependencyGraph.init)
                 (AgentRegistry.register "w1" "writer" "W" [] AgentRegistry.init).2
                 (MessageBus.register_agent "w1" MessageBus.init)
                 SharedMemory.init.

Definition lonely_task : TaskQueue.Task :=
  TaskQueue.mkTask TaskQueue.MEDIUM "t1" "researcher" "research" (AStr "topic")
                   [] ∅ TaskQueue.IN_PROGRESS ANone None.

Lemma unmatched_task_is_consumed_witness :
  ∃ o1, execute_all_step id "m1" lonely (mkResults 1 [] [] [])
        = Returns (true, o1, mkResults 1 [] ["t1"] []) ∧
        ("t1" ∉ TaskQueue.pending (task_queue o1)) ∧
        "t1" ∈ TaskQueue.in_progress (task_queue o1) ∧
        ∀ o2 results2,
          execute_all_loop 99 1 (λ _, id) (λ _, "m") o1 (mkResults 1 [] ["t1"] [])
          = Returns (o2, results2) →
          ∃ more_completed more_failed,
            completed results2 = [] ++ more_completed ∧
            failed results2 = [] ++ ["t1"] ++ more_failed ∧
            ("t1" ∉ more_completed) ∧ ("t1" ∉ more_failed) ∧
            ("t1" ∉ TaskQueue.pending (task_queue o2)).
Proof.
  destruct (unmatched_task_is_consumed lonely_ops id "m1" lonely
              (mkResults 1 [] [] []) lonely_task
              (TaskQueue.mkQueue [] {["t1" := lonely_task]} ∅ {["t1"]} ∅ ∅
                                 (TaskQueue.mkStats 1 0 0 0)))
    as (H1 & _ & H2 & H3 & _ & _ & _ & H7).
  - reflexivity.
  - apply (bool_decide_eq_true_1 (NoDup (TaskQueueFacts.added_ids lonely_ops))).
    reflexivity.
  - vm_compute. reflexivity.
  - done.
  - intros aid Hin. by apply not_elem_of_empty in Hin.
  - intros aid a Ha Hty.
    destruct (decide (aid = "w1")) as [->|Hne].
    + vm_compute in Ha. injection Ha as <-. done.
    + simpl in Ha. rewrite lookup_insert_ne, lookup_empty in Ha by done. done.
  - eexists. split; [exact H1|]. split; [exact H2|]. split; [exact H3|].
    intros o2 results2 Hloop. apply (H7 (λ p, not_elem_of_nil _) _ _ _ _ _ _ Hloop).
Defined.

(** C1 as stated fails. With no agent for the task's type, one pass takes
    the task out of the pending set and records it as failed; the next
    pass finds nothing to do and ends the run, so the task is never
    attempted again and is not reported as cancelled either. *)
Lemma unmatched_task_not_pending :
  ∃ o1 o2,
    execute_all_step id "m1" lonely (mkResults 1 [] [] [])
    = Returns (true, o1, mkResults 1 [] ["t1"] []) ∧
    TaskQueue.pending (task_queue o1) = ∅ ∧
    TaskQueue.queue (task_queue o1) = [] ∧
    execute_all_step id "m2" o1 (mkResults 1 [] ["t1"] [])
    = Returns (false, o1, mkResults 1 [] ["t1"] []) ∧
    execute_all 100 (λ _, id) (λ _, "m") lonely
    = Returns (o2, mkResults 1 [] ["t1"] []).
Proof.
  eexists _, _. split; [vm_compute; reflexivity|].
  split; [vm_compute; reflexivity|]. split; [reflexivity|].
  split; vm_compute; reflexivity.
Qed.

(** The side conditions of C1 (amended) are needed. A task whose type is
    the empty string is offered to every agent ([find_available_agent]
    takes an empty type for no type): with a writer registered it is sent
    to the writer and fails on the timeout. An identifier left in the
    type index without a record makes the lookup, hence the pass, raise
    [KeyError]. In both cases no registered agent of the task's type is
    idle or busy. And a queue that holds two entries for one task (its
    dependency was completed twice) hands the task out twice: the run
    records it as failed twice. *)
Definition untyped : t :=
  mkOrchestrator
    (TaskQueueFacts.run [TaskQueueFacts.AddTask "t0" EmptyString "anything" ANone
                                                TaskQueue.MEDIUM None None]
                        TaskQueue.init)
    (DependencyGraph.add_node "t0" DependencyGraph.init)
    (AgentRegistry.register "w1" "writer" "W" [] AgentRegistry.init).2
    (MessageBus.register_agent "orchestrator"
       (MessageBus.register_agent "w1" MessageBus.init))
    SharedMemory.init.

Definition stale : t :=
  mkOrchestrator
    (TaskQueueFacts.run [TaskQueueFacts.AddTask "t0" "T" "anything" ANone
                                                TaskQueue.MEDIUM None None]
                        TaskQueue.init)
    (DependencyGraph.add_node "t0" DependencyGraph.init)
    (AgentRegistryFacts.run [AgentRegistryFacts.Register "x" "T" "X" [];
                             AgentRegistryFacts.Register "x" "U" "X" [];
                             AgentRegistryFacts.Unregister "x"]
                            AgentRegistry.init)
    MessageBus.init SharedMemory.init.

Definition queued_twice : t :=
  mkOrchestrator
    (TaskQueueFacts.run
       [TaskQueueFacts.AddTask "a" "researcher" "research" ANone TaskQueue.MEDIUM
                               None None;
        TaskQueueFacts.AddTask "b" "researcher" "research" ANone TaskQueue.MEDIUM
                               (Some ["a"]) None;
        TaskQueueFacts.GetNextTask (Some 1%Z);
        TaskQueueFacts.CompleteTask "a" ANone;
        TaskQueueFacts.CompleteTask "a" ANone]
       TaskQueue.init)
    DependencyGraph.init
    (AgentRegistry.register "w1" "writer" "W" [] AgentRegistry.init).2
    (MessageBus.register_agent "w1" MessageBus.init)
    SharedMemory.init.

Lemma unmatched_task_side_conditions :
  (TaskQueue.queue (task_queue queued_twice)
   = [(TaskQueue.MEDIUM, "b"); (TaskQueue.MEDIUM, "b")] ∧
   no_available_agent "researcher" (agent_registry queued_twice) ∧
   ∃ o', execute_all 100 (λ _, id) (λ _, "m") queued_twice
         = Returns (o', mkResults 2 [] ["b"; "b"] [])) ∧
  (no_available_agent EmptyString (agent_registry untyped) ∧
   ∃ o', execute_all_step id "m1" untyped (mkResults 1 [] [] [])
         = Returns (true, o', mkResults 1 [] ["t0"] []) ∧
         MessageBus.get_pending_count "w1" (message_bus o') = 1%Z ∧
         "t0" ∈ TaskQueue.failed (task_queue o') ∧
         AgentRegistry.total_tasks_failed
           <$> AgentRegistry.agents (agent_registry o') !! "w1" = Some 1%Z) ∧
  (no_available_agent "T" (agent_registry stale) ∧
   ¬ type_index_sound "T" (agent_registry stale) ∧
   execute_all_step id "m1" stale (mkResults 1 [] [] []) = Raises KeyError).
Proof.
  assert (∀ ty, ty ≠ "writer" →
            no_available_agent ty
              (AgentRegistry.register "w1" "writer" "W" [] AgentRegistry.init).2)
    as Hwriter.
  { intros ty Hty aid a Ha Htype. destruct (decide (aid = "w1")) as [->|Hne].
    - vm_compute in Ha. injection Ha as <-. done.
    - simpl in Ha. rewrite lookup_insert_ne, lookup_empty in Ha by done. done. }
  split; [split; [|split]|split; [split|split; [|split]]].
  - vm_compute. reflexivity.
  - by apply Hwriter.
  - eexists. vm_compute. reflexivity.
  - by apply Hwriter.
  - eexists. split; [vm_compute; reflexivity|].
    split; [vm_compute; reflexivity|]. split; [|vm_compute; reflexivity].
    apply (bool_decide_eq_true_1 (_ ∈ _)). vm_compute. reflexivity.
  - assert (AgentRegistry.agents (agent_registry stale) = ∅) as Hempty
      by (vm_compute; reflexivity).
    intros aid a Ha. by rewrite Hempty, lookup_empty in Ha.
  - intros Hidx. destruct (Hidx "x") as (a & Ha & _).
    + apply (bool_decide_eq_true_1 (_ ∈ _)). vm_compute. reflexivity.
    + vm_compute in Ha. done.
  - vm_compute. reflexivity.
Qed.

End OrchestratorFacts.

(** ** The dependency graph: cycles and execution order *)

Module DependencyGraphFacts.
Import DependencyGraph.

(** [x] depends on [d]: an edge of [graph]. *)
Definition depends (g : t) (x d : string) : Prop := d ∈ getset (graph g) x.

(** [d] can reach [x] through dependency edges (in no step or more). *)
Definition reaches (g : t) (d x : string) : Prop := rtc (depends g) d x.

(** *** The search of [_would_create_cycle] *)

Lemma loop_sound g from_node to_node fuel : ∀ visited queue,
  (∀ x, x ∈ queue → reaches g to_node x) →
  _would_create_cycle_loop fuel g from_node visited queue = true →
  reaches g to_node from_node.
Proof.
  induction fuel as [|fuel IH]; intros visited queue Hq; simpl; [done|].
  destruct queue as [|current queue]; [done|].
  case_decide as Hfrom; [intros _; subst; apply Hq; by left|].
  case_decide as Hvis.
  - apply IH. intros x Hx. apply Hq. by right.
  - apply IH. intros x [Hx|Hx]%elem_of_app.
    + apply Hq. by right.
    + apply elem_of_elements in Hx. eapply rtc_r; [apply Hq; by left|done].
Qed.

(** A path to [target] whose nodes, the last one apart, are not in [V]. *)
Inductive avoids (g : t) (V : gset string) (target : string) : string → Prop :=
  | avoids_here : avoids g V target target
  | avoids_step x d :
      x ∉ V → depends g x d → avoids g V target d → avoids g V target x.

Lemma reaches_avoids g x y : reaches g x y → avoids g ∅ y x.
Proof.
  induction 1 as [|x d y Hd _ IH]; [constructor|].
  eapply avoids_step; [apply not_elem_of_empty|done|done].
Qed.

Lemma avoids_visit g V target current x :
  avoids g V target x → target ≠ current →
  avoids g ({[current]} ∪ V) target x ∨
  ∃ d, depends g current d ∧ avoids g ({[current]} ∪ V) target d.
Proof.
  intros Hav Hne. induction Hav as [|x d Hx Hd _ IH]; [left; constructor|].
  destruct IH as [IH|IH]; [|by right].
  destruct (decide (x = current)) as [->|Hxc]; [right; eauto|].
  left. eapply avoids_step; [|done|done].
  intros [?%elem_of_singleton|?]%elem_of_union; done.
Qed.

Lemma avoids_start g V target x :
  avoids g V target x → x ≠ target → x ∉ V.
Proof. by destruct 1. Qed.

Lemma edge_count_delete (m : gmap string (gset string)) k s :
  m !! k = Some s → edge_count m = size s + edge_count (delete k m).
Proof.
  intros Hk. unfold edge_count.
  apply (map_fold_delete_L (λ _ s acc, size s + acc) 0 k s m); [|done].
  intros. lia.
Qed.

(** With one unit of fuel per queue entry and per edge of a node not yet
    visited, the search finds every path there is. *)
Lemma loop_complete g from_node fuel : ∀ visited queue rem,
  (∀ k, k ∉ visited → rem !! k = graph g !! k) →
  length queue + edge_count rem ≤ fuel →
  (∃ x, x ∈ queue ∧ avoids g visited from_node x) →
  _would_create_cycle_loop fuel g from_node visited queue = true.
Proof.
  induction fuel as [|fuel IH]; intros visited queue rem Hrem Hfuel (x & Hx & Hav).
  - destruct queue; [by apply elem_of_nil in Hx|simpl in Hfuel; lia].
  - simpl. destruct queue as [|current queue]; [by apply elem_of_nil in Hx|].
    case_decide as Hfrom; [done|]. simpl in Hfuel.
    case_decide as Hvis.
    + apply (IH visited queue rem); [done|lia|]. exists x. split; [|done].
      apply elem_of_cons in Hx as [->|Hx]; [|done].
      by destruct (avoids_start _ _ _ _ Hav Hfrom).
    + apply (IH _ _ (delete current rem)).
      * intros k [Hk1%not_elem_of_singleton Hk2]%not_elem_of_union.
        rewrite lookup_delete_ne by done. by apply Hrem.
      * rewrite length_app.
        replace (length (elements (getset (graph g) current)))
          with (size (getset (graph g) current)) by done.
        unfold getset.
        rewrite <- (Hrem current Hvis).
        destruct (rem !! current) as [s|] eqn:E.
        -- rewrite (edge_count_delete rem current s E) in Hfuel. simpl. lia.
        -- rewrite delete_id by done.
           change (default ∅ None) with (∅ : gset string).
           rewrite size_empty. lia.
      * destruct (avoids_visit g visited from_node current x Hav) as [Hav'|(d & Hd & Hav')];
          [congruence| |].
        -- exists x. split; [|done]. apply elem_of_app. left.
           apply elem_of_cons in Hx as [->|Hx]; [|done].
           destruct (avoids_start _ _ _ _ Hav' Hfrom).
           apply elem_of_union_l. by apply elem_of_singleton.
        -- exists d. split; [|done]. apply elem_of_app. right.
           by apply elem_of_elements.
Qed.

(** [_would_create_cycle] decides reachability, on every graph. *)
Lemma _would_create_cycle_spec g from_node to_node :
  _would_create_cycle g from_node to_node = true ↔ reaches g to_node from_node.
Proof.
  unfold _would_create_cycle. split.
  - apply loop_sound. intros x ->%list_elem_of_singleton. apply rtc_refl.
  - intros Hreach. apply (loop_complete g from_node _ ∅ [to_node] (graph g)).
    + done.
    + simpl. lia.
    + exists to_node. split; [by left|]. by apply reaches_avoids.
Qed.

Lemma getset_ensure_key k m x : getset (ensure_key k m) x = getset m x.
Proof.
  unfold getset, ensure_key. destruct (m !! k) eqn:E; [done|].
  destruct (decide (k = x)) as [->|Hne].
  - by rewrite lookup_insert_eq, E.
  - by rewrite lookup_insert_ne.
Qed.

Lemma add_node_depends node_id g x d :
  depends (add_node node_id g) x d ↔ depends g x d.
Proof. unfold depends. simpl. by rewrite getset_ensure_key. Qed.

Lemma add_node_reaches node_id g x y :
  reaches (add_node node_id g) x y ↔ reaches g x y.
Proof.
  unfold reaches. split; induction 1 as [|a b c Hab _ IH]; try apply rtc_refl;
    (eapply rtc_l; [|exact IH]); by apply (add_node_depends node_id g).
Qed.

(** [add_node] on a node whose keys are stored changes nothing. *)
Lemma add_node_known node_id g :
  node_id ∈ nodes g → is_Some (graph g !! node_id) →
  is_Some (reverse_graph g !! node_id) → add_node node_id g = g.
Proof.
  intros Hn [s Hs] [s' Hs']. destruct g as [gr rg ns]. unfold add_node, ensure_key.
  simpl in *. rewrite Hs, Hs'. f_equal. apply leibniz_equiv. intros x.
  rewrite elem_of_union, elem_of_singleton. split; [intros [->|?]; done|auto].
Qed.


(** *** Graphs built through the methods *)

Inductive op : Type :=
  | AddNode (node_id : string)
  | AddDependency (node_id depends_on : string)
  | RemoveDependency (node_id depends_on : string).

(** The graph after a call (for [add_dependency], also when it raised). *)
Definition step (o : op) (g : t) : t :=
  match o with
  | AddNode node_id => add_node node_id g
  | AddDependency node_id depends_on => (add_dependency node_id depends_on g).1
  | RemoveDependency node_id depends_on => remove_dependency node_id depends_on g
  end.

Definition run (ops : list op) (g : t) : t := foldl (λ g o, step o g) g ops.

(** Every node has its key in both maps, edges join nodes,
    [reverse_graph] is [graph] reversed, and there is no cycle: a rank
    decreases along every edge. *)
Record wfg (g : t) : Prop := mkWfg {
  wfg_keys : ∀ x, x ∈ nodes g →
    is_Some (graph g !! x) ∧ is_Some (reverse_graph g !! x);
  wfg_nodes : ∀ x d, depends g x d → x ∈ nodes g ∧ d ∈ nodes g;
  wfg_reverse : ∀ x d, depends g x d ↔ x ∈ getset (reverse_graph g) d;
  wfg_rank : ∃ rank : string → nat, ∀ x d, depends g x d → rank d < rank x
}.

Lemma ensure_key_is_Some k m x :
  is_Some (ensure_key k m !! x) ↔ x = k ∨ is_Some (m !! x).
Proof.
  unfold ensure_key. destruct (m !! k) eqn:E.
  - split; [by right|]. intros [->|?]; [by rewrite E|done].
  - destruct (decide (k = x)) as [->|Hne].
    + rewrite lookup_insert_eq. split; [by left|by eauto].
    + rewrite lookup_insert_ne by done. split; [by right|]. by intros [->|?].
Qed.

Lemma add_node_wfg node_id g : wfg g → wfg (add_node node_id g).
Proof.
  intros [Hk Hn Hr Hrank]. split.
  - intros x Hx. simpl. rewrite !ensure_key_is_Some.
    apply elem_of_union in Hx as [->%elem_of_singleton|Hx]; [by split; left|].
    destruct (Hk x Hx). by split; right.
  - intros x d Hd%add_node_depends. destruct (Hn x d Hd).
    split; by apply elem_of_union_r.
  - intros x d. rewrite add_node_depends. simpl. rewrite getset_ensure_key. apply Hr.
  - destruct Hrank as [rank Hrank]. exists rank. intros x d Hd%add_node_depends. auto.
Qed.

Lemma getset_insert m k (s : gset string) x :
  getset (<[k := s]> m) x = if decide (k = x) then s else getset m x.
Proof.
  unfold getset. destruct (decide (k = x)) as [->|Hne].
  - by rewrite lookup_insert_eq.
  - by rewrite lookup_insert_ne.
Qed.

Lemma getset_alter (f : gset string → gset string) m k x :
  f ∅ = ∅ →
  getset (alter f k m) x = if decide (k = x) then f (getset m x) else getset m x.
Proof.
  intros Hf. unfold getset. destruct (decide (k = x)) as [->|Hne].
  - rewrite lookup_alter_eq. by destruct (m !! x).
  - by rewrite lookup_alter_ne.
Qed.

(** What [add_dependency] returns, by the outcome of the search. *)
Lemma add_dependency_cases node_id depends_on g :
  let g1 := add_node depends_on (add_node node_id g) in
  (reaches g depends_on node_id ∧
   add_dependency node_id depends_on g = (g1, Some CircularDependencyError)) ∨
  (¬ reaches g depends_on node_id ∧
   ∃ g2, add_dependency node_id depends_on g = (g2, None) ∧
         nodes g2 = nodes g1 ∧
         (∀ x, is_Some (graph g2 !! x) ↔ x = node_id ∨ is_Some (graph g1 !! x)) ∧
         (∀ x, is_Some (reverse_graph g2 !! x)
               ↔ x = depends_on ∨ is_Some (reverse_graph g1 !! x)) ∧
         (∀ x d, depends g2 x d ↔ depends g x d ∨ (x = node_id ∧ d = depends_on)) ∧
         (∀ x d, x ∈ getset (reverse_graph g2) d
                 ↔ x ∈ getset (reverse_graph g) d ∨ (x = node_id ∧ d = depends_on))).
Proof.
  intros g1. unfold add_dependency. fold g1.
  destruct (_would_create_cycle g1 node_id depends_on) eqn:E.
  - left. split; [|done]. apply _would_create_cycle_spec in E.
    by apply add_node_reaches, add_node_reaches in E.
  - right. split.
    { intros Hr.
      assert (reaches g1 depends_on node_id) as Hr1
        by (by apply add_node_reaches, add_node_reaches).
      apply _would_create_cycle_spec in Hr1. congruence. }
    eexists. split; [done|]. simpl. split; [done|].
    assert (∀ (m : gmap string (gset string)) (k : string) (s : gset string)
              (x : string),
              is_Some (<[k := s]> m !! x) ↔ x = k ∨ is_Some (m !! x)) as Hins.
    { intros m k s x. destruct (decide (k = x)) as [->|Hne].
      - rewrite lookup_insert_eq. split; [by left|by eauto].
      - rewrite lookup_insert_ne by done. split; [by right|]. by intros [->|?]. }
    split; [intros x; apply Hins|]. split; [intros x; apply Hins|]. split.
    + intros x d. unfold depends. simpl. rewrite getset_insert.
      rewrite !getset_ensure_key. destruct (decide (node_id = x)) as [->|Hne].
      * rewrite elem_of_union, elem_of_singleton. naive_solver.
      * naive_solver.
    + intros x d. rewrite getset_insert. rewrite !getset_ensure_key.
      destruct (decide (depends_on = d)) as [->|Hne].
      * rewrite elem_of_union, elem_of_singleton. naive_solver.
      * naive_solver.
Qed.

Lemma add_dependency_wfg node_id depends_on g :
  wfg g → wfg (add_dependency node_id depends_on g).1.
Proof.
  intros Hwf.
  pose proof (add_node_wfg depends_on _ (add_node_wfg node_id _ Hwf)) as Hwf1.
  destruct (add_dependency_cases node_id depends_on g)
    as [[_ ->]|(Hno & g2 & -> & Hn2 & Hk2 & Hrk2 & Hd2 & Hr2)]; [done|].
  simpl. destruct Hwf as [Hk Hn Hr [rank Hrank]]. split.
  - intros x Hx. rewrite Hn2 in Hx. destruct (wfg_keys _ Hwf1 x Hx).
    rewrite Hk2, Hrk2. by split; right.
  - intros x d [Hd|[-> ->]]%Hd2; rewrite Hn2; simpl.
    + destruct (Hn x d Hd). split; by do 2 apply elem_of_union_r.
    + split; [apply elem_of_union_r, elem_of_union_l|apply elem_of_union_l];
        by apply elem_of_singleton.
  - intros x d. rewrite Hd2, Hr2, Hr. done.
  - set (up x := _would_create_cycle g node_id x).
    exists (λ x, if up x then rank x + rank depends_on + 1 else rank x).
    assert (up node_id = true) as Hup_n
      by (apply _would_create_cycle_spec, rtc_refl).
    assert (up depends_on = false) as Hup_d.
    { destruct (up depends_on) eqn:E; [|done].
      by apply _would_create_cycle_spec in E. }
    intros x d [Hd|[-> ->]]%Hd2.
    + pose proof (Hrank x d Hd). destruct (up d) eqn:Ed.
      * assert (up x = true) as ->; [|lia].
        apply _would_create_cycle_spec. eapply rtc_l; [exact Hd|].
        by apply _would_create_cycle_spec.
      * destruct (up x); lia.
    + rewrite Hup_n, Hup_d. lia.
Qed.

Lemma remove_dependency_wfg node_id depends_on g :
  wfg g → wfg (remove_dependency node_id depends_on g).
Proof.
  intros [Hk Hn Hr [rank Hrank]].
  assert (∀ x d, depends (remove_dependency node_id depends_on g) x d
                 ↔ depends g x d ∧ ¬ (x = node_id ∧ d = depends_on)) as Hd.
  { intros x d. unfold depends. simpl.
    rewrite getset_alter by (apply leibniz_equiv; set_solver).
    destruct (decide (node_id = x)) as [->|Hne].
    - rewrite elem_of_difference, elem_of_singleton. naive_solver.
    - naive_solver. }
  assert (∀ (f : gset string → gset string) (m : gmap string (gset string))
            (k x : string),
            is_Some (alter f k m !! x) ↔ is_Some (m !! x)) as Halter.
  { intros f m k x. destruct (decide (k = x)) as [->|Hne].
    - rewrite lookup_alter_eq. by rewrite fmap_is_Some.
    - by rewrite lookup_alter_ne. }
  split.
  - intros x Hx. simpl. rewrite !Halter. by apply Hk.
  - intros x d [Hxd _]%Hd. by apply Hn.
  - intros x d. rewrite Hd, Hr. simpl.
    rewrite getset_alter by (apply leibniz_equiv; set_solver).
    destruct (decide (depends_on = d)) as [->|Hne].
    + rewrite elem_of_difference, elem_of_singleton. naive_solver.
    + naive_solver.
  - exists rank. intros x d [Hxd _]%Hd. auto.
Qed.

Lemma graph_run_snoc ops o g : run (ops ++ [o]) g = step o (run ops g).
Proof. unfold run. by rewrite foldl_app. Qed.

Lemma run_wfg ops : wfg (run ops init).
Proof.
  induction ops as [|o ops IH] using rev_ind.
  - assert (∀ x d, ¬ depends (run [] init) x d) as Hno.
    { intros x d Hd. unfold depends, getset in Hd. simpl in Hd.
      rewrite lookup_empty in Hd. by apply not_elem_of_empty in Hd. }
    split.
    + intros x Hx. by apply not_elem_of_empty in Hx.
    + intros x d Hd. by destruct (Hno x d).
    + intros x d. split; [intros Hd; by destruct (Hno x d)|].
      unfold getset. simpl. rewrite lookup_empty. by intros ?%not_elem_of_empty.
    + exists (λ _, 0). intros x d Hd. by destruct (Hno x d).
  - rewrite graph_run_snoc. destruct o; simpl.
    + by apply add_node_wfg.
    + by apply add_dependency_wfg.
    + by apply remove_dependency_wfg.
Qed.

Lemma reaches_ends g x y :
  reaches g x y → x ≠ y → (∃ z, depends g x z) ∧ (∃ z, depends g z y).
Proof.
  intros Hr Hne. split.
  - apply rtc_inv in Hr as [->|(z & Hz & _)]; [done|eauto].
  - apply rtc_inv_r in Hr as [->|(z & _ & Hz)]; [done|eauto].
Qed.

(** C3 (amended). On a graph built through the class's methods, when
    [dependsOn] can reach [node] through dependency edges,
    [add_dependency] raises [CircularDependencyError] and applies no edge:
    both adjacency maps read as before. The node set has grown by the two
    identifiers at most; the graph is unchanged altogether when [node] and
    [dependsOn] differ or [node] is a node already. *)
Theorem cycle_is_rejected ops node_id depends_on :
  let g := run ops init in
  let g' := (add_dependency node_id depends_on g).1 in
  reaches g depends_on node_id →
  (add_dependency node_id depends_on g).2 = Some CircularDependencyError ∧
  (∀ x, getset (graph g') x = getset (graph g) x) ∧
  (∀ x, getset (reverse_graph g') x = getset (reverse_graph g) x) ∧
  nodes g' = {[depends_on]} ∪ ({[node_id]} ∪ nodes g) ∧
  (node_id ≠ depends_on ∨ node_id ∈ nodes g → g' = g).
Proof.
  intros g g' Hreach. subst g'.
  destruct (add_dependency_cases node_id depends_on g) as [[_ ->]|[Hno _]]; [|done].
  simpl. split; [done|].
  split; [intros x; by rewrite !getset_ensure_key|].
  split; [intros x; by rewrite !getset_ensure_key|]. split; [done|].
  intros Hcase. pose proof (run_wfg ops) as Hwf. fold g in Hwf.
  assert (node_id ∈ nodes g ∧ depends_on ∈ nodes g) as [Hn Hd].
  { destruct (decide (node_id = depends_on)) as [<-|Hne].
    - destruct Hcase as [?|?]; done.
    - destruct (reaches_ends g depends_on node_id Hreach) as [[z Hz] [z' Hz']];
        [done|].
      split; [by apply (wfg_nodes g Hwf z' node_id)|by apply (wfg_nodes g Hwf depends_on z)]. }
  destruct (wfg_keys g Hwf node_id Hn), (wfg_keys g Hwf depends_on Hd).
  rewrite (add_node_known node_id g) by done. by apply add_node_known.
Qed.

Definition chain_ops : list op :=
  [AddDependency "report" "analysis"; AddDependency "analysis" "research"].

Lemma cycle_is_rejected_witness :
  (add_dependency "research" "report" (run chain_ops init)).2
  = Some CircularDependencyError ∧
  (add_dependency "research" "report" (run chain_ops init)).1 = run chain_ops init.
Proof.
  destruct (cycle_is_rejected chain_ops "research" "report") as (H1 & _ & _ & _ & H5).
  - apply (rtc_l _ _ "analysis"); [|apply rtc_once];
      apply (bool_decide_eq_true_1 (_ ∈ _)); vm_compute; reflexivity.
  - split; [exact H1|]. apply H5. by left.
Defined.

(** C3 as stated fails on the node set: a self-dependency on an identifier
    that is not a node is rejected (the search starts at the node it looks
    for), but [add_node] has already run. *)
Lemma rejected_self_dependency_adds_node :
  reaches init "a" "a" ∧
  (add_dependency "a" "a" init).2 = Some CircularDependencyError ∧
  nodes init = ∅ ∧
  nodes (add_dependency "a" "a" init).1 = {["a"]} ∧
  (add_dependency "a" "a" init).1 ≠ init.
Proof.
  split; [apply rtc_refl|]. split; [reflexivity|]. split; [reflexivity|].
  split; [reflexivity|]. intros H. apply (f_equal nodes) in H.
  assert ("a" ∈ nodes init) as Hin
    by (rewrite <- H; apply (bool_decide_eq_true_1 (_ ∈ _)); vm_compute; reflexivity).
  by apply not_elem_of_empty in Hin.
Qed.


(** *** Kahn's algorithm *)

(** The loop invariant of [topological_sort]: [result] and [queue] hold
    distinct nodes; [in_degree] counts, for every node, the dependencies
    not yet in [result]; the queue holds nodes whose dependencies are all
    in [result], and every such node is in [result] or the queue; in
    [result], every node comes after its dependencies. *)
Record kahn_inv (g : t) (in_degree : gmap string Z) (queue result : list string)
    : Prop := mkKahn {
  ki_nodup : NoDup (result ++ queue);
  ki_nodes : ∀ x, x ∈ result ++ queue → x ∈ nodes g;
  ki_degree : ∀ x, x ∈ nodes g →
    in_degree !! x
    = Some (Z.of_nat (size (getset (graph g) x ∖ list_to_set result)));
  ki_ready : ∀ x, x ∈ queue → getset (graph g) x ⊆ list_to_set result;
  ki_queued : ∀ x, x ∈ nodes g → getset (graph g) x ⊆ list_to_set result →
    x ∈ result ++ queue;
  ki_order : ∀ i x, result !! i = Some x → ∀ d, depends g x d →
    ∃ j, j < i ∧ result !! j = Some d
}.

Lemma filter_ext_elem {A : Type} (P Q : A → Prop)
    `{!∀ x, Decision (P x), !∀ x, Decision (Q x)} (l : list A) :
  (∀ x, x ∈ l → P x ↔ Q x) → filter P l = filter Q l.
Proof.
  induction l as [|a l IH]; intros Hext; [done|].
  rewrite !filter_cons.
  rewrite IH by (intros x Hx; apply Hext; by right).
  destruct (decide (P a)) as [Hp|Hp], (decide (Q a)) as [Hq|Hq]; try done.
  - destruct Hq. by apply (Hext a); [left|].
  - destruct Hp. by apply (Hext a); [left|].
Qed.

Lemma reduce_in_degree_spec dependents : ∀ in_degree queue,
  NoDup dependents →
  (∀ v, v ∈ dependents → is_Some (in_degree !! v)) →
  ∃ in_degree',
    reduce_in_degree dependents in_degree queue
    = Some (in_degree',
            queue ++ filter (λ v, in_degree !! v = Some 1%Z) dependents) ∧
    ∀ x, in_degree' !! x
         = if decide (x ∈ dependents)
           then (λ d, d - 1)%Z <$> in_degree !! x
           else in_degree !! x.
Proof.
  induction dependents as [|v rest IH]; intros in_degree queue Hnd Hdom; simpl.
  - exists in_degree. by rewrite app_nil_r.
  - apply NoDup_cons in Hnd as [Hv Hnd].
    destruct (Hdom v) as [d Hd]; [by left|]. rewrite Hd.
    assert (∀ w, w ∈ rest → <[v := (d - 1)%Z]> in_degree !! w = in_degree !! w)
      as Hsame.
    { intros w Hw. rewrite lookup_insert_ne; [done|]. by intros ->. }
    assert (filter (λ w, <[v := (d - 1)%Z]> in_degree !! w = Some 1%Z) rest
            = filter (λ w, in_degree !! w = Some 1%Z) rest) as Hfilter.
    { apply filter_ext_elem. intros w Hw. by rewrite Hsame. }
    assert (∀ q, ∃ in_degree',
        reduce_in_degree rest (<[v := (d - 1)%Z]> in_degree) q
        = Some (in_degree', q ++ filter (λ w, in_degree !! w = Some 1%Z) rest) ∧
        ∀ x, in_degree' !! x
             = if decide (x ∈ v :: rest)
               then (λ d, d - 1)%Z <$> in_degree !! x
               else in_degree !! x) as Hrest.
    { intros q. destruct (IH (<[v := (d - 1)%Z]> in_degree) q Hnd)
        as (in_degree' & Hred & Hlook).
      { intros w Hw. rewrite Hsame by done. apply Hdom. by right. }
      exists in_degree'. rewrite Hred, Hfilter. split; [done|]. intros x.
      rewrite Hlook. destruct (decide (x = v)) as [->|Hxv].
      - rewrite decide_False by done. rewrite decide_True by (by left).
        by rewrite lookup_insert_eq, Hd.
      - rewrite lookup_insert_ne by done.
        destruct (decide (x ∈ rest)).
        + by rewrite decide_True by (by right).
        + rewrite decide_False; [done|]. by intros [?|?]%elem_of_cons. }
    rewrite filter_cons. case_decide as Hzero.
    + rewrite decide_True by (rewrite Hd; f_equal; lia).
      destruct (Hrest (queue ++ [v])) as (in_degree' & -> & Hlook).
      exists in_degree'. by rewrite <- app_assoc.
    + rewrite decide_False by (rewrite Hd; intros [= ->]; lia). apply Hrest.
Qed.

Lemma nodup_length_le (l : list string) (X : gset string) :
  NoDup l → (∀ x, x ∈ l → x ∈ X) → length l ≤ size X.
Proof.
  intros Hnd Hsub. apply (submseteq_length l (elements X)).
  apply NoDup_submseteq; [done|]. intros x Hx. by apply elem_of_elements, Hsub.
Qed.

(** One iteration of the loop keeps the invariant. *)
Lemma kahn_step g in_degree node queue result :
  wfg g → kahn_inv g in_degree (node :: queue) result →
  ∃ in_degree' queue',
    reduce_in_degree (elements (getset (reverse_graph g) node)) in_degree queue
    = Some (in_degree', queue') ∧
    kahn_inv g in_degree' queue' (result ++ [node]).
Proof.
  intros Hwf [Hnd Hnodes Hdeg Hready Hqueued Horder].
  set (D := getset (reverse_graph g) node).
  assert (∀ v, v ∈ D ↔ depends g v node) as HD
    by (intros v; symmetry; apply (wfg_reverse g Hwf)).
  assert (∀ v, v ∈ D → v ∈ nodes g) as HDn
    by (intros v Hv%HD; by apply (wfg_nodes g Hwf v node)).
  destruct (reduce_in_degree_spec (elements D) in_degree queue)
    as (in_degree' & Hred & Hlook).
  { apply NoDup_elements. }
  { intros v Hv%elem_of_elements. rewrite Hdeg by auto. eauto. }
  exists in_degree', (queue ++ filter (λ v, in_degree !! v = Some 1%Z) (elements D)).
  split; [done|].
  assert (node ∉ result) as Hnode.
  { apply NoDup_app in Hnd as (_ & Hdisj & _). intros Hin.
    apply (Hdisj node Hin). by left. }
  assert (list_to_set (result ++ [node]) = list_to_set result ∪ {[node]} :> gset string)
    as HR by apply list_to_set_snoc_L.
  assert (∀ v, v ∈ D →
            size (getset (graph g) v ∖ list_to_set result)
            = S (size (getset (graph g) v ∖ list_to_set (result ++ [node])))) as Hdec.
  { intros v Hv%HD. rewrite HR.
    replace (getset (graph g) v ∖ list_to_set result)
      with ({[node]} ∪ getset (graph g) v ∖ (list_to_set result ∪ {[node]})).
    - rewrite size_union, size_singleton; [done|set_solver].
    - apply leibniz_equiv. intros y. unfold depends in Hv.
      rewrite elem_of_union, !elem_of_difference, elem_of_union,
        elem_of_list_to_set, !elem_of_singleton.
      destruct (decide (y = node)) as [->|]; naive_solver. }
  assert (∀ v, v ∉ D →
            getset (graph g) v ∖ list_to_set (result ++ [node])
            = getset (graph g) v ∖ list_to_set result) as Hkeep.
  { intros v Hv. rewrite HR. apply leibniz_equiv. intros y.
    rewrite !elem_of_difference, elem_of_union, elem_of_singleton.
    split; [naive_solver|]. intros [Hy Hn]. split; [done|].
    intros [?| ->]; [done|]. apply Hv, HD. exact Hy. }
  assert (∀ v, v ∈ filter (λ v, in_degree !! v = Some 1%Z) (elements D) ↔
               v ∈ D ∧ getset (graph g) v ⊆ list_to_set (result ++ [node])) as HF.
  { intros v. rewrite list_elem_of_filter, elem_of_elements. split.
    - intros [H1 Hv]. split; [done|]. rewrite Hdeg in H1 by auto.
      injection H1 as H1. rewrite (Hdec v Hv) in H1.
      assert (size (getset (graph g) v ∖ list_to_set (result ++ [node])) = 0)
        as H0%size_empty_inv by lia.
      intros y Hy. destruct (decide (y ∈ (list_to_set (result ++ [node]) : gset string)));
        [done|]. assert (y ∈ (∅ : gset string)) as []%not_elem_of_empty.
      rewrite <- H0. by apply elem_of_difference.
    - intros [Hv Hsub]. split; [|done]. rewrite Hdeg by auto. f_equal.
      rewrite (Hdec v Hv).
      replace (getset (graph g) v ∖ list_to_set (result ++ [node]))
        with (∅ : gset string); [by rewrite size_empty|].
      apply leibniz_equiv. intros y. rewrite elem_of_difference.
      split; [by intros ?%not_elem_of_empty|]. intros [Hy Hn]. by destruct (Hn (Hsub y Hy)). }
  assert ((result ++ [node]) ++ queue = result ++ node :: queue) as Hassoc
    by (by rewrite <- app_assoc).
  split.
  - rewrite app_assoc, Hassoc. apply NoDup_app. split; [done|]. split.
    + intros x Hx [Hxd Hsub]%HF. apply HD in Hxd.
      apply elem_of_app in Hx as [Hx|Hx].
      * apply list_elem_of_lookup in Hx as [i Hi].
        destruct (Horder i x Hi node Hxd) as (j & _ & Hj).
        apply Hnode. by eapply list_elem_of_lookup_2.
      * apply Hnode. apply (elem_of_list_to_set (C := gset string)).
        by apply (Hready x Hx).
    + apply NoDup_filter, NoDup_elements.
  - intros x. rewrite app_assoc, Hassoc. intros [Hx|[Hx _]%HF]%elem_of_app; auto.
  - intros x Hx. rewrite Hlook. rewrite Hdeg by done. simpl.
    destruct (decide (x ∈ elements D)) as [Hin%elem_of_elements|Hnin].
    + f_equal. rewrite (Hdec x Hin). lia.
    + rewrite Hkeep; [done|]. intros Hin. by apply Hnin, elem_of_elements.
  - intros x [Hx|[_ Hx]%HF]%elem_of_app; [|done].
    rewrite HR. etrans; [apply Hready; by right|]. apply union_subseteq_l.
  - intros x Hx Hsub. rewrite app_assoc, Hassoc.
    destruct (decide (x ∈ D)) as [HxD|HxD].
    + apply elem_of_app. right. by apply HF.
    + apply elem_of_app. left. apply Hqueued; [done|].
      intros y Hy. pose proof (Hsub y Hy) as Hy'. rewrite HR in Hy'.
      apply elem_of_union in Hy' as [?| ->%elem_of_singleton]; [done|].
      by destruct HxD; apply HD.
  - intros i x Hi d Hd.
    apply lookup_snoc_Some in Hi as [[Hlt Hi]|[-> <-]].
    + destruct (Horder i x Hi d Hd) as (j & Hj & Hjd).
      exists j. split; [done|]. by rewrite lookup_app_l by lia.
    + assert (d ∈ result) as Hdr.
      { apply (elem_of_list_to_set (C := gset string)).
        apply (Hready node); [by left|done]. }
      apply list_elem_of_lookup in Hdr as [j Hj]. exists j.
      split; [by eapply lookup_lt_Some|]. rewrite lookup_app_l; [done|].
      by eapply lookup_lt_Some.
Qed.


(** When the queue has run empty every node is in [result]: by induction
    on the rank, a node's dependencies are in [result], so the node has
    been queued, hence output. *)
Lemma kahn_all_output g in_degree result :
  wfg g → kahn_inv g in_degree [] result → ∀ x, x ∈ nodes g → x ∈ result.
Proof.
  intros Hwf Hinv. destruct (wfg_rank g Hwf) as [rank Hrank].
  assert (∀ n x, rank x < n → x ∈ nodes g → x ∈ result) as Hind.
  { induction n as [|n IH]; intros x Hlt Hx; [lia|].
    rewrite <- (app_nil_r result). apply (ki_queued g _ _ _ Hinv x Hx).
    intros d Hd. apply elem_of_list_to_set. apply IH.
    - pose proof (Hrank x d Hd). lia.
    - by apply (wfg_nodes g Hwf x d). }
  intros x. apply (Hind (S (rank x))). lia.
Qed.

Lemma kahn_loop g :
  wfg g → ∀ fuel in_degree queue result,
  kahn_inv g in_degree queue result →
  fuel + length result = size (nodes g) →
  ∃ order in_degree',
    topological_sort_loop fuel g in_degree queue result = Some (Returns order) ∧
    kahn_inv g in_degree' [] order.
Proof.
  intros Hwf. induction fuel as [|fuel IH]; intros in_degree queue result Hinv Hfuel.
  - destruct queue as [|node queue].
    + simpl. rewrite decide_False by lia. eauto.
    + pose proof (nodup_length_le _ _ (ki_nodup _ _ _ _ Hinv) (ki_nodes _ _ _ _ Hinv))
        as Hle.
      rewrite length_app in Hle. simpl in *. lia.
  - destruct queue as [|node queue].
    + simpl. rewrite decide_False; [by eauto|]. intros Hne. apply Hne.
      apply Permutation_length. apply NoDup_Permutation.
      * pose proof (ki_nodup _ _ _ _ Hinv) as Hnd. by rewrite app_nil_r in Hnd.
      * apply NoDup_elements.
      * intros x. rewrite elem_of_elements. split.
        -- intros Hx. apply (ki_nodes _ _ _ _ Hinv). by rewrite app_nil_r.
        -- by apply (kahn_all_output g in_degree).
    + destruct (kahn_step g in_degree node queue result Hwf Hinv)
        as (in_degree' & queue' & Hred & Hinv').
      simpl. rewrite Hred. apply (IH in_degree' queue' _ Hinv').
      rewrite length_app. simpl. lia.
Qed.

Lemma fmap_pair_fst {A B : Type} (f : A → B) (l : list A) :
  ((λ x, (x, f x)) <$> l).*1 = l.
Proof. induction l as [|a l IH]; [done|]. rewrite !fmap_cons. by f_equal. Qed.

Lemma initial_in_degree_lookup g x :
  x ∈ nodes g →
  initial_in_degree g !! x = Some (Z.of_nat (size (getset (graph g) x))).
Proof.
  intros Hx. unfold initial_in_degree. apply elem_of_list_to_map_1.
  - rewrite fmap_pair_fst. apply NoDup_elements.
  - apply list_elem_of_fmap. exists x. split; [done|]. by apply elem_of_elements.
Qed.

Lemma kahn_init g :
  wfg g →
  kahn_inv g (initial_in_degree g)
           (filter (λ node, initial_in_degree g !! node = Some 0%Z)
                   (elements (nodes g))) [].
Proof.
  intros Hwf.
  assert (∀ x, x ∈ filter (λ node, initial_in_degree g !! node = Some 0%Z)
                          (elements (nodes g))
               ↔ x ∈ nodes g ∧ getset (graph g) x = ∅) as Hq.
  { intros x. rewrite list_elem_of_filter, elem_of_elements. split.
    - intros [H0 Hx]. split; [done|]. rewrite initial_in_degree_lookup in H0 by done.
      apply leibniz_equiv, size_empty_inv. injection H0 as H0. lia.
    - intros [Hx He]. split; [|done]. rewrite initial_in_degree_lookup by done.
      by rewrite He, size_empty. }
  split; simpl.
  - apply NoDup_filter, NoDup_elements.
  - by intros x [Hx _]%Hq.
  - intros x Hx. rewrite initial_in_degree_lookup by done.
    by rewrite difference_empty_L.
  - intros x [_ He]%Hq. rewrite He. apply empty_subseteq.
  - intros x Hx Hsub. apply Hq. split; [done|].
    apply leibniz_equiv. intros y. split; [apply Hsub|by intros ?%not_elem_of_empty].
  - intros i x Hi. by rewrite lookup_nil in Hi.
Qed.

Lemma index_lookup (order : list string) : ∀ i x,
  NoDup order → order !! i = Some x → index x order = Some i.
Proof.
  induction order as [|y order IH]; intros i x Hnd Hi; [by rewrite lookup_nil in Hi|].
  apply NoDup_cons in Hnd as [Hy Hnd]. simpl. destruct i as [|i]; simpl in Hi.
  - injection Hi as ->. by rewrite decide_True.
  - rewrite decide_False.
    + by rewrite (IH i x Hnd Hi).
    + intros ->. apply Hy. by eapply list_elem_of_lookup_2.
Qed.

(** C5. On every graph built through the class's methods (hence on every
    graph built by successful [add_dependency] calls alone),
    [topological_sort] returns a list that is a permutation of the nodes
    and in which every dependency stands strictly before its dependent. *)
Theorem topological_sort_respects_dependencies ops :
  ∃ order,
    topological_sort (run ops init) = Some (Returns order) ∧
    order ≡ₚ elements (nodes (run ops init)) ∧
    ∀ x d, depends (run ops init) x d →
      ∃ i j, index d order = Some i ∧ index x order = Some j ∧ i < j.
Proof.
  pose proof (run_wfg ops) as Hwf. set (g := run ops init) in *.
  destruct (kahn_loop g Hwf (size (nodes g)) _ _ [] (kahn_init g Hwf))
    as (order & in_degree & Hsort & Hinv); [simpl; lia|].
  exists order. split; [exact Hsort|].
  pose proof (ki_nodup _ _ _ _ Hinv) as Hnd. rewrite app_nil_r in Hnd.
  split.
  - apply NoDup_Permutation; [done|apply NoDup_elements|].
    intros x. rewrite elem_of_elements. split.
    + intros Hx. apply (ki_nodes _ _ _ _ Hinv). by rewrite app_nil_r.
    + by apply (kahn_all_output g in_degree).
  - intros x d Hd.
    assert (x ∈ order) as Hx.
    { apply (kahn_all_output g in_degree); [done|done|].
      by apply (wfg_nodes g Hwf x d). }
    apply list_elem_of_lookup in Hx as [j Hj].
    destruct (ki_order _ _ _ _ Hinv j x Hj d Hd) as (i & Hlt & Hi).
    exists i, j. split; [by apply index_lookup|]. split; [by apply index_lookup|done].
Qed.

End DependencyGraphFacts.

(** ** The scenarios of [tests/test_orchestration.py], run on the model *)

Module RepositoryTests.

(** [test_task_queue]: LOW, HIGH and MEDIUM are added in that order; the
    HIGH task comes first and is IN_PROGRESS, then MEDIUM, then LOW. *)
Definition queue3 : list TaskQueueFacts.op :=
  [TaskQueueFacts.AddTask "task1" "researcher" "research" (AStr "topic1")
                          TaskQueue.LOW None None;
   TaskQueueFacts.AddTask "task2" "analyst" "analyze" (AStr "data1")
                          TaskQueue.HIGH None None;
   TaskQueueFacts.AddTask "task3" "writer" "write" (AStr "report1")
                          TaskQueue.MEDIUM None None].

Example test_task_queue_priorities :
  (λ task, (TaskQueue.task_id task, TaskQueue.status task))
    <$> TaskQueueFacts.drain None 3 (TaskQueueFacts.run queue3 TaskQueue.init)
  = [("task2", TaskQueue.IN_PROGRESS); ("task3", TaskQueue.IN_PROGRESS);
     ("task1", TaskQueue.IN_PROGRESS)].
Proof. vm_compute. reflexivity. Qed.

(** [test_task_queue], second half: a task depending on [task1] waits in
    [pending] outside the queue until [task1] is completed. *)
Definition queue4 : list TaskQueueFacts.op :=
  queue3 ++
  [TaskQueueFacts.GetNextTask None;
   TaskQueueFacts.CompleteTask "task2" (AStr "analysis complete");
   TaskQueueFacts.AddTask "task4" "writer" "write" (AStr "final")
                          TaskQueue.MEDIUM (Some ["task1"]) None].

Example test_task_queue_dependencies :
  let q := TaskQueueFacts.run queue4 TaskQueue.init in
  TaskQueue.status <$> TaskQueue.tasks q !! "task2" = Some TaskQueue.COMPLETED ∧
  bool_decide ("task4" ∈ TaskQueue.pending q) = true ∧
  (TaskQueue.queue q).*2 = ["task3"; "task1"] ∧
  (TaskQueue.queue
     (TaskQueue.complete_task "task1" (AStr "research complete") q)).*2
  = ["task3"; "task1"; "task4"].
Proof. vm_compute. done. Qed.

(** [test_dependency_graph]: the chain task4 -> task3 -> task2 -> task1 is
    sorted from task1 to task4, and closing the cycle is refused. *)
Definition chain4 : list DependencyGraphFacts.op :=
  [DependencyGraphFacts.AddNode "task1"; DependencyGraphFacts.AddNode "task2";
   DependencyGraphFacts.AddNode "task3"; DependencyGraphFacts.AddNode "task4";
   DependencyGraphFacts.AddDependency "task2" "task1";
   DependencyGraphFacts.AddDependency "task3" "task2";
   DependencyGraphFacts.AddDependency "task4" "task3"].

Example test_dependency_graph_sort :
  let g := DependencyGraphFacts.run chain4 DependencyGraph.init in
  DependencyGraph.topological_sort g
  = Some (Returns ["task1"; "task2"; "task3"; "task4"]) ∧
  (DependencyGraph.add_dependency "task1" "task4" g).2
  = Some CircularDependencyError.
Proof. vm_compute. done. Qed.

(** [test_agent_registry]: lookup by type, workload up and down. *)
Definition two_agents : list AgentRegistryFacts.op :=
  [AgentRegistryFacts.Register "id1" "researcher" "Researcher"
                               ["research"; "web_search"];
   AgentRegistryFacts.Register "id2" "analyst" "Analyst"
                               ["analysis"; "evaluation"]].

Example test_agent_registry_workload :
  let r := AgentRegistryFacts.run two_agents AgentRegistry.init in
  let r1 := AgentRegistry.increment_agent_workload "id1" r in
  let r2 := AgentRegistry.record_task_completion "id1" true r1 in
  AgentRegistry.find_available_agent (Some "researcher") None r
  = Returns (Some (AgentRegistry.mkAgentInfo "id1" "researcher" "Researcher"
                     ["research"; "web_search"] "idle" 0 0 0)) ∧
  (λ a, (AgentRegistry.workload a, AgentRegistry.status a))
    <$> AgentRegistry.get_agent "id1" r1 = Some (1%Z, "busy") ∧
  (λ a, (AgentRegistry.workload a, AgentRegistry.status a,
         AgentRegistry.total_tasks_completed a))
    <$> AgentRegistry.get_agent "id1" r2 = Some (0%Z, "idle", 1%Z).
Proof. vm_compute. done. Qed.

End RepositoryTests.

(** * Further properties of the code *)

(** ** The binary heap keeps its order *)

Module heapqOrder.
Import heapq.
#[local] Unset Default Proof Using.
Section heapqOrder.
Context {A : Type} (lt : A → A → bool) (key : A → Z).
Hypothesis lt_key : ∀ x y, lt x y = bool_decide (key x < key y)%Z.

Definition parent (i : nat) : nat := (i - 1) `div` 2.

(** The heap property: no entry is smaller than its parent. *)
Definition heap_ok (h : list A) : Prop :=
  ∀ i x p, 0 < i → h !! i = Some x → h !! parent i = Some p →
           (key p ≤ key x)%Z.

(** The heap property everywhere but around the position [pos]. *)
Definition ok_except (h : list A) (pos : nat) : Prop :=
  ∀ i x p, 0 < i → i ≠ pos → parent i ≠ pos →
           h !! i = Some x → h !! parent i = Some p → (key p ≤ key x)%Z.

(** The children of [pos] are no smaller than [k]. *)
Definition children_ge (h : list A) (pos : nat) (k : Z) : Prop :=
  ∀ c x, 0 < c → parent c = pos → h !! c = Some x → (k ≤ key x)%Z.

Lemma parent_spec i : 0 < i → 2 * parent i + 1 = i ∨ 2 * parent i + 2 = i.
Proof.
  intros Hi. unfold parent.
  pose proof (Nat.div_mod_eq (i - 1) 2) as Hdm.
  pose proof (Nat.mod_upper_bound (i - 1) 2) as Hm. lia.
Qed.

Lemma parent_lt i : 0 < i → parent i < i.
Proof. intros Hi. pose proof (parent_spec i Hi). lia. Qed.

Lemma parent_child pos c : 0 < c → parent c = pos ↔ c = 2 * pos + 1 ∨ c = 2 * pos + 2.
Proof. intros Hc. pose proof (parent_spec c Hc). lia. Qed.

Lemma ok_except_insert h pos x : ok_except h pos → ok_except (<[pos := x]> h) pos.
Proof.
  intros Hok i y p Hi Hne Hpne. rewrite !list_lookup_insert_ne by done. by apply Hok.
Qed.

(** Closing the hole: with the new item no smaller than the parent of the
    hole and no larger than its children, the heap is ordered. *)
Lemma close_hole h pos newitem :
  pos < length h → ok_except h pos → children_ge h pos (key newitem) →
  (0 < pos → ∀ p, h !! parent pos = Some p → (key p ≤ key newitem)%Z) →
  heap_ok (<[pos := newitem]> h).
Proof.
  intros Hlen Hok Hch Hpar i x p Hi Hx Hp.
  destruct (decide (i = pos)) as [->|Hne].
  - rewrite list_lookup_insert_eq in Hx by done. injection Hx as <-.
    rewrite list_lookup_insert_ne in Hp by (pose proof (parent_lt pos Hi); lia).
    by apply Hpar.
  - rewrite list_lookup_insert_ne in Hx by done.
    destruct (decide (parent i = pos)) as [Hpi|Hpi].
    + rewrite Hpi, list_lookup_insert_eq in Hp by done. injection Hp as <-.
      by apply (Hch i).
    + rewrite list_lookup_insert_ne in Hp by done. by apply (Hok i).
Qed.

Lemma _siftdown_loop_ok fuel : ∀ heap newitem pos,
  pos ≤ fuel → pos < length heap →
  ok_except heap pos → children_ge heap pos (key newitem) →
  (0 < pos → ∀ p, heap !! parent pos = Some p → children_ge heap pos (key p)) →
  heap_ok (_siftdown_loop lt fuel heap newitem 0 pos).
Proof.
  induction fuel as [|fuel IH]; intros heap newitem pos Hfuel Hlen Hok Hch Hgrand;
    cbn [_siftdown_loop].
  - apply close_hole; [done|done|done|lia].
  - case_decide as Hpos; [|apply close_hole; [done|done|done|lia]].
    change ((pos - 1) `div` 2) with (parent pos).
    pose proof (parent_lt pos Hpos) as Hplt.
    destruct (lookup_lt_is_Some_2 heap (parent pos)) as [p Hp]; [lia|].
    unfold getitem. rewrite Hp. cbn [default from_option id].
    rewrite lt_key. case_bool_decide as Hlt.
    + apply IH; [lia|rewrite length_insert; lia| | |].
      * intros i x q Hi Hne Hpne Hx Hq.
        destruct (decide (i = pos)) as [->|Hipos]; [done|].
        rewrite list_lookup_insert_ne in Hx by done.
        destruct (decide (parent i = pos)) as [Hpi|Hpi].
        -- rewrite Hpi, list_lookup_insert_eq in Hq by done. injection Hq as <-.
           by apply (Hgrand Hpos p Hp i).
        -- rewrite list_lookup_insert_ne in Hq by done. by apply (Hok i).
      * intros c x Hc Hpc Hx.
        destruct (decide (c = pos)) as [->|Hcpos].
        -- rewrite list_lookup_insert_eq in Hx by done. injection Hx as <-. lia.
        -- rewrite list_lookup_insert_ne in Hx by done.
           assert (key p ≤ key x)%Z; [|lia].
           apply (Hok c x p); [done|done|lia|done|by rewrite Hpc].
      * intros Hpp q Hq c x Hc Hpc Hx.
        rewrite list_lookup_insert_ne in Hq
          by (pose proof (parent_lt (parent pos) Hpp); lia).
        assert (key q ≤ key p)%Z as Hqp.
        { apply (Hok (parent pos) p q); [done|lia| |done|done].
          pose proof (parent_lt (parent pos) Hpp). lia. }
        destruct (decide (c = pos)) as [->|Hcpos].
        -- rewrite list_lookup_insert_eq in Hx by done. by injection Hx as <-.
        -- rewrite list_lookup_insert_ne in Hx by done.
           assert (key p ≤ key x)%Z; [|lia].
           apply (Hok c x p); [done|done|lia|done|by rewrite Hpc].
    + apply close_hole; [done|done|done|].
      intros _ q Hq. rewrite Hp in Hq. injection Hq as <-. lia.
Qed.

Lemma _siftup_loop_ok fuel : ∀ heap newitem pos heap' pos',
  pos < length heap → length heap - pos ≤ fuel →
  ok_except heap pos →
  (0 < pos → ∀ p, heap !! parent pos = Some p → children_ge heap pos (key p)) →
  _siftup_loop lt fuel heap newitem (length heap) pos = (heap', pos') →
  pos' < length heap' ∧ ok_except heap' pos' ∧
  (∀ k, children_ge heap' pos' k).
Proof.
  induction fuel as [|fuel IH]; intros heap newitem pos heap' pos' Hlen Hfuel Hok Hgrand;
    cbn [_siftup_loop]; [lia|].
  case_decide as Hchild.
  - set (childpos := if decide (2 * pos + 1 + 1 < length heap)
                     then if negb (lt (getitem heap (2 * pos + 1) newitem)
                                      (getitem heap (2 * pos + 1 + 1) newitem))
                          then 2 * pos + 1 + 1 else 2 * pos + 1
                     else 2 * pos + 1).
    assert (childpos < length heap ∧ parent childpos = pos ∧ 0 < childpos ∧
            ∀ s y c, parent s = pos → 0 < s → s ≠ childpos → heap !! s = Some y →
                     heap !! childpos = Some c → (key c ≤ key y)%Z)
      as (Hclt & Hcpar & Hcpos & Hsmall).
    { subst childpos. case_decide as Hright.
      - destruct (lookup_lt_is_Some_2 heap (2 * pos + 1)) as [l Hl]; [lia|].
        destruct (lookup_lt_is_Some_2 heap (2 * pos + 1 + 1)) as [r Hr]; [lia|].
        unfold getitem. rewrite Hl, Hr. cbn [default from_option id].
        rewrite lt_key. case_bool_decide as Hlr; cbn [negb].
        + split; [lia|]. split; [apply parent_child; lia|]. split; [lia|].
          intros s y c Hs Hs0 Hne Hy Hc. apply parent_child in Hs; [|done].
          assert (s = 2 * pos + 1 + 1) as -> by lia.
          rewrite Hl in Hc. rewrite Hr in Hy. injection Hc as <-. injection Hy as <-. lia.
        + split; [lia|]. split; [apply parent_child; lia|]. split; [lia|].
          intros s y c Hs Hs0 Hne Hy Hc. apply parent_child in Hs; [|done].
          assert (s = 2 * pos + 1) as -> by lia.
          rewrite Hr in Hc. rewrite Hl in Hy. injection Hc as <-. injection Hy as <-. lia.
      - split; [lia|]. split; [apply parent_child; lia|]. split; [lia|].
        intros s y c Hs Hs0 Hne Hy Hc. apply parent_child in Hs; [|done].
        apply lookup_lt_Some in Hy. lia. }
    clearbody childpos.
    destruct (lookup_lt_is_Some_2 heap childpos) as [c Hc]; [done|].
    unfold getitem at 1. rewrite Hc. cbn [default from_option id].
    intros Hloop.
    assert (pos < childpos) as Hpc.
    { pose proof (parent_lt childpos Hcpos). lia. }
    replace (length heap) with (length (<[pos := c]> heap)) in Hloop
      by apply length_insert.
    apply IH in Hloop; [done|rewrite length_insert; lia..| |].
    + intros i x q Hi Hne Hpne Hx Hq.
      destruct (decide (i = pos)) as [->|Hipos].
      * rewrite list_lookup_insert_eq in Hx by done. injection Hx as <-.
        rewrite list_lookup_insert_ne in Hq by (pose proof (parent_lt pos Hi); lia).
        by apply (Hgrand Hi q Hq childpos).
      * rewrite list_lookup_insert_ne in Hx by done.
        destruct (decide (parent i = pos)) as [Hpi|Hpi].
        -- rewrite Hpi, list_lookup_insert_eq in Hq by done. injection Hq as <-.
           by apply (Hsmall i).
        -- rewrite list_lookup_insert_ne in Hq by done. by apply (Hok i).
    + intros _ q Hq cc x Hcc Hpcc Hx.
      rewrite Hcpar, list_lookup_insert_eq in Hq by done. injection Hq as <-.
      assert (cc ≠ pos) by (pose proof (parent_lt cc Hcc); lia).
      rewrite list_lookup_insert_ne in Hx by done.
      apply (Hok cc x c); [done|done|lia|done|by rewrite Hpcc].
  - intros [= <- <-]. split; [done|]. split; [done|].
    intros k c x Hc Hpc Hx. apply parent_child in Hpc; [|done].
    apply lookup_lt_Some in Hx. lia.
Qed.

Lemma _siftdown_ok heap pos :
  pos < length heap → ok_except heap pos →
  (∀ k, children_ge heap pos k) →
  heap_ok (_siftdown lt heap 0 pos).
Proof.
  intros Hlen Hok Hch. unfold _siftdown.
  destruct (lookup_lt_is_Some_2 heap pos Hlen) as [newitem ->].
  apply _siftdown_loop_ok; auto.
Qed.

Lemma _siftup_ok heap :
  ok_except heap 0 → heap_ok (_siftup lt heap 0).
Proof.
  intros Hok. unfold _siftup. destruct (heap !! 0) as [newitem|] eqn:E.
  - destruct (_siftup_loop lt _ _ _ _ _) as [heap' pos'] eqn:Hloop.
    apply _siftup_loop_ok in Hloop as (Hlen & Hok' & Hch);
      [|by eapply lookup_lt_Some|lia|done|lia].
    apply _siftdown_ok.
    + by rewrite length_insert.
    + by apply ok_except_insert.
    + intros k c x Hc Hpc Hx.
      assert (c ≠ pos') by (pose proof (parent_lt c Hc); lia).
      rewrite list_lookup_insert_ne in Hx by done. by apply (Hch k c).
  - destruct heap; [|done]. intros i x p _ Hx. by rewrite lookup_nil in Hx.
Qed.

Lemma heappush_ok heap item : heap_ok heap → heap_ok (heappush lt heap item).
Proof.
  intros Hok. unfold heappush. rewrite length_app, Nat.add_sub.
  apply _siftdown_ok.
  - rewrite length_app. simpl. lia.
  - intros i x p Hi Hne Hpne Hx Hp.
    assert (i < length heap) as Hlt.
    { apply lookup_lt_Some in Hx. rewrite length_app in Hx. simpl in Hx. lia. }
    rewrite lookup_app_l in Hx by done.
    rewrite lookup_app_l in Hp by (pose proof (parent_lt i Hi); lia).
    by apply (Hok i).
  - intros k c x Hc Hpc Hx. apply lookup_lt_Some in Hx.
    rewrite length_app in Hx. simpl in Hx. pose proof (parent_lt c Hc). lia.
Qed.

(** In an ordered heap the first entry is a least one. *)
Lemma heap_ok_top heap m :
  heap_ok heap → heap !! 0 = Some m → ∀ x, x ∈ heap → (key m ≤ key x)%Z.
Proof.
  intros Hok Hm.
  assert (∀ n i x, i < n → heap !! i = Some x → (key m ≤ key x)%Z) as Hind.
  { induction n as [|n IH]; intros i x Hi Hx; [lia|].
    destruct (decide (i = 0)) as [->|Hne].
    - rewrite Hm in Hx. injection Hx as <-. lia.
    - assert (0 < i) as Hpos by lia. pose proof (parent_lt i Hpos) as Hp.
      destruct (lookup_lt_is_Some_2 heap (parent i)) as [p Hpl].
      { apply lookup_lt_Some in Hx. lia. }
      pose proof (Hok i x p Hpos Hx Hpl).
      assert (key m ≤ key p)%Z by (apply (IH (parent i)); [lia|done]). lia. }
  intros x [i Hi]%list_elem_of_lookup. apply (Hind (S i) i); [lia|done].
Qed.

Lemma heappop_ok heap item heap' :
  heap_ok heap → heappop lt heap = Some (item, heap') →
  heap_ok heap' ∧ ∀ x, x ∈ heap → (key item ≤ key x)%Z.
Proof.
  intros Hok. unfold heappop. destruct (last heap) as [lastelt|] eqn:Hlast; [|done].
  apply last_Some in Hlast as [front ->].
  rewrite length_app, Nat.add_sub, take_app_length.
  destruct front as [|returnitem front]; simpl.
  - intros [= <- <-]. split.
    + intros i x p _ Hx. by rewrite lookup_nil in Hx.
    + intros x ->%list_elem_of_singleton. lia.
  - intros [= <- <-]. split.
    + apply _siftup_ok. intros i x p Hi Hne Hpne Hx Hp.
      destruct i as [|i]; [lia|]. simpl in Hx.
      destruct (parent (S i)) as [|pi] eqn:Epi; [done|]. simpl in Hp.
      apply (Hok (S i) x p); [lia| |].
      * simpl. rewrite lookup_app_l; [done|by eapply lookup_lt_Some].
      * rewrite Epi. simpl. rewrite lookup_app_l; [done|by eapply lookup_lt_Some].
    + by apply heap_ok_top.
Qed.

End heapqOrder.
End heapqOrder.

(** ** The task queue hands out tasks by priority *)

Module TaskQueueOrder.
Import TaskQueue TaskQueueFacts.

(** The priority queue of a [TaskQueue] is an ordered heap. *)
Definition queue_ok (q : t) : Prop := heapqOrder.heap_ok fst (queue q).

Lemma task_lt_key (x y : qitem) : task_lt x y = bool_decide (x.1 < y.1)%Z.
Proof. done. Qed.

Lemma put_ok heap item :
  heapqOrder.heap_ok fst heap → heapqOrder.heap_ok fst (put heap item).
Proof. apply (heapqOrder.heappush_ok task_lt fst task_lt_key). Qed.

Lemma check_dependent_fold_ok cid l : ∀ q,
  queue_ok q → queue_ok (foldl (check_dependent cid) q l).
Proof.
  induction l as [|tid l IH]; intros q Hok; [done|]. simpl. apply IH.
  unfold check_dependent. destruct (tasks q !! tid) as [task|]; [|done].
  destruct (bool_decide _ && _); [|done]. by apply put_ok.
Qed.

Lemma step_queue_ok o q : queue_ok q → queue_ok (step o q).
Proof.
  intros Hok. destruct o as [new_id ty act inp p deps md|timeout|tid r|tid e|tid];
    simpl.
  - unfold queue_ok.
    destruct (add_task_fields new_id ty act inp p deps md q) as (_ & _ & _ & _ & ->).
    destruct (_can_execute q _); [by apply put_ok|done].
  - destruct (get_next_task timeout q) as [[[task|] q']| |] eqn:E; try done.
    + apply get_next_task_Some in E as (p & tid & Hpop & _).
      by apply (heapqOrder.heappop_ok task_lt fst task_lt_key _ _ _ Hok) in Hpop
        as [Hok' _].
    + unfold get_next_task in E.
      destruct (get timeout (queue q)) as [[[[p tid] heap']|]| |]; try done.
      * by destruct (alter start tid (tasks q) !! tid).
      * by injection E as <-.
  - unfold complete_task. destruct (tasks q !! tid); [|done].
    by apply check_dependent_fold_ok.
  - unfold fail_task. by destruct (tasks q !! tid).
  - unfold cancel_task. by destruct (tasks q !! tid).
Qed.

Lemma run_queue_ok ops : queue_ok (run ops init).
Proof.
  induction ops as [|o ops IH] using rev_ind.
  - by intros i x p _ Hx.
  - rewrite queue_run_snoc. by apply step_queue_ok.
Qed.

(** X1. The task [get_next_task] returns has the least priority value of
    all the entries that were queued: no queued task is more urgent. *)
Theorem next_task_is_most_urgent ops timeout task q' :
  fresh_ids ops →
  get_next_task timeout (run ops init) = Returns (Some task, q') →
  ∀ p tid, (p, tid) ∈ queue (run ops init) →
    (priority task ≤ p)%Z ∧
    ∃ other, tasks (run ops init) !! tid = Some other ∧ priority other = p.
Proof.
  intros Hfresh Hget p tid Hin.
  pose proof (run_wf ops Hfresh) as Hwf. pose proof (run_queue_ok ops) as Hok.
  apply get_next_task_Some in Hget as (p0 & tid0 & Hpop & Htasks & Htask & _).
  pose proof Hpop as Hperm%heapqFacts.heappop_perm.
  apply (heapqOrder.heappop_ok task_lt fst task_lt_key _ _ _ Hok) in Hpop
    as [_ Hmin].
  destruct (wf_queue _ Hwf p0 tid0) as (t0 & Ht0 & Hp0 & _);
    [rewrite Hperm; by left|].
  rewrite Htasks, lookup_alter_eq, Ht0 in Htask. injection Htask as <-.
  destruct (start_keeps_core t0) as (_ & -> & _). rewrite Hp0. split.
  - apply (Hmin (p, tid) Hin).
  - destruct (wf_queue _ Hwf p tid Hin) as (other & Hother & Hp & _). eauto.
Qed.

Definition mixed_tasks : list op :=
  [AddTask "low" "researcher" "research" ANone LOW None None;
   AddTask "critical" "analyst" "analyze" ANone CRITICAL None None;
   AddTask "medium" "writer" "write" ANone MEDIUM None None].

Lemma next_task_is_most_urgent_witness :
  (CRITICAL ≤ MEDIUM)%Z ∧
  ∃ other, tasks (run mixed_tasks init) !! "medium" = Some other ∧
           priority other = MEDIUM.
Proof.
  refine (next_task_is_most_urgent mixed_tasks (Some 1%Z)
            (mkTask CRITICAL "critical" "analyst" "analyze" ANone [] ∅
                    IN_PROGRESS ANone None) _ _ _ MEDIUM "medium" _).
  - apply (bool_decide_eq_true_1 (NoDup (added_ids mixed_tasks))). reflexivity.
  - vm_compute. reflexivity.
  - apply (bool_decide_eq_true_1 (_ ∈ _)). vm_compute. reflexivity.
Defined.

(** A list of integers that never goes down. *)
Fixpoint nondecreasing (l : list Z) : Prop :=
  match l with
  | [] => True
  | x :: l => (∀ y, y ∈ l → (x ≤ y)%Z) ∧ nondecreasing l
  end.

Lemma heap_drain_nondecreasing n : ∀ heap,
  heapqOrder.heap_ok fst heap → nondecreasing (heap_drain n heap).*1.
Proof.
  induction n as [|n IH]; intros heap Hok; simpl; [done|].
  destruct (heapq.heappop task_lt heap) as [[item heap']|] eqn:Hpop; [|done].
  pose proof Hpop as Hperm%heapqFacts.heappop_perm.
  apply (heapqOrder.heappop_ok task_lt fst task_lt_key _ _ _ Hok) in Hpop
    as [Hok' Hmin].
  simpl. split; [|by apply IH].
  intros y (x & -> & Hx)%list_elem_of_fmap. apply heap_drain_elem in Hx.
  apply Hmin. rewrite Hperm. by right.
Qed.

Lemma drain_priorities timeout n : ∀ q,
  wf q → nonnegative timeout →
  priority <$> drain timeout n q = (heap_drain n (queue q)).*1.
Proof.
  induction n as [|n IH]; intros q Hwf Ht; [done|]. simpl.
  destruct (heapq.heappop task_lt (queue q)) as [[[p tid] heap']|] eqn:Hpop.
  - destruct (get_next_task_pops timeout q p tid heap' Hwf Ht Hpop)
      as (task & q' & Hget & Hid & Hq').
    rewrite Hget. simpl. rewrite <- Hq'.
    rewrite IH by (by eauto using get_next_task_wf). f_equal.
    pose proof Hget as (p0 & tid0 & Hpop' & Htasks & Htask & _)%get_next_task_Some.
    rewrite Hpop in Hpop'. injection Hpop' as <- <- _.
    apply heapqFacts.heappop_perm in Hpop.
    destruct (wf_queue q Hwf p tid) as (t0 & Ht0 & Hp0 & _); [rewrite Hpop; by left|].
    rewrite Htasks, lookup_alter_eq, Ht0 in Htask. injection Htask as <-.
    by destruct (start_keeps_core t0) as (_ & -> & _).
  - apply heapqFacts.heappop_None in Hpop. unfold get_next_task, get.
    rewrite Hpop. simpl. destruct timeout as [secs|]; [|done]. by case_decide.
Qed.

(** X2. Consecutive [get_next_task] calls return tasks in order of
    priority value, most urgent first. *)
Theorem drained_by_priority ops timeout n :
  fresh_ids ops → nonnegative timeout →
  nondecreasing (priority <$> drain timeout n (run ops init)).
Proof.
  intros Hfresh Ht. rewrite drain_priorities by auto using run_wf.
  apply heap_drain_nondecreasing, run_queue_ok.
Qed.

Lemma drained_by_priority_witness :
  priority <$> drain (Some 1%Z) 3 (run mixed_tasks init) = [CRITICAL; MEDIUM; LOW] ∧
  nondecreasing [CRITICAL; MEDIUM; LOW].
Proof.
  split; [vm_compute; reflexivity|].
  refine (drained_by_priority mixed_tasks (Some 1%Z) 3 _ _).
  - apply (bool_decide_eq_true_1 (NoDup (added_ids mixed_tasks))). reflexivity.
  - simpl. lia.
Defined.

End TaskQueueOrder.

(** ** The task queue's bookkeeping *)

Module TaskQueueBooks.
Import TaskQueue TaskQueueFacts.









(** Every task [get_next_task] hands out has been started. *)
Lemma drain_status timeout n : ∀ q task,
  task ∈ drain timeout n q → status task = IN_PROGRESS.
Proof.
  induction n as [|n IH]; intros q task; simpl; [by intros ?%elem_of_nil|].
  destruct (get_next_task timeout q) as [[[task0|] q']| |] eqn:E;
    try by intros ?%elem_of_nil.
  intros [->|Hin]%elem_of_cons; [|by eapply IH].
  apply get_next_task_Some in E as (p & tid & _ & Ht & Htask & _).
  rewrite Ht, lookup_alter_eq in Htask.
  destruct (tasks q !! tid) as [t0|]; [|done]. by injection Htask as <-.
Qed.

(** X4. [cancel_task] marks a task cancelled and drops it from [pending],
    but it does not take the task off the priority queue: a task that was
    queued is still handed out by [get_next_task] afterwards, and handing
    it out starts it. *)
Theorem cancelled_task_is_still_handed_out ops timeout p tid :
  fresh_ids ops → nonnegative timeout →
  (p, tid) ∈ queue (run ops init) →
  let q' := cancel_task tid (run ops init) in
  (∃ task, tasks q' !! tid = Some task ∧ status task = CANCELLED) ∧
  (tid ∉ pending q') ∧
  ∃ task, task ∈ drain timeout (length (queue q')) q' ∧
          task_id task = tid ∧ status task = IN_PROGRESS.
Proof.
  intros Hfresh Ht Hin. cbv zeta.
  pose proof (run_wf ops Hfresh) as Hwf.
  destruct (wf_queue _ Hwf p tid Hin) as (t0 & Ht0 & _).
  assert (wf (cancel_task tid (run ops init))) as Hwf'.
  { apply (step_wf (CancelTask tid) _ I Hwf). }
  assert (queue (cancel_task tid (run ops init)) = queue (run ops init)) as Hq.
  { unfold cancel_task. by rewrite Ht0. }
  split; [|split].
  - unfold cancel_task. rewrite Ht0. simpl. rewrite lookup_alter_eq, Ht0.
    by eexists.
  - unfold cancel_task. rewrite Ht0. simpl. set_solver.
  - assert (tid ∈ task_id <$> drain timeout
                     (length (queue (cancel_task tid (run ops init))))
                     (cancel_task tid (run ops init))) as Hd.
    { rewrite drain_heap_drain by done.
      rewrite (heap_drain_perm _ _ eq_refl), Hq.
      apply list_elem_of_fmap. by exists (p, tid). }
    apply list_elem_of_fmap in Hd as (task & -> & Hd).
    exists task. split; [done|]. split; [done|]. by eapply drain_status.
Qed.

Definition one_task : list op :=
  [AddTask "a" "researcher" "research" ANone MEDIUM None None].

Lemma cancelled_task_is_still_handed_out_witness :
  let q' := cancel_task "a" (run one_task init) in
  (∃ task, tasks q' !! "a" = Some task ∧ status task = CANCELLED) ∧
  ("a" ∉ pending q') ∧
  ∃ task, task ∈ drain (Some 0%Z) (length (queue q')) q' ∧
          task_id task = "a" ∧ status task = IN_PROGRESS.
Proof.
  apply (cancelled_task_is_still_handed_out one_task (Some 0%Z) MEDIUM "a").
  - apply (bool_decide_eq_true_1 (NoDup (added_ids one_task))). reflexivity.
  - simpl. lia.
  - apply (bool_decide_eq_true_1 (_ ∈ _)). vm_compute. reflexivity.
Defined.

(** X5. A new task is handed out by the next round of [get_next_task]
    calls exactly when all its dependencies are already completed: it is
    queued at once in that case, and withheld otherwise. *)
Theorem new_task_ready_iff_dependencies_completed
    ops timeout new_id ty act inp p deps md :
  fresh_ids (ops ++ [AddTask new_id ty act inp p deps md]) →
  nonnegative timeout →
  let q' := (add_task new_id ty act inp p deps md (run ops init)).2 in
  new_id ∈ task_id <$> drain timeout (length (queue q')) q' ↔
  ∀ d, d ∈ default [] deps → d ∈ completed (run ops init).
Proof.
  intros Hfresh Ht. cbv zeta.
  pose proof (run_wf _ Hfresh) as Hwf'. rewrite queue_run_snoc in Hwf'.
  simpl in Hwf'.
  unfold fresh_ids in Hfresh. rewrite added_ids_snoc in Hfresh.
  apply NoDup_app in Hfresh as (Hnd & Hdisj & _).
  pose proof (run_wf _ Hnd) as Hwf.
  rewrite drain_heap_drain by done. rewrite (heap_drain_perm _ _ eq_refl).
  destruct (add_task_fields new_id ty act inp p deps md (run ops init))
    as (_ & _ & _ & _ & ->).
  match goal with |- context [_can_execute _ ?t] => set (task := t) end.
  assert (∀ p', (p', new_id) ∉ queue (run ops init)) as Hnotin.
  { intros p' Hin. destruct (wf_queue _ Hwf p' new_id Hin) as (t0 & Ht0 & _).
    apply (Hdisj new_id); [|by left]. apply run_tasks_dom. eauto. }
  pose proof (_can_execute_true (run ops init) task) as Hcan.
  change (dependencies task) with (default [] deps) in Hcan. rewrite <- Hcan.
  clear Hcan. destruct (_can_execute (run ops init) task).
  - split; [done|]. intros _. apply list_elem_of_fmap. exists (p, new_id).
    split; [done|]. apply put_elem. by left.
  - split; [|done]. intros ([p' tid] & Heq & Hin)%list_elem_of_fmap.
    simpl in Heq. subst tid. by apply Hnotin in Hin.
Qed.

Lemma new_task_ready_iff_dependencies_completed_witness :
  let q' := (add_task "b" "analyst" "analyze" ANone MEDIUM (Some ["a"]) None
                      (run one_task init)).2 in
  "b" ∈ task_id <$> drain (Some 0%Z) (length (queue q')) q' ↔
  ∀ d, d ∈ ["a"] → d ∈ completed (run one_task init).
Proof.
  apply (new_task_ready_iff_dependencies_completed one_task (Some 0%Z)
           "b" "analyst" "analyze" ANone MEDIUM (Some ["a"]) None).
  - apply (bool_decide_eq_true_1 (NoDup _)). reflexivity.
  - simpl. lia.
Defined.

End TaskQueueBooks.

(** ** The dependency graph stays acyclic and consistent *)

Module DependencyGraphOrder.
Import DependencyGraph DependencyGraphFacts.

(** X6. [_would_create_cycle(from, to)] is a search that decides
    reachability, on any graph whatever: it answers [True] exactly when
    [to] can reach [from] through dependency edges (in no step or more). *)
Theorem would_create_cycle_decides_reachability g from_node to_node :
  _would_create_cycle g from_node to_node = true ↔ reaches g to_node from_node.
Proof.
  unfold _would_create_cycle. split.
  - apply loop_sound. intros x ->%list_elem_of_singleton. apply rtc_refl.
  - intros Hreach. apply (loop_complete g from_node _ ∅ [to_node] (graph g)).
    + done.
    + simpl. lia.
    + exists to_node. split; [by left|]. by apply reaches_avoids.
Qed.

Lemma rank_tc g (rank : string → nat) :
  (∀ x d, depends g x d → rank d < rank x) →
  ∀ x y, tc (depends g) x y → rank y < rank x.
Proof.
  intros Hrank x y Htc. induction Htc as [x y Hd|x y z Hd _ IH].
  - by apply Hrank.
  - pose proof (Hrank x y Hd). lia.
Qed.

(** X7. No sequence of [add_node], [add_dependency] (raising or not) and
    [remove_dependency] calls builds a cycle: no node can reach itself
    through one dependency edge or more. *)
Theorem graph_stays_acyclic ops x : ¬ tc (depends (run ops init)) x x.
Proof.
  intros Htc. destruct (wfg_rank _ (run_wfg ops)) as [rank Hrank].
  pose proof (rank_tc _ rank Hrank x x Htc). lia.
Qed.

(** X8. The two indexes agree on every graph built through the methods:
    [d] is in [get_dependencies(x)] exactly when [x] is in
    [get_dependents(d)], and both ends of a dependency are nodes. *)
Theorem dependents_mirror_dependencies ops x d :
  let g := run ops init in
  (d ∈ get_dependencies x g ↔ x ∈ get_dependents d g) ∧
  (d ∈ get_dependencies x g → x ∈ nodes g ∧ d ∈ nodes g).
Proof.
  cbv zeta. pose proof (run_wfg ops) as Hwf. split.
  - apply (wfg_reverse _ Hwf x d).
  - apply (wfg_nodes _ Hwf x d).
Qed.

(** X9. An [add_dependency] that closes no cycle raises nothing and
    records the one edge in both indexes: the dependencies of [node] gain
    [dependsOn], the dependents of [dependsOn] gain [node], nothing else
    changes, and both identifiers are nodes afterwards. *)
Theorem accepted_dependency_is_recorded node_id depends_on g :
  ¬ reaches g depends_on node_id →
  let g' := (add_dependency node_id depends_on g).1 in
  (add_dependency node_id depends_on g).2 = None ∧
  nodes g' = {[depends_on]} ∪ ({[node_id]} ∪ nodes g) ∧
  (∀ x, get_dependencies x g'
        = if decide (x = node_id) then {[depends_on]} ∪ get_dependencies x g
          else get_dependencies x g) ∧
  (∀ d, get_dependents d g'
        = if decide (d = depends_on) then {[node_id]} ∪ get_dependents d g
          else get_dependents d g).
Proof.
  intros Hno. cbv zeta.
  destruct (add_dependency_cases node_id depends_on g)
    as [[Hr _]|(_ & g2 & -> & Hn & _ & _ & Hd & Hr)]; [done|].
  simpl. split; [done|]. split; [done|]. split.
  - intros x. apply leibniz_equiv. intros d. unfold get_dependencies.
    specialize (Hd x d). unfold depends in Hd. rewrite Hd.
    case_decide; set_solver.
  - intros d. apply leibniz_equiv. intros x. unfold get_dependents.
    rewrite (Hr x d). case_decide; set_solver.
Qed.

Lemma not_reaches_by_search g from_node to_node :
  _would_create_cycle g from_node to_node = false → ¬ reaches g to_node from_node.
Proof.
  intros Hf Hr. assert (_would_create_cycle g from_node to_node = true) as Ht.
  { unfold _would_create_cycle.
    apply (loop_complete g from_node _ ∅ [to_node] (graph g)); [done|simpl; lia|].
    exists to_node. split; [by left|]. by apply reaches_avoids. }
  congruence.
Qed.

Definition pipeline : list op :=
  [AddDependency "report" "analysis"; AddDependency "analysis" "research"].

Lemma accepted_dependency_is_recorded_witness :
  let g := run pipeline init in
  let g' := (add_dependency "summary" "research" g).1 in
  (add_dependency "summary" "research" g).2 = None ∧
  nodes g' = {[ "research" ]} ∪ ({[ "summary" ]} ∪ nodes g) ∧
  (∀ x, get_dependencies x g'
        = if decide (x = "summary") then {[ "research" ]} ∪ get_dependencies x g
          else get_dependencies x g) ∧
  (∀ d, get_dependents d g'
        = if decide (d = "research") then {[ "summary" ]} ∪ get_dependents d g
          else get_dependents d g).
Proof.
  apply (accepted_dependency_is_recorded "summary" "research" (run pipeline init)).
  apply not_reaches_by_search. vm_compute. reflexivity.
Defined.

(** X10. Round trip: adding a dependency that was not there and removing
    it again leaves both indexes as they were, whether or not the
    addition was rejected; only the node set keeps the two identifiers. *)
Theorem remove_undoes_add ops node_id depends_on :
  let g := run ops init in
  depends_on ∉ get_dependencies node_id g →
  let g'' := remove_dependency node_id depends_on
               (add_dependency node_id depends_on g).1 in
  (∀ x, get_dependencies x g'' = get_dependencies x g) ∧
  (∀ x, get_dependents x g'' = get_dependents x g) ∧
  nodes g'' = {[depends_on]} ∪ ({[node_id]} ∪ nodes g).
Proof.
  cbv zeta. intros Hnew. pose proof (run_wfg ops) as Hwf.
  set (g := run ops init) in *.
  assert (node_id ∉ get_dependents depends_on g) as Hnew'.
  { intros Hin. apply Hnew. by apply (wfg_reverse g Hwf node_id depends_on). }
  unfold get_dependencies, get_dependents in *.
  assert (∀ k : string, (λ s : gset string, s ∖ {[k]}) ∅ = ∅) as Hf
    by (intros k; apply leibniz_equiv; set_solver).
  destruct (add_dependency_cases node_id depends_on g)
    as [[_ ->]|(_ & g2 & -> & Hn & _ & _ & Hd & Hr)]; simpl.
  - split; [|split; [|done]]; intros x; rewrite getset_alter by apply Hf;
      rewrite !getset_ensure_key; case_decide; try done; subst x;
      apply leibniz_equiv; set_solver.
  - split; [|split; [|done]]; intros x; rewrite getset_alter by apply Hf;
      case_decide as Hx; apply leibniz_equiv; intros y.
    + subst x. specialize (Hd node_id y). unfold depends in Hd.
      rewrite elem_of_difference, Hd, elem_of_singleton. split; [|intros Hy].
      * intros [[?|[_ ->]] ?]; done.
      * split; [by left|]. by intros ->.
    + specialize (Hd x y). unfold depends in Hd. rewrite Hd.
      split; [|by left]. intros [?|[-> _]]; done.
    + subst x. rewrite elem_of_difference, (Hr y depends_on), elem_of_singleton.
      split; [|intros Hy].
      * intros [[?|[-> _]] ?]; done.
      * split; [by left|]. by intros ->.
    + rewrite (Hr y x). split; [|by left]. intros [?|[_ ->]]; done.
Qed.

Lemma remove_undoes_add_witness :
  let g := run pipeline init in
  let g'' := remove_dependency "summary" "research"
               (add_dependency "summary" "research" g).1 in
  (∀ x, get_dependencies x g'' = get_dependencies x g) ∧
  (∀ x, get_dependents x g'' = get_dependents x g) ∧
  nodes g'' = {[ "research" ]} ∪ ({[ "summary" ]} ∪ nodes g).
Proof.
  apply (remove_undoes_add pipeline "summary" "research").
  apply (bool_decide_eq_false_1 (_ ∈ _)). vm_compute. reflexivity.
Defined.

(** Among the nodes still to run there is one whose dependencies have all
    been run: one of least rank. *)
Lemma ready_exists g (completed remaining : gset string) :
  wfg g → remaining ≠ ∅ → remaining ⊆ nodes g →
  nodes g ∖ remaining ⊆ completed →
  ∃ x, x ∈ remaining ∧ can_execute x completed g = true.
Proof.
  intros Hwf Hne Hsub Hdone. destruct (wfg_rank g Hwf) as [rank Hrank].
  assert (∀ n x, rank x < n → x ∈ remaining →
                 ∃ y, y ∈ remaining ∧ can_execute y completed g = true) as Hind.
  { induction n as [|n IH]; intros x Hlt Hx; [lia|].
    destruct (can_execute x completed g) eqn:Hcan; [by eauto|].
    unfold can_execute in Hcan. apply bool_decide_eq_false in Hcan.
    assert (∃ d, d ∈ getset (graph g) x ∧ d ∉ completed) as (d & Hd & Hdn).
    { destruct (not_set_Forall_Exists (λ d, d ∈ completed) _ Hcan)
        as (d & Hd & Hdn). by exists d. }
    apply (IH d).
    - pose proof (Hrank x d Hd). lia.
    - destruct (wfg_nodes g Hwf x d Hd) as [_ Hdnode].
      destruct (decide (d ∈ remaining)) as [|Hnr]; [done|].
      destruct Hdn. apply Hdone. set_solver. }
  apply set_choose_L in Hne as [x Hx]. apply (Hind (S (rank x)) x); [lia|done].
Qed.

(** X11. No deadlock in the graph: on a graph built through the methods,
    as long as some node is not completed [get_ready_nodes] returns at
    least one node, whatever the set of completed identifiers; and the
    nodes it returns are exactly the uncompleted nodes whose dependencies
    are all completed. *)
Theorem ready_nodes_exist ops (completed : gset string) x :
  let g := run ops init in
  x ∈ nodes g → x ∉ completed →
  get_ready_nodes completed g ≠ [] ∧
  ∀ y, y ∈ get_ready_nodes completed g ↔
       y ∈ nodes g ∧ (y ∉ completed) ∧ get_dependencies y g ⊆ completed.
Proof.
  cbv zeta. intros Hx Hxc. pose proof (run_wfg ops) as Hwf.
  set (g := run ops init) in *.
  assert (∀ y, y ∈ get_ready_nodes completed g ↔
               y ∈ nodes g ∧ (y ∉ completed) ∧ get_dependencies y g ⊆ completed)
    as Hchar.
  { intros y. unfold get_ready_nodes, can_execute, get_dependencies.
    rewrite list_elem_of_filter, elem_of_elements, bool_decide_eq_true.
    naive_solver. }
  split; [|done].
  destruct (ready_exists g completed (nodes g ∖ completed) Hwf)
    as (y & Hy & Hcan); [set_solver|set_solver| |].
  { intros z [Hz Hnz]%elem_of_difference.
    destruct (decide (z ∈ completed)); [done|]. destruct Hnz. set_solver. }
  intros Hnil. assert (y ∈ get_ready_nodes completed g) as Hin.
  { apply Hchar. unfold can_execute in Hcan. apply bool_decide_eq_true in Hcan.
    set_solver. }
  rewrite Hnil in Hin. by apply elem_of_nil in Hin.
Qed.

Lemma ready_nodes_exist_witness :
  let g := run pipeline init in
  get_ready_nodes {[ "research" ]} g ≠ [] ∧
  ∀ y, y ∈ get_ready_nodes {[ "research" ]} g ↔
       y ∈ nodes g ∧ (y ∉ ({[ "research" ]} : gset string)) ∧
       get_dependencies y g ⊆ {[ "research" ]}.
Proof.
  apply (ready_nodes_exist pipeline {[ "research" ]} "report").
  - apply (bool_decide_eq_true_1 (_ ∈ _)). vm_compute. reflexivity.
  - apply (bool_decide_eq_false_1 (_ ∈ _)). vm_compute. reflexivity.
Defined.

(** The layers so far: every dependency of a node of a layer is in an
    earlier layer. *)
Definition layered (g : t) (layers : list (list string)) : Prop :=
  ∀ i layer x d, layers !! i = Some layer → x ∈ layer → depends g x d →
    ∃ j layer', j < i ∧ layers !! j = Some layer' ∧ d ∈ layer'.

Lemma elem_of_concat (x : string) (ls : list (list string)) :
  x ∈ concat ls ↔ ∃ i l, ls !! i = Some l ∧ x ∈ l.
Proof.
  induction ls as [|l ls IH]; simpl.
  - split; [by intros ?%elem_of_nil|]. by intros (i & l & Hl & _).
  - rewrite elem_of_app, IH. split.
    + intros [Hx|(i & l' & Hl & Hx)]; [by exists 0, l|by exists (S i), l'].
    + intros ([|i] & l' & Hl & Hx); simpl in Hl.
      * injection Hl as ->. by left.
      * right. eauto.
Qed.

Lemma get_execution_layers_loop_spec g :
  wfg g → ∀ fuel layers completed remaining,
  completed = list_to_set (concat layers) →
  remaining = nodes g ∖ completed →
  completed ⊆ nodes g →
  NoDup (concat layers) → layered g layers →
  Forall (λ layer, layer ≠ []) layers →
  size remaining ≤ fuel →
  ∃ layers',
    get_execution_layers_loop fuel g layers completed remaining
    = Some (Returns layers') ∧
    NoDup (concat layers') ∧ (∀ x, x ∈ concat layers' ↔ x ∈ nodes g) ∧
    layered g layers' ∧ Forall (λ layer, layer ≠ []) layers'.
Proof.
  intros Hwf.
  assert (∀ layers completed remaining,
            completed = list_to_set (concat layers) →
            remaining = nodes g ∖ completed → completed ⊆ nodes g →
            remaining = ∅ → ∀ x, x ∈ concat layers ↔ x ∈ nodes g) as Hdone.
  { intros layers completed remaining Hc Hr Hsub Hempty x.
    rewrite <- (elem_of_list_to_set (C := gset string)), <- Hc.
    split; [by apply Hsub|]. intros Hx.
    destruct (decide (x ∈ completed)) as [|Hn]; [done|].
    assert (x ∈ remaining) as Hxr by (rewrite Hr; by apply elem_of_difference).
    rewrite Hempty in Hxr. by apply not_elem_of_empty in Hxr. }
  induction fuel as [|fuel IH];
    intros layers completed remaining Hc Hr Hsub Hnd Hlay Hne Hfuel.
  - assert (remaining = ∅) as Hempty by (apply leibniz_equiv, size_empty_inv; lia).
    cbn [get_execution_layers_loop]. rewrite decide_True by done. exists layers.
    split; [done|]. split; [done|]. split; [|done]. by eapply Hdone.
  - cbn [get_execution_layers_loop]. case_decide as Hempty.
    { exists layers. split; [done|]. split; [done|]. split; [|done].
      by eapply Hdone. }
    set (ready := filter (λ node, can_execute node completed g = true)
                         (elements remaining)).
    assert (∀ x, x ∈ ready ↔ x ∈ remaining ∧ can_execute x completed g = true)
      as Hready.
    { intros x. unfold ready. rewrite list_elem_of_filter, elem_of_elements.
      split; intros []; done. }
    assert (remaining ⊆ nodes g) as Hrn.
    { intros x. rewrite Hr. by intros [? _]%elem_of_difference. }
    assert (nodes g ∖ remaining ⊆ completed) as Hrc.
    { intros x [Hx Hnx]%elem_of_difference.
      destruct (decide (x ∈ completed)) as [|Hn]; [done|].
      destruct Hnx. rewrite Hr. by apply elem_of_difference. }
    destruct (ready_exists g completed remaining Hwf Hempty Hrn Hrc)
      as (y & Hy & Hcan).
    assert (y ∈ ready) as Hyr by (by apply Hready).
    assert (ready ≠ []) as Hrne.
    { intros Hnil. rewrite Hnil in Hyr. by apply elem_of_nil in Hyr. }
    assert (concat (layers ++ [ready]) = concat layers ++ ready) as Hcat.
    { rewrite concat_app. simpl. by rewrite app_nil_r. }
    assert (get_execution_layers_loop fuel g (layers ++ [ready])
              (completed ∪ list_to_set ready) (remaining ∖ list_to_set ready)
            = match ready with
              | [] => Some (Raises CircularDependencyError)
              | _ :: _ =>
                  get_execution_layers_loop fuel g (layers ++ [ready])
                    (completed ∪ list_to_set ready)
                    (remaining ∖ list_to_set ready)
              end) as <- by (by destruct ready).
    apply IH.
    + rewrite Hcat, list_to_set_app_L. by rewrite Hc.
    + apply leibniz_equiv. intros x.
      rewrite !elem_of_difference, elem_of_union, elem_of_list_to_set, Hr,
        elem_of_difference.
      split; [intros [[? ?] ?]|intros [? ?]]; tauto.
    + intros x [Hx|Hx%elem_of_list_to_set]%elem_of_union; [by apply Hsub|].
      apply Hready in Hx as [Hx _]. by apply Hrn.
    + rewrite Hcat. apply NoDup_app. split; [done|]. split.
      * intros x Hx Hxr. apply Hready in Hxr as [Hxr _].
        assert (x ∈ completed) by (rewrite Hc; by apply elem_of_list_to_set).
        rewrite Hr in Hxr. by apply elem_of_difference in Hxr as [_ ?].
      * apply NoDup_filter, NoDup_elements.
    + intros i layer x d Hi Hx Hd.
      destruct (decide (i < length layers)) as [Hlt|Hge].
      * rewrite lookup_app_l in Hi by done.
        destruct (Hlay i layer x d Hi Hx Hd) as (j & layer' & Hj & Hl & Hdl).
        exists j, layer'. split; [done|]. split; [|done].
        rewrite lookup_app_l by lia. done.
      * assert (i = length layers) as ->.
        { apply lookup_lt_Some in Hi. rewrite length_app in Hi. simpl in Hi. lia. }
        rewrite lookup_app_r, Nat.sub_diag in Hi by lia. injection Hi as <-.
        apply Hready in Hx as [_ Hcx]. unfold can_execute in Hcx.
        apply bool_decide_eq_true in Hcx.
        assert (d ∈ completed) as Hdc by (by apply Hcx).
        rewrite Hc in Hdc. apply elem_of_list_to_set, elem_of_concat in Hdc
          as (j & layer' & Hj & Hdl).
        pose proof (lookup_lt_Some _ _ _ Hj) as Hjlt.
        exists j, layer'. split; [done|].
        split; [|done]. by rewrite lookup_app_l.
    + apply Forall_app. split; [done|]. apply Forall_cons_2; [done|].
      apply Forall_nil_2.
    + assert (remaining ∖ list_to_set ready ⊂ remaining) as Hlt.
      { split.
        - intros x. by intros [? _]%elem_of_difference.
        - intros Hsup. specialize (Hsup y Hy).
          apply elem_of_difference in Hsup as [_ Hn]. apply Hn.
          by apply elem_of_list_to_set. }
      apply subset_size in Hlt. lia.
Qed.

(** X12. On a graph built through the methods, [get_execution_layers]
    returns (no [CircularDependencyError]); its layers are not empty,
    together they hold every node exactly once, and every dependency of a
    node is in a strictly earlier layer than the node. *)
Theorem execution_layers_respect_dependencies ops :
  ∃ layers,
    get_execution_layers (run ops init) = Some (Returns layers) ∧
    concat layers ≡ₚ elements (nodes (run ops init)) ∧
    Forall (λ layer, layer ≠ []) layers ∧
    ∀ i layer x d, layers !! i = Some layer → x ∈ layer →
      d ∈ get_dependencies x (run ops init) →
      ∃ j layer', j < i ∧ layers !! j = Some layer' ∧ d ∈ layer'.
Proof.
  pose proof (run_wfg ops) as Hwf. set (g := run ops init) in *.
  destruct (get_execution_layers_loop_spec g Hwf (size (nodes g)) [] ∅ (nodes g))
    as (layers & Hrun & Hnd & Hall & Hlay & Hne); try done.
  - apply leibniz_equiv. intros x. rewrite elem_of_difference.
    split; [intros Hx; split; [done|apply not_elem_of_empty]|by intros [? _]].
  - apply NoDup_nil_2.
  - exists layers. split; [exact Hrun|]. split; [|by split].
    apply NoDup_Permutation; [done|apply NoDup_elements|].
    intros x. by rewrite elem_of_elements.
Qed.

(** X13. [has_cycle] returns [False] on every graph built through the
    methods. *)
Theorem has_cycle_is_false ops : has_cycle (run ops init) = Some (Returns false).
Proof.
  pose proof (run_wfg ops) as Hwf. set (g := run ops init) in *.
  destruct (kahn_loop g Hwf (size (nodes g)) _ _ [] (kahn_init g Hwf))
    as (order & in_degree & Hsort & _); [simpl; lia|].
  unfold has_cycle, topological_sort. by rewrite Hsort.
Qed.

End DependencyGraphOrder.

(** ** The registry's indexes and the choice of an agent *)

Module AgentRegistryIndex.
Import AgentRegistry AgentRegistryFacts.

Lemma available_status a :
  available a = true ↔ status a = "idle" ∨ status a = "busy".
Proof.
  unfold available. rewrite orb_true_iff, !bool_decide_eq_true. done.
Qed.

(** X14. [find_available_agent] restricted to a type picks, among the
    agents [find_by_type] lists, one that is idle or busy (never an
    offline one) and has the least workload of the idle or busy ones; it
    returns [None] exactly when none of them is idle or busy. *)
Theorem available_agent_is_least_loaded ty capability r l :
  ty ≠ EmptyString →
  find_by_type ty r = Returns l →
  match find_available_agent (Some ty) capability r with
  | Returns (Some a) =>
      a ∈ l ∧ (status a = "idle" ∨ status a = "busy") ∧
      ∀ b, b ∈ l → status b = "idle" ∨ status b = "busy" →
           (workload a ≤ workload b)%Z
  | Returns None => ∀ b, b ∈ l → ¬ (status b = "idle" ∨ status b = "busy")
  | _ => False
  end.
Proof.
  intros Hty Hfind. unfold find_available_agent. simpl.
  rewrite decide_False by done. rewrite Hfind.
  destruct (filter (λ a, available a = true) l) as [|a0 rest] eqn:Ef.
  - intros b Hb Hav. apply available_status in Hav.
    assert (b ∈ filter (λ a, available a = true) l) as Hin
      by (by apply list_elem_of_filter).
    rewrite Ef in Hin. by apply elem_of_nil in Hin.
  - destruct (min_by_spec workload rest a0) as [Hin Hmin].
    rewrite <- Ef in Hin, Hmin.
    apply list_elem_of_filter in Hin as [Hav Hin]. split; [done|].
    split; [by apply available_status|].
    intros b Hb Hbav. apply Hmin. apply list_elem_of_filter.
    split; [by apply available_status|done].
Qed.

Definition three_agents : list op :=
  [Register "a1" "researcher" "R1" ["search"];
   Register "a2" "researcher" "R2" ["search"];
   Register "a3" "researcher" "R3" [];
   Increment "a1"; Increment "a1"; Increment "a2";
   UpdateStatus "a3" "offline"].

Lemma available_agent_is_least_loaded_witness :
  ∃ l, find_by_type "researcher" (run three_agents init) = Returns l ∧
  match find_available_agent (Some "researcher") None (run three_agents init) with
  | Returns (Some a) =>
      a ∈ l ∧ (status a = "idle" ∨ status a = "busy") ∧
      ∀ b, b ∈ l → status b = "idle" ∨ status b = "busy" →
           (workload a ≤ workload b)%Z
  | Returns None => ∀ b, b ∈ l → ¬ (status b = "idle" ∨ status b = "busy")
  | _ => False
  end.
Proof.
  destruct (find_by_type "researcher" (run three_agents init)) as [l| |] eqn:E;
    [|by vm_compute in E|by vm_compute in E].
  exists l. split; [done|].
  apply (available_agent_is_least_loaded "researcher" None _ l); [done|exact E].
Defined.

(** A registry in which no identifier is registered while it still has a
    record. *)
Fixpoint fresh_registrations (ops : list op) (r : t) : Prop :=
  match ops with
  | [] => True
  | o :: ops =>
      match o with
      | Register aid _ _ _ => agents r !! aid = None
      | _ => True
      end ∧ fresh_registrations ops (step o r)
  end.

(** The indexes hold the identifiers of the records, no more and no less. *)
Record exact (r : t) : Prop := mkExact {
  exact_id : ∀ aid a, agents r !! aid = Some a → agent_id a = aid;
  exact_type : ∀ aid ty,
    aid ∈ getidx (agents_by_type r) ty ↔
    ∃ a, agents r !! aid = Some a ∧ agent_type a = ty;
  exact_cap : ∀ aid c,
    aid ∈ getidx (agents_by_capability r) c ↔
    ∃ a, agents r !! aid = Some a ∧ c ∈ capabilities a
}.

Lemma getidx_discard_all_eq caps : ∀ index aid k,
  getidx (foldl (λ index c, index_discard c aid index) index caps) k
  = if decide (k ∈ caps) then getidx index k ∖ {[aid]} else getidx index k.
Proof.
  induction caps as [|c caps IH]; intros index aid k; simpl.
  - done.
  - rewrite IH, getidx_index_discard.
    destruct (decide (k ∈ caps)) as [Hin|Hin], (decide (c = k)) as [->|Hne].
    + rewrite decide_True by (by left). apply leibniz_equiv. intros x.
      rewrite !elem_of_difference. tauto.
    + rewrite decide_True by (by right). done.
    + rewrite decide_True by (by left). done.
    + rewrite decide_False; [done|].
      intros [->|?]%elem_of_cons; [done|done].
Qed.

Lemma exact_alter (f : AgentInfo → AgentInfo) id r :
  (∀ a, agent_id (f a) = agent_id a ∧ agent_type (f a) = agent_type a ∧
        capabilities (f a) = capabilities a) →
  exact r →
  exact (mkRegistry (alter f id (agents r)) (agents_by_type r)
                    (agents_by_capability r) (agent_order r)).
Proof.
  intros Hf [Hid Hty Hcap].
  assert (∀ aid (P : AgentInfo → Prop),
            (∀ a, P (f a) ↔ P a) →
            (∃ a, alter f id (agents r) !! aid = Some a ∧ P a) ↔
            (∃ a, agents r !! aid = Some a ∧ P a)) as Halter.
  { intros aid P HP. destruct (decide (id = aid)) as [->|Hne].
    - rewrite lookup_alter_eq. destruct (agents r !! aid) as [a0|]; simpl.
      + split; intros (a & [= <-] & Ha); eexists; (split; [done|]); by apply HP.
      + split; intros (a & ? & _); done.
    - by rewrite lookup_alter_ne. }
  split; simpl.
  - intros aid a. destruct (decide (id = aid)) as [->|Hne].
    + rewrite lookup_alter_eq. destruct (agents r !! aid) as [a0|] eqn:E; [|done].
      simpl. intros [= <-]. destruct (Hf a0) as (-> & _). by apply Hid.
    + rewrite lookup_alter_ne by done. apply Hid.
  - intros aid ty. rewrite Hty. symmetry. apply Halter.
    intros a. by destruct (Hf a) as (_ & -> & _).
  - intros aid c. rewrite Hcap. symmetry. apply (Halter aid (λ a, c ∈ capabilities a)).
    intros a. by destruct (Hf a) as (_ & _ & ->).
Qed.

Lemma exact_register aid ty n caps r :
  agents r !! aid = None → exact r → exact (register aid ty n caps r).2.
Proof.
  intros Hnew [Hid Hty Hcap]. split; simpl.
  - intros aid' a. destruct (decide (aid = aid')) as [->|Hne].
    + rewrite lookup_insert_eq. by intros [= <-].
    + rewrite lookup_insert_ne by done. apply Hid.
  - intros aid' ty'. rewrite getidx_index_add.
    destruct (decide (aid = aid')) as [->|Hne].
    + rewrite lookup_insert_eq. destruct (decide (ty = ty')) as [->|Hty'].
      * rewrite elem_of_union, elem_of_singleton. split; [|by left]. eauto.
      * rewrite Hty, Hnew. split; [by intros (a & ? & _)|].
        intros (a & [= <-] & Ha). done.
    + rewrite lookup_insert_ne by done. destruct (decide (ty = ty')) as [->|Hty'].
      * rewrite elem_of_union, elem_of_singleton, Hty. split; [|by right].
        intros [->|?]; done.
      * apply Hty.
  - intros aid' c. rewrite getidx_add_all.
    destruct (decide (aid = aid')) as [->|Hne].
    + rewrite lookup_insert_eq. destruct (decide (c ∈ caps)) as [Hc|Hc].
      * rewrite elem_of_union, elem_of_singleton. split; [|by left]. eauto.
      * rewrite Hcap, Hnew. split; [by intros (a & ? & _)|].
        intros (a & [= <-] & Ha). done.
    + rewrite lookup_insert_ne by done. destruct (decide (c ∈ caps)) as [Hc|Hc].
      * rewrite elem_of_union, elem_of_singleton, Hcap. split; [|by right].
        intros [->|?]; done.
      * apply Hcap.
Qed.

Lemma exact_unregister aid r : exact r → exact (unregister aid r).
Proof.
  intros [Hid Hty Hcap]. unfold unregister.
  destruct (agents r !! aid) as [a0|] eqn:E; [|done]. split; simpl.
  - intros aid' a. destruct (decide (aid = aid')) as [->|Hne].
    + by rewrite lookup_delete_eq.
    + rewrite lookup_delete_ne by done. apply Hid.
  - intros aid' ty'. rewrite getidx_index_discard.
    destruct (decide (aid = aid')) as [->|Hne].
    + rewrite lookup_delete_eq. split; [|by intros (a & ? & _)].
      case_decide as Hc.
      * rewrite elem_of_difference, elem_of_singleton. by intros [_ []].
      * rewrite Hty, E. intros (a & [= <-] & Ha). done.
    + rewrite lookup_delete_ne by done. case_decide as Hc.
      * subst ty'. rewrite elem_of_difference, elem_of_singleton, Hty.
        split; [by intros [? _]|]. intros H. split; [done|]. by intros ->.
      * apply Hty.
  - intros aid' c. rewrite getidx_discard_all_eq.
    destruct (decide (aid = aid')) as [->|Hne].
    + rewrite lookup_delete_eq. split; [|by intros (a & ? & _)].
      case_decide as Hc.
      * rewrite elem_of_difference, elem_of_singleton. by intros [_ []].
      * rewrite Hcap, E. intros (a & [= <-] & Ha). done.
    + rewrite lookup_delete_ne by done. case_decide as Hc.
      * rewrite elem_of_difference, elem_of_singleton, Hcap.
        split; [by intros [? _]|]. intros H. split; [done|]. by intros ->.
      * apply Hcap.
Qed.

Lemma exact_step o r :
  match o with
  | Register aid _ _ _ => agents r !! aid = None
  | _ => True
  end →
  exact r → exact (step o r).
Proof.
  intros Hnew Hex. destruct o as [aid ty n caps|aid|aid s|aid|aid|aid success]; simpl.
  - by apply exact_register.
  - by apply exact_unregister.
  - by apply exact_alter.
  - by apply exact_alter.
  - by apply exact_alter.
  - apply exact_alter; [|done]. by destruct success.
Qed.

Lemma exact_run ops : ∀ r,
  exact r → fresh_registrations ops r → exact (run ops r).
Proof.
  induction ops as [|o ops IH]; intros r Hex Hfresh; [done|].
  destruct Hfresh as [Hnew Hfresh]. simpl. apply IH; [|done].
  by apply exact_step.
Qed.

Lemma exact_init : exact init.
Proof.
  split.
  - intros aid a. simpl. by rewrite lookup_empty.
  - intros aid ty. unfold getidx. simpl. rewrite !lookup_empty. simpl.
    split; [by intros ?%not_elem_of_empty|]. by intros (a & ? & _).
  - intros aid c. unfold getidx. simpl. rewrite !lookup_empty. simpl.
    split; [by intros ?%not_elem_of_empty|]. by intros (a & ? & _).
Qed.

(** X15. When no identifier is registered again while it is registered,
    the indexes are exact: [find_by_type] and [find_by_capability] never
    raise, and they list, without repetition, exactly the stored records
    of that type, or with that capability. *)
Theorem lookups_list_the_registered_agents ops key :
  fresh_registrations ops init →
  let r := run ops init in
  (∃ l, find_by_type key r = Returns l ∧ NoDup l ∧
        ∀ a, a ∈ l ↔ agents r !! agent_id a = Some a ∧ agent_type a = key) ∧
  (∃ l, find_by_capability key r = Returns l ∧ NoDup l ∧
        ∀ a, a ∈ l ↔ agents r !! agent_id a = Some a ∧ key ∈ capabilities a).
Proof.
  intros Hfresh. cbv zeta.
  destruct (exact_run ops init exact_init Hfresh) as [Hid Hty Hcap].
  set (r := run ops init) in *.
  assert (∀ (ids : gset string) (P : AgentInfo → Prop),
            (∀ aid, aid ∈ ids ↔ ∃ a, agents r !! aid = Some a ∧ P a) →
            ∃ l, lookup_all r ids = Returns l ∧ NoDup l ∧
                 ∀ a, a ∈ l ↔ agents r !! agent_id a = Some a ∧ P a) as Hlist.
  { intros ids P Hids.
    destruct (lookup_all_returns r ids) as [l Hl].
    { intros aid (a & Ha & _)%Hids. eauto. }
    exists l. split; [done|]. split.
    - unfold lookup_all in Hl. destruct (mapM _ _) as [k|] eqn:E; [|done].
      injection Hl as ->. apply mapM_Some_1 in E.
      apply NoDup_alt. intros i j a Hi Hj.
      destruct (Forall2_lookup_r _ _ _ _ _ E Hi) as (aid1 & Ha1 & Hf1).
      destruct (Forall2_lookup_r _ _ _ _ _ E Hj) as (aid2 & Ha2 & Hf2).
      apply Hid in Hf1, Hf2. subst aid1 aid2.
      by apply (NoDup_lookup _ _ _ _ (NoDup_elements ids) Ha1 Ha2).
    - intros a. split.
      + intros Hin. destruct (lookup_all_inv r ids l a Hl Hin) as (aid & Haid & Ha).
        pose proof (Hid aid a Ha) as <-. split; [done|].
        apply Hids in Haid as (a' & Ha' & HP). congruence.
      + intros [Ha HP]. apply (lookup_all_elem r ids l (agent_id a) a Hl); [|done].
        apply Hids. eauto. }
  split.
  - apply (Hlist _ (λ a, agent_type a = key)). intros aid. apply Hty.
  - apply (Hlist _ (λ a, key ∈ capabilities a)). intros aid. apply Hcap.
Qed.

Lemma lookups_list_the_registered_agents_witness :
  let r := run three_agents init in
  (∃ l, find_by_type "researcher" r = Returns l ∧ NoDup l ∧
        ∀ a, a ∈ l ↔ agents r !! agent_id a = Some a ∧ agent_type a = "researcher") ∧
  (∃ l, find_by_capability "researcher" r = Returns l ∧ NoDup l ∧
        ∀ a, a ∈ l ↔ agents r !! agent_id a = Some a ∧
                      "researcher" ∈ capabilities a).
Proof.
  apply (lookups_list_the_registered_agents three_agents "researcher").
  vm_compute. tauto.
Defined.

(** X16. Round trip: registering an identifier that has no record and
    unregistering it again gives back the records, in their order, and
    both indexes as they read before. *)
Theorem unregister_undoes_register ops aid ty n caps :
  fresh_registrations ops init →
  let r := run ops init in
  agents r !! aid = None →
  let r' := unregister aid (register aid ty n caps r).2 in
  agents r' = agents r ∧
  (∀ k, getidx (agents_by_type r') k = getidx (agents_by_type r) k) ∧
  (∀ k, getidx (agents_by_capability r') k = getidx (agents_by_capability r) k) ∧
  agent_order r' = agent_order r.
Proof.
  intros Hfresh. cbv zeta. intros Hnew.
  destruct (exact_run ops init exact_init Hfresh) as [Hid Hty Hcap].
  pose proof (proj2 (agent_order_keys ops) aid) as Horder.
  set (r := run ops init) in *.
  assert (aid ∉ agent_order r) as Hno.
  { intros [a Ha]%Horder. congruence. }
  assert (∀ k, aid ∉ getidx (agents_by_type r) k) as Hnt.
  { intros k (a & Ha & _)%Hty. congruence. }
  assert (∀ k, aid ∉ getidx (agents_by_capability r) k) as Hnc.
  { intros k (a & Ha & _)%Hcap. congruence. }
  unfold unregister. simpl. rewrite lookup_insert_eq. simpl.
  split; [by apply delete_insert_id|]. split; [|split].
  - intros k. rewrite getidx_index_discard.
    case_decide; [|by rewrite getidx_index_add, decide_False].
    subst k. rewrite getidx_index_add, decide_True by done.
    apply leibniz_equiv. intros x. specialize (Hnt ty).
    rewrite elem_of_difference, elem_of_union, elem_of_singleton.
    split; [intros [[->|?] ?]; done|]. intros Hx. split; [by right|].
    by intros ->.
  - intros k. rewrite getidx_discard_all_eq, getidx_add_all.
    case_decide; [|done]. apply leibniz_equiv. intros x. specialize (Hnc k).
    rewrite elem_of_difference, elem_of_union, elem_of_singleton.
    split; [intros [[->|?] ?]; done|]. intros Hx. split; [by right|].
    by intros ->.
  - rewrite Hnew, filter_app, filter_cons_False, filter_nil, app_nil_r
      by (by intros ?).
    clear -Hno. induction (agent_order r) as [|x l IH]; [done|].
    rewrite filter_cons_True by (intros ->; apply Hno; by left).
    f_equal. apply IH. intros ?. apply Hno. by right.
Qed.

Lemma unregister_undoes_register_witness :
  let r := run three_agents init in
  let r' := unregister "a4" (register "a4" "writer" "W" ["write"] r).2 in
  agents r' = agents r ∧
  (∀ k, getidx (agents_by_type r') k = getidx (agents_by_type r) k) ∧
  (∀ k, getidx (agents_by_capability r') k = getidx (agents_by_capability r) k) ∧
  agent_order r' = agent_order r.
Proof.
  apply (unregister_undoes_register three_agents "a4" "writer" "W" ["write"]).
  - vm_compute. tauto.
  - reflexivity.
Defined.

(** X17. The bracket of [execute_task] on the registry: on a registry
    built through the methods, [increment_agent_workload] followed by
    [record_task_completion] leaves the agent's workload as it was and
    adds one to the counter of completed, respectively failed, tasks;
    the agent ends idle when it had no other work and busy otherwise,
    whatever its status was. *)
Theorem record_after_increment_restores_workload ops aid a success :
  agents (run ops init) !! aid = Some a →
  ∃ a', agents (record_task_completion aid success
                 (increment_agent_workload aid (run ops init))) !! aid = Some a' ∧
        workload a' = workload a ∧
        total_tasks_completed a'
        = (total_tasks_completed a + if success then 1 else 0)%Z ∧
        total_tasks_failed a'
        = (total_tasks_failed a + if success then 0 else 1)%Z ∧
        status a' = (if decide (workload a = 0%Z) then "idle" else "busy") ∧
        agent_type a' = agent_type a ∧ capabilities a' = capabilities a.
Proof.
  intros Ha. pose proof (workload_nonneg ops aid a Ha) as Hw.
  simpl. rewrite !lookup_alter_eq, Ha. simpl. eexists. split; [done|].
  destruct success; simpl;
    (split; [lia|]); (split; [lia|]); (split; [lia|]);
    (split; [|done]);
    repeat case_decide; try done; lia.
Qed.

Lemma record_after_increment_restores_workload_witness :
  ∃ a', agents (record_task_completion "a1" true
                 (increment_agent_workload "a1" (run three_agents init))) !! "a1"
        = Some a' ∧
        workload a' = 2%Z ∧ total_tasks_completed a' = 1%Z ∧
        total_tasks_failed a' = 0%Z ∧ status a' = "busy" ∧
        agent_type a' = "researcher" ∧ capabilities a' = ["search"].
Proof.
  apply (record_after_increment_restores_workload three_agents "a1"
           (mkAgentInfo "a1" "researcher" "R1" ["search"] "busy" 2 0 0) true).
  vm_compute. reflexivity.
Defined.

End AgentRegistryIndex.

(** ** Delivery order, history and broadcasts of the message bus *)

Module MessageBusOrder.
Import MessageBus MessageBusFacts.

(** Messages sent one after the other. *)
Definition sends (ms : list Message) (b : t) : t := foldl (λ b m, send m b) b ms.

(** [n] consecutive [receive] calls of one agent: the messages they
    return, up to the first call that returns none. *)
Fixpoint receive_n (timeout : option Z) (n : nat) (agent_id : string) (b : t)
    : list Message :=
  match n with
  | O => []
  | S n =>
      match receive agent_id timeout b with
      | Returns (Some message, b') => message :: receive_n timeout n agent_id b'
      | _ => []
      end
  end.

Lemma sends_queue ms : ∀ b agent_id,
  default [] (queues (sends ms b) !! agent_id)
  = default [] (queues b !! agent_id) ++ filter (λ m, receiver m = agent_id) ms.
Proof.
  induction ms as [|m ms IH]; intros b agent_id.
  - simpl. by rewrite app_nil_r.
  - change (sends (m :: ms) b) with (sends ms (send m b)). rewrite IH.
    destruct (decide (receiver m = agent_id)) as [<-|Hne].
    + rewrite send_queue. simpl. rewrite filter_cons_True by done.
      by rewrite <- app_assoc.
    + rewrite send_queue_ne by done. by rewrite filter_cons_False.
Qed.

Lemma sends_registered ms : ∀ b agent_id,
  is_Some (queues b !! agent_id) → is_Some (queues (sends ms b) !! agent_id).
Proof.
  induction ms as [|m ms IH]; intros b agent_id Hb; [done|].
  change (sends (m :: ms) b) with (sends ms (send m b)). apply IH.
  destruct (decide (receiver m = agent_id)) as [<-|Hne].
  - rewrite send_queue. eauto.
  - by rewrite send_queue_ne.
Qed.

Lemma receive_n_take timeout agent_id : ∀ q n b,
  nonnegative timeout → queues b !! agent_id = Some q →
  receive_n timeout n agent_id b = take n q.
Proof.
  induction q as [|m q IH]; intros n b Ht Hq.
  - destruct n as [|n]; [done|]. simpl. unfold receive. rewrite Hq.
    destruct timeout as [secs|]; [|done]. simpl in Ht.
    by rewrite decide_False by lia.
  - destruct n as [|n]; [done|]. simpl. unfold receive. rewrite Hq.
    destruct timeout as [secs|]; simpl in Ht.
    + rewrite decide_False by lia. f_equal. apply IH; [done|].
      simpl. by rewrite lookup_insert_eq.
    + f_equal. apply IH; [done|]. simpl. by rewrite lookup_insert_eq.
Qed.

(** X18. Each mailbox is first in, first out: after any sequence of
    [send] calls, the [receive] calls of a registered agent return what
    was already in its mailbox and then the messages addressed to it, in
    the order they were sent, each once, whatever was sent to others in
    between. *)
Theorem mailbox_is_fifo b ms agent_id q timeout n :
  nonnegative timeout → queues b !! agent_id = Some q →
  receive_n timeout n agent_id (sends ms b)
  = take n (q ++ filter (λ m, receiver m = agent_id) ms).
Proof.
  intros Ht Hq.
  destruct (sends_registered ms b agent_id) as [q' Hq']; [by eauto|].
  rewrite (receive_n_take timeout agent_id q' n _ Ht Hq').
  pose proof (sends_queue ms b agent_id) as Hs. rewrite Hq, Hq' in Hs.
  simpl in Hs. by rewrite Hs.
Qed.

Definition chatter : list Message :=
  [mkMessage "alice" "bob" "notification" (AStr "one") ∅ "m1";
   mkMessage "alice" "carol" "notification" (AStr "two") ∅ "m2";
   mkMessage "carol" "bob" "question" (AStr "three") ∅ "m3"].

Lemma mailbox_is_fifo_witness :
  receive_n (Some 1%Z) 5 "bob" (sends chatter (register_agent "bob" init))
  = [mkMessage "alice" "bob" "notification" (AStr "one") ∅ "m1";
     mkMessage "carol" "bob" "question" (AStr "three") ∅ "m3"].
Proof.
  apply (mailbox_is_fifo (register_agent "bob" init) chatter "bob" []
           (Some 1%Z) 5).
  - simpl. lia.
  - reflexivity.
Defined.

Lemma send_history m b :
  max_history_size (send m b) = max_history_size b ∧
  message_history (send m b)
  = (if decide (max_history_size b < length (message_history b ++ [m]))
     then drop 1 (message_history b ++ [m]) else message_history b ++ [m]).
Proof.
  unfold send, register_agent, _add_to_history.
  by destruct (queues b !! receiver m).
Qed.

(** X19. The history buffer keeps the most recent messages only: after
    any sequence of [send] calls it is the last [max_history_size]
    messages of the old history followed by the messages sent, in order
    (all of them while there are fewer); so it never grows beyond
    [max_history_size]. *)
Theorem history_keeps_most_recent b ms :
  length (message_history b) ≤ max_history_size b →
  let h := message_history b ++ ms in
  message_history (sends ms b) = drop (length h - max_history_size b) h ∧
  length (message_history (sends ms b)) ≤ max_history_size b ∧
  max_history_size (sends ms b) = max_history_size b.
Proof.
  intros Hlen. cbv zeta.
  assert (message_history (sends ms b)
          = drop (length (message_history b ++ ms) - max_history_size b)
                 (message_history b ++ ms) ∧
          max_history_size (sends ms b) = max_history_size b) as [Hh Hmax].
  { induction ms as [|m ms IH] using rev_ind.
    - simpl. rewrite app_nil_r. split; [|done].
      by replace (length (message_history b) - max_history_size b) with 0 by lia.
    - destruct IH as [IHh IHmax].
      replace (sends (ms ++ [m]) b) with (send m (sends ms b))
        by (unfold sends; by rewrite foldl_app).
      destruct (send_history m (sends ms b)) as [Hm Hs].
      rewrite Hm, Hs, IHmax, IHh. split; [|done]. clear Hm Hs IHmax IHh.
      set (L := message_history b ++ ms).
      set (mx := max_history_size b).
      replace (message_history b ++ ms ++ [m]) with (L ++ [m])
        by (unfold L; by rewrite <- app_assoc).
      rewrite !length_app, length_drop. simpl.
      destruct (decide (length L ≤ mx)) as [Hle|Hgt].
      + replace (length L - mx) with 0 by lia. rewrite drop_0, Nat.sub_0_r.
        case_decide.
        * by replace (length L + 1 - mx) with 1 by lia.
        * by replace (length L + 1 - mx) with 0 by lia.
      + rewrite decide_True by lia.
        rewrite <- (drop_app_le L [m]) by lia. rewrite drop_drop.
        f_equal. lia. }
  split; [done|]. split; [|done]. rewrite Hh, length_drop. lia.
Qed.

Definition small_bus : t := mkBus ∅ ∅ [] 2 (mkStats 0 0 0).

Lemma history_keeps_most_recent_witness :
  message_history (sends chatter small_bus)
  = [mkMessage "alice" "carol" "notification" (AStr "two") ∅ "m2";
     mkMessage "carol" "bob" "question" (AStr "three") ∅ "m3"] ∧
  length (message_history (sends chatter small_bus)) ≤ 2 ∧
  max_history_size (sends chatter small_bus) = 2.
Proof.
  apply (history_keeps_most_recent small_bus chatter). simpl. lia.
Defined.

(** The copy of a broadcast message made for one subscriber. *)
Definition copy_for (new_id : string → string) (message : Message)
    (agent_id : string) : Message :=
  mkMessage (sender message) agent_id (msg_type message) (content message)
            (metadata message) (new_id agent_id).

Lemma send_other_fields m b :
  subscriptions (send m b) = subscriptions b ∧
  messages_sent (stats (send m b)) = (messages_sent (stats b) + 1)%Z ∧
  messages_received (stats (send m b)) = messages_received (stats b) ∧
  broadcasts_sent (stats (send m b)) = broadcasts_sent (stats b).
Proof.
  unfold send, register_agent, _add_to_history.
  by destruct (queues b !! receiver m).
Qed.

Lemma send_copies new_id message l : ∀ b,
  NoDup l →
  let b' := foldl (λ b agent_id, send (copy_for new_id message agent_id) b) b l in
  (∀ a, a ∈ l →
        queues b' !! a
        = Some (default [] (queues b !! a) ++ [copy_for new_id message a])) ∧
  (∀ a, a ∉ l → queues b' !! a = queues b !! a) ∧
  subscriptions b' = subscriptions b ∧
  messages_sent (stats b') = (messages_sent (stats b) + Z.of_nat (length l))%Z ∧
  messages_received (stats b') = messages_received (stats b) ∧
  broadcasts_sent (stats b') = broadcasts_sent (stats b).
Proof.
  induction l as [|x l IH]; intros b Hnd; cbv zeta.
  - simpl. split; [by intros a ?%elem_of_nil|]. repeat (split; [done|]).
    split; [lia|done].
  - apply NoDup_cons in Hnd as [Hx Hnd]. simpl.
    destruct (IH (send (copy_for new_id message x) b) Hnd)
      as (Hin & Hout & Hsub & Hsent & Hrecv & Hbc).
    destruct (send_other_fields (copy_for new_id message x) b)
      as (Hsub1 & Hsent1 & Hrecv1 & Hbc1).
    split; [|split; [|split; [|split; [|split]]]].
    + intros a [->|Ha]%elem_of_cons.
      * rewrite (Hout x Hx).
        apply (send_queue (copy_for new_id message x) b).
      * rewrite (Hin a Ha). rewrite send_queue_ne; [done|].
        simpl. by intros ->.
    + intros a Ha. rewrite Hout by (intros ?; apply Ha; by right).
      apply send_queue_ne. simpl. intros ->. apply Ha. by left.
    + by rewrite Hsub.
    + rewrite Hsent, Hsent1. lia.
    + by rewrite Hrecv.
    + by rewrite Hbc.
Qed.

Lemma broadcast_spec new_id message b :
  let subscribers := default ∅ (subscriptions b !! msg_type message) in
  let b' := broadcast new_id message b in
  (∀ a, a ∈ subscribers →
        queues b' !! a
        = Some (default [] (queues b !! a) ++ [copy_for new_id message a])) ∧
  (∀ a, a ∉ subscribers → queues b' !! a = queues b !! a) ∧
  subscriptions b' = subscriptions b ∧
  messages_sent (stats b')
  = (messages_sent (stats b) + Z.of_nat (size subscribers))%Z ∧
  messages_received (stats b') = messages_received (stats b) ∧
  broadcasts_sent (stats b')
  = (broadcasts_sent (stats b) + if decide (subscribers = ∅) then 0 else 1)%Z.
Proof.
  cbv zeta. unfold broadcast.
  destruct (decide (default ∅ (subscriptions b !! msg_type message) = ∅))
    as [Hempty|Hne].
  - rewrite Hempty. split; [by intros a ?%not_elem_of_empty|].
    repeat (split; [done|]). rewrite size_empty. split; [lia|].
    split; [done|lia].
  - destruct (send_copies new_id message
                (elements (default ∅ (subscriptions b !! msg_type message))) b
                (NoDup_elements _))
      as (Hin & Hout & Hsub & Hsent & Hrecv & Hbc).
    simpl. split; [|split; [|split; [|split; [|split]]]].
    + intros a Ha. apply Hin. by apply elem_of_elements.
    + intros a Ha. apply Hout. by rewrite elem_of_elements.
    + exact Hsub.
    + exact Hsent.
    + exact Hrecv.
    + f_equal. exact Hbc.
Qed.

(** X20. A broadcast fans out: every agent subscribed to the message's
    type gets exactly one copy, addressed to it and appended to its
    mailbox (which is created if the agent has none); no other mailbox
    changes; [messages_sent] grows by the number of subscribers and
    [broadcasts_sent] by one; when nobody is subscribed the bus is left
    as it was. *)
Theorem broadcast_reaches_every_subscriber new_id message b :
  let subscribers := default ∅ (subscriptions b !! msg_type message) in
  let b' := broadcast new_id message b in
  (∀ a, a ∈ subscribers →
        queues b' !! a
        = Some (default [] (queues b !! a) ++
                [mkMessage (sender message) a (msg_type message)
                           (content message) (metadata message) (new_id a)])) ∧
  (∀ a, a ∉ subscribers → queues b' !! a = queues b !! a) ∧
  messages_sent (stats b')
  = (messages_sent (stats b) + Z.of_nat (size subscribers))%Z ∧
  broadcasts_sent (stats b')
  = (broadcasts_sent (stats b) + if decide (subscribers = ∅) then 0 else 1)%Z ∧
  (subscribers = ∅ → b' = b).
Proof.
  cbv zeta.
  destruct (broadcast_spec new_id message b) as (Hin & Hout & _ & Hsent & _ & Hbc).
  do 4 (split; [done|]). intros Hempty. unfold broadcast.
  by rewrite decide_True.
Qed.

(** X21. [unregister_agent] removes the agent's mailbox and every
    subscription of it: a later broadcast of any type leaves the agent
    without a mailbox, and its [receive] raises [ValueError]. *)
Theorem unregistered_agent_gets_no_broadcast new_id message agent_id timeout b :
  let b' := broadcast new_id message (unregister_agent agent_id b) in
  queues b' !! agent_id = None ∧
  (∀ ty, agent_id ∉ default ∅ (subscriptions b' !! ty)) ∧
  receive agent_id timeout b' = Raises ValueError.
Proof.
  cbv zeta.
  assert (∀ ty, agent_id ∉ default ∅ (subscriptions (unregister_agent agent_id b)
                                        !! ty)) as Hnot.
  { intros ty. simpl. rewrite lookup_fmap.
    destruct (subscriptions b !! ty) as [s|]; simpl.
    - rewrite elem_of_difference, elem_of_singleton. by intros [_ []].
    - apply not_elem_of_empty. }
  destruct (broadcast_spec new_id message (unregister_agent agent_id b))
    as (_ & Hout & Hsub & _).
  assert (queues (broadcast new_id message (unregister_agent agent_id b))
            !! agent_id = None) as Hq.
  { rewrite Hout by apply Hnot. simpl. by rewrite lookup_delete_eq. }
  split; [done|]. split.
  - intros ty. rewrite Hsub. apply Hnot.
  - unfold receive. by rewrite Hq.
Qed.

End MessageBusOrder.

(** ** Reading the blackboard, and its observers *)

Module SharedMemoryReads.
Import SharedMemory SharedMemoryFacts.

(** Calls that neither write [key] nor remove it. *)
Definition leaves_key (key : string) (o : op) : bool :=
  negb (writes_key key o) && negb (removes_key key o).

Lemma run_keeps ops : ∀ m key,
  forallb (leaves_key key) ops = true →
  data (run ops m) !! key = data m !! key.
Proof.
  induction ops as [|o ops IH]; intros m key Hall; [done|].
  change (run (o :: ops) m) with (run ops (step o m)).
  cbn [forallb] in Hall. apply andb_prop in Hall as [Ho Hall].
  unfold leaves_key in Ho.
  apply andb_prop in Ho as [Hw%negb_true_iff Hr%negb_true_iff].
  rewrite IH by done. by apply step_keeps.
Qed.

(** X22. The last writer wins: after [write(key, value, agent)] and any
    calls that neither write nor remove [key] (reads, writes and deletes
    of other keys, subscriptions), [read(key)] returns [value] and not the
    default, the entry's author is [agent], and [get_by_author] lists
    the key under [agent] and under no other author. *)
Theorem last_write_wins m key value agent_id metadata ops default_value :
  forallb (leaves_key key) ops = true →
  let m' := run ops (write key value agent_id metadata m) in
  (read key default_value m').1 = value ∧
  author <$> read_entry key m' = Some agent_id ∧
  exists_ key m' = true ∧
  get_by_author agent_id m' !! key = Some value ∧
  ∀ other, other ≠ agent_id → get_by_author other m' !! key = None.
Proof.
  intros Hall. cbv zeta.
  pose proof (run_keeps ops (write key value agent_id metadata m) key Hall) as Hd.
  rewrite write_lookup in Hd.
  split; [|split; [|split; [|split]]].
  - unfold read. by rewrite Hd.
  - unfold read_entry. by rewrite Hd.
  - unfold exists_. rewrite Hd. apply bool_decide_eq_true. eauto.
  - unfold get_by_author. rewrite lookup_fmap.
    match type of Hd with _ = Some ?e =>
      rewrite (proj2 (map_lookup_filter_Some
                        (λ kv : string * MemoryEntry, author kv.2 = agent_id)
                        _ key e)) by (split; [exact Hd|done])
    end. done.
  - intros other Hne. unfold get_by_author. rewrite lookup_fmap.
    rewrite (proj2 (map_lookup_filter_None _ _ _)); [done|].
    right. intros e He. rewrite Hd in He. injection He as <-. simpl. congruence.
Qed.

Lemma last_write_wins_witness :
  let m' := run [Read "k" ANone; Write "j" (AInt 7) "a2" None; Delete "j"]
                (write "k" (AInt 1) "a1" None init) in
  (read "k" ANone m').1 = AInt 1 ∧
  author <$> read_entry "k" m' = Some "a1" ∧
  exists_ "k" m' = true ∧
  get_by_author "a1" m' !! "k" = Some (AInt 1) ∧
  ∀ other, other ≠ "a1" → get_by_author other m' !! "k" = None.
Proof.
  apply (last_write_wins init "k" (AInt 1) "a1" None
           [Read "k" ANone; Write "j" (AInt 7) "a2" None; Delete "j"] ANone).
  reflexivity.
Defined.

Lemma remove_callback_last callback cbs :
  (∀ cb, cb ∈ cbs → cb_id cb ≠ cb_id callback) →
  remove_callback callback (cbs ++ [callback]) = cbs.
Proof.
  induction cbs as [|cb cbs IH]; intros Hall; simpl.
  - by rewrite decide_True.
  - rewrite decide_False by (apply Hall; by left).
    f_equal. apply IH. intros cb' Hin. apply Hall. by right.
Qed.

(** X23. Round trip on the observers: subscribing a callback that is not
    yet subscribed to the key and unsubscribing it again leaves the key's
    callbacks, hence the notifications of every later write, and all
    other keys and the data, as they were. *)
Theorem unsubscribe_undoes_subscribe m key callback :
  (∀ cb, cb ∈ default [] (_observers m !! key) → cb_id cb ≠ cb_id callback) →
  let m' := unsubscribe key callback (subscribe key callback m) in
  default [] (_observers m' !! key) = default [] (_observers m !! key) ∧
  (∀ k, k ≠ key → _observers m' !! k = _observers m !! k) ∧
  (∀ k entry, _notify_observers k entry m' = _notify_observers k entry m) ∧
  data m' = data m ∧ stats m' = stats m.
Proof.
  intros Hnew. cbv zeta.
  assert (_observers (unsubscribe key callback (subscribe key callback m)) !! key
          = Some (default [] (_observers m !! key))) as Hkey.
  { simpl. rewrite lookup_alter_eq, lookup_insert_eq. simpl.
    by rewrite remove_callback_last. }
  assert (∀ k, k ≠ key →
            _observers (unsubscribe key callback (subscribe key callback m)) !! k
            = _observers m !! k) as Hother.
  { intros k Hne. simpl. rewrite lookup_alter_ne by done.
    by rewrite lookup_insert_ne. }
  split; [by rewrite Hkey|]. split; [done|]. split; [|done].
  intros k entry. unfold _notify_observers.
  destruct (decide (k = key)) as [->|Hne].
  - rewrite Hkey. by destruct (_observers m !! key).
  - by rewrite Hother.
Qed.

Definition watched : t :=
  subscribe "k" (mkCallback "cb1" (λ _ _, false))
            (write "k" (AInt 1) "a1" None init).

Lemma unsubscribe_undoes_subscribe_witness :
  let callback := mkCallback "cb2" (λ _ _, false) in
  let m' := unsubscribe "k" callback (subscribe "k" callback watched) in
  default [] (_observers m' !! "k") = default [] (_observers watched !! "k") ∧
  (∀ k, k ≠ "k" → _observers m' !! k = _observers watched !! k) ∧
  (∀ k entry, _notify_observers k entry m' = _notify_observers k entry watched) ∧
  data m' = data watched ∧ stats m' = stats watched.
Proof.
  apply (unsubscribe_undoes_subscribe watched "k"
           (mkCallback "cb2" (λ _ _, false))).
  intros cb ->%list_elem_of_singleton. done.
Defined.

End SharedMemoryReads.

(** ** Submitting and executing tasks through the orchestrator *)

Module OrchestratorRuns.
Import Orchestrator.

(** The loop of [add_task] on a task nobody depends on: no
    [add_dependency] can close a cycle. *)
Lemma add_dependencies_fresh tid deps : ∀ g,
  (∀ x, ¬ DependencyGraphFacts.depends g x tid) → tid ∉ deps → tid ∈ DependencyGraph.nodes g →
  ∃ g', add_dependencies tid deps g = (g', None) ∧
        (∀ x d, DependencyGraphFacts.depends g' x d
                ↔ DependencyGraphFacts.depends g x d ∨ (x = tid ∧ d ∈ deps)) ∧
        DependencyGraph.nodes g' = list_to_set deps ∪ DependencyGraph.nodes g.
Proof.
  induction deps as [|dep deps IH]; intros g Hnone Hnot Htid.
  - exists g. split; [done|]. split.
    + intros x d. split; [by left|]. intros [?|[_ ?%elem_of_nil]]; done.
    + apply leibniz_equiv. set_solver.
  - assert (tid ≠ dep) as Hne by (intros ->; apply Hnot; by left).
    assert (tid ∉ deps) as Hnot' by (intros ?; apply Hnot; by right).
    destruct (DependencyGraphFacts.add_dependency_cases tid dep g)
      as [[Hr _]|(_ & g2 & Hadd & Hn & _ & _ & Hd & _)].
    { destruct (DependencyGraphFacts.reaches_ends g dep tid Hr) as [_ [z Hz]];
        [done|]. by destruct (Hnone z). }
    simpl. rewrite Hadd.
    destruct (IH g2) as (g' & Hrun & Hd' & Hn'); [|done| |].
    + intros x Hx. apply Hd in Hx as [Hx|[_ Hx]]; [by destruct (Hnone x)|done].
    + rewrite Hn. simpl. set_solver.
    + exists g'. split; [done|]. split.
      * intros x d. rewrite Hd', Hd. rewrite elem_of_cons. naive_solver.
      * rewrite Hn', Hn. simpl. apply leibniz_equiv. set_solver.
Qed.

(** X24. Submitting a task never fails for a task with a new identifier:
    on an orchestrator whose graph was built through the graph's methods,
    [add_task] with an identifier that is not a node yet, and not among
    its own dependencies, raises no [CircularDependencyError]; the queue
    is the one [TaskQueue.add_task] gives, the graph gains the node and
    exactly its edges to the listed dependencies, and nothing else
    changes. *)
Theorem add_task_with_new_id_succeeds
    gops new_id agent_type action input_data priority dependencies metadata o :
  dependency_graph o = DependencyGraphFacts.run gops DependencyGraph.init →
  new_id ∉ DependencyGraph.nodes (dependency_graph o) →
  new_id ∉ default [] dependencies →
  let queued := TaskQueue.add_task new_id agent_type action input_data priority
                                   dependencies metadata (task_queue o) in
  let r := add_task new_id agent_type action input_data priority dependencies
                    metadata o in
  r.2 = Returns queued.1 ∧ task_queue r.1 = queued.2 ∧
  agent_registry r.1 = agent_registry o ∧ message_bus r.1 = message_bus o ∧
  shared_memory r.1 = shared_memory o ∧
  DependencyGraph.nodes (dependency_graph r.1)
  = {[new_id]} ∪ list_to_set (default [] dependencies)
    ∪ DependencyGraph.nodes (dependency_graph o) ∧
  DependencyGraph.get_dependencies new_id (dependency_graph r.1)
  = list_to_set (default [] dependencies) ∧
  ∀ x, x ≠ new_id →
       DependencyGraph.get_dependencies x (dependency_graph r.1)
       = DependencyGraph.get_dependencies x (dependency_graph o).
Proof.
  intros Hg Hnew Hself. cbv zeta.
  pose proof (DependencyGraphFacts.run_wfg gops) as Hwf. rewrite <- Hg in Hwf.
  destruct (TaskQueueFacts.add_task_fields new_id agent_type action input_data
              priority dependencies metadata (task_queue o)) as (Htask & _).
  unfold add_task.
  destruct (TaskQueue.add_task new_id agent_type action input_data priority
              dependencies metadata (task_queue o)) as [task q] eqn:Eq.
  simpl in Htask. subst task. cbn [TaskQueue.task_id].
  assert (∀ x d, DependencyGraphFacts.depends (dependency_graph o) x d →
                 x ≠ new_id ∧ d ≠ new_id) as Hedges.
  { intros x d Hd.
    destruct (DependencyGraphFacts.wfg_nodes _ Hwf x d Hd) as [Hx Hdn].
    split; intros ->; done. }
  destruct (add_dependencies_fresh new_id (default [] dependencies)
              (DependencyGraph.add_node new_id (dependency_graph o)))
    as (g' & Hrun & Hd & Hn).
  { intros x Hx. apply DependencyGraphFacts.add_node_depends in Hx.
    by destruct (Hedges x new_id Hx) as [_ ?]. }
  { done. }
  { simpl. set_solver. }
  rewrite Hrun. simpl. do 5 (split; [done|]). split; [|split].
  - rewrite Hn. simpl. apply leibniz_equiv. set_solver.
  - apply leibniz_equiv. intros d. unfold DependencyGraph.get_dependencies.
    specialize (Hd new_id d). unfold DependencyGraphFacts.depends in Hd at 1.
    rewrite Hd.
    rewrite DependencyGraphFacts.add_node_depends, elem_of_list_to_set.
    split; [|by right]. intros [Hdep|[_ ?]]; [|done].
    by destruct (Hedges new_id d Hdep) as [? _].
  - intros x Hx. apply leibniz_equiv. intros d.
    unfold DependencyGraph.get_dependencies.
    specialize (Hd x d). unfold DependencyGraphFacts.depends in Hd at 1.
    rewrite Hd.
    rewrite DependencyGraphFacts.add_node_depends.
    split; [|by left]. intros [?|[? _]]; done.
Qed.

Definition first_task : t :=
  (add_task "t1" "researcher" "research" (AStr "topic") TaskQueue.MEDIUM None None
            init).1.

Lemma add_task_with_new_id_succeeds_witness :
  let queued := TaskQueue.add_task "t2" "analyst" "analyze" ANone TaskQueue.HIGH
                                   (Some ["t1"]) None (task_queue first_task) in
  let r := add_task "t2" "analyst" "analyze" ANone TaskQueue.HIGH (Some ["t1"])
                    None first_task in
  r.2 = Returns queued.1 ∧ task_queue r.1 = queued.2 ∧
  agent_registry r.1 = agent_registry first_task ∧
  message_bus r.1 = message_bus first_task ∧
  shared_memory r.1 = shared_memory first_task ∧
  DependencyGraph.nodes (dependency_graph r.1)
  = {[ "t2" ]} ∪ list_to_set ["t1"]
    ∪ DependencyGraph.nodes (dependency_graph first_task) ∧
  DependencyGraph.get_dependencies "t2" (dependency_graph r.1)
  = list_to_set ["t1"] ∧
  ∀ x, x ≠ "t2" →
       DependencyGraph.get_dependencies x (dependency_graph r.1)
       = DependencyGraph.get_dependencies x (dependency_graph first_task).
Proof.
  apply (add_task_with_new_id_succeeds [DependencyGraphFacts.AddNode "t1"]
           "t2" "analyst" "analyze" ANone TaskQueue.HIGH (Some ["t1"]) None
           first_task).
  - reflexivity.
  - apply (bool_decide_eq_false_1 (_ ∈ _)). vm_compute. reflexivity.
  - apply (bool_decide_eq_false_1 (_ ∈ _)). vm_compute. reflexivity.
Defined.

(** The message [execute_task] sends to the agent it has chosen. *)
Definition task_message (msg_id : string) (task : TaskQueue.Task)
    (agent : AgentRegistry.AgentInfo) : MessageBus.Message :=
  MessageBus.mkMessage "orchestrator" (AgentRegistry.agent_id agent) "task"
    (ADict [("task_id", AStr (TaskQueue.task_id task));
            ("action", AStr (TaskQueue.action task));
            ("input_data", TaskQueue.input_data task);
            ("metadata", ADict (map_to_list (TaskQueue.metadata task)))])
    ∅ msg_id.

(** X25. The agent's answer is the task's result. When an agent is
    chosen and, once the agents have acted on the bus, the oldest message
    in the orchestrator's mailbox is a [result] message [r],
    [execute_task] returns [True] and has taken [r] from the mailbox;
    afterwards [get_task_result] returns the content of [r], whether or
    not the queue knows the task; the blackboard holds that content under
    [result_<task_id>], written by the chosen agent; and a task the queue
    knows is completed with it. *)
Theorem successful_task_result_is_available
    env msg_id task o agent r rest timeout :
  AgentRegistry.find_available_agent (Some (TaskQueue.agent_type task)) None
                                     (agent_registry o)
  = Returns (Some agent) →
  MessageBus.queues
    (env (MessageBus.send (task_message msg_id task agent) (message_bus o)))
    !! "orchestrator" = Some (r :: rest) →
  MessageBus.msg_type r = "result" →
  task_timeout task = Some timeout → MessageBusFacts.nonnegative timeout →
  let tid := TaskQueue.task_id task in
  ∃ o',
    execute_task env msg_id task o = Returns (true, o') ∧
    MessageBus.queues (message_bus o') !! "orchestrator" = Some rest ∧
    (get_task_result tid o').1 = MessageBus.content r ∧
    (∃ e, SharedMemory.read_entry ("result_" +:+ tid) (shared_memory o') = Some e ∧
          SharedMemory.value e = MessageBus.content r ∧
          SharedMemory.author e = AgentRegistry.agent_id agent) ∧
    (is_Some (TaskQueue.tasks (task_queue o) !! tid) →
     tid ∈ TaskQueue.completed (task_queue o') ∧
     ∃ done, TaskQueue.get_task tid (task_queue o') = Some done ∧
             TaskQueue.status done = TaskQueue.COMPLETED ∧
             TaskQueue.result done = MessageBus.content r).
Proof.
  intros Hfind Hmail Hty Htime Hnn. cbv zeta.
  set (bus := env (MessageBus.send (task_message msg_id task agent) (message_bus o)))
    in *.
  assert (∃ bus', MessageBus.receive "orchestrator" timeout bus
                  = Returns (Some r, bus') ∧
                  MessageBus.queues bus' !! "orchestrator" = Some rest)
    as (bus' & Hrecv & Hrest).
  { unfold MessageBus.receive. rewrite Hmail.
    destruct timeout as [secs|]; simpl in Hnn.
    - rewrite decide_False by lia. eexists. split; [done|].
      simpl. by rewrite lookup_insert_eq.
    - eexists. split; [done|]. simpl. by rewrite lookup_insert_eq. }
  set (tid := TaskQueue.task_id task).
  set (mem := SharedMemory.write ("task_" +:+ tid) (TaskQueue.to_dict task)
                                 "orchestrator" None (shared_memory o)).
  set (o' := mkOrchestrator
               (TaskQueue.complete_task tid (MessageBus.content r) (task_queue o))
               (dependency_graph o)
               (AgentRegistry.record_task_completion (AgentRegistry.agent_id agent)
                  true
                  (AgentRegistry.increment_agent_workload
                     (AgentRegistry.agent_id agent) (agent_registry o)))
               bus'
               (SharedMemory.write ("result_" +:+ tid) (MessageBus.content r)
                                   (AgentRegistry.agent_id agent) None mem)).
  assert (execute_task env msg_id task o = Returns (true, o')) as Hex.
  { unfold execute_task. rewrite Hfind. cbv zeta.
    change (env (MessageBus.send _ (message_bus o))) with bus.
    rewrite Hmail, Htime. cbn [default from_option id]. rewrite Hrecv.
    by rewrite bool_decide_eq_true_2. }
  exists o'. split; [exact Hex|]. split; [exact Hrest|].
  assert (SharedMemory.data (shared_memory o') !! ("result_" +:+ tid)
          = Some (SharedMemory.mkEntry (MessageBus.content r)
                    (AgentRegistry.agent_id agent)
                    (match SharedMemory.data mem !! ("result_" +:+ tid) with
                     | Some old => SharedMemory.version old + 1
                     | None => 1
                     end)%Z ∅)) as Hentry
    by apply SharedMemoryFacts.write_lookup.
  assert (is_Some (TaskQueue.tasks (task_queue o) !! tid) →
          tid ∈ TaskQueue.completed (task_queue o') ∧
          ∃ done, TaskQueue.get_task tid (task_queue o') = Some done ∧
                  TaskQueue.status done = TaskQueue.COMPLETED ∧
                  TaskQueue.result done = MessageBus.content r) as Hknown.
  { intros [t0 Ht0].
    destruct (TaskQueueFacts.complete_task_known tid (MessageBus.content r)
                (task_queue o)) as (Ht & _ & Hc & _); [by eauto|].
    change (task_queue o') with
      (TaskQueue.complete_task tid (MessageBus.content r) (task_queue o)).
    split; [rewrite Hc; apply elem_of_union_l; by apply elem_of_singleton|].
    unfold TaskQueue.get_task. rewrite Ht, lookup_alter_eq, Ht0. simpl.
    by eexists. }
  split; [|split; [|done]].
  - unfold get_task_result.
    destruct (TaskQueue.tasks (task_queue o) !! tid) as [t0|] eqn:Ht0.
    + destruct Hknown as (_ & done & -> & Hs & Hr); [by eauto|].
      by rewrite decide_True.
    + change (task_queue o') with
        (TaskQueue.complete_task tid (MessageBus.content r) (task_queue o)).
      rewrite TaskQueueFacts.complete_task_unknown by done.
      unfold TaskQueue.get_task. rewrite Ht0.
      unfold SharedMemory.read. by rewrite Hentry.
  - unfold SharedMemory.read_entry. rewrite Hentry. by eexists.
Qed.

(** One researcher, one task for it, and the orchestrator's mailbox. *)
Definition staffed : t :=
  let o := register_agent "a1" "researcher" ["search"] first_task in
  mkOrchestrator (task_queue o) (dependency_graph o) (agent_registry o)
                 (MessageBus.register_agent "orchestrator" (message_bus o))
                 (shared_memory o).

Definition first_task_started : TaskQueue.Task :=
  TaskQueue.mkTask TaskQueue.MEDIUM "t1" "researcher" "research" (AStr "topic")
                   [] ∅ TaskQueue.IN_PROGRESS ANone None.

Definition findings : MessageBus.Message :=
  MessageBus.mkMessage "a1" "orchestrator" "result" (AStr "findings") ∅ "r1".

(** The agent's thread: it answers with a result. *)
Definition answers (b : MessageBus.t) : MessageBus.t := MessageBus.send findings b.

Definition researcher_a1 : AgentRegistry.AgentInfo :=
  AgentRegistry.mkAgentInfo "a1" "researcher" "researcher" ["search"] "idle" 0 0 0.

Lemma successful_task_result_is_available_witness :
  ∃ o',
    execute_task answers "m1" first_task_started staffed = Returns (true, o') ∧
    MessageBus.queues (message_bus o') !! "orchestrator" = Some [] ∧
    (get_task_result "t1" o').1 = AStr "findings" ∧
    (∃ e, SharedMemory.read_entry "result_t1" (shared_memory o') = Some e ∧
          SharedMemory.value e = AStr "findings" ∧
          SharedMemory.author e = "a1") ∧
    (is_Some (TaskQueue.tasks (task_queue staffed) !! "t1") →
     "t1" ∈ TaskQueue.completed (task_queue o') ∧
     ∃ done, TaskQueue.get_task "t1" (task_queue o') = Some done ∧
             TaskQueue.status done = TaskQueue.COMPLETED ∧
             TaskQueue.result done = AStr "findings").
Proof.
  apply (successful_task_result_is_available answers "m1" first_task_started
           staffed researcher_a1 findings [] (Some 60%Z)).
  - vm_compute. reflexivity.
  - vm_compute. reflexivity.
  - reflexivity.
  - reflexivity.
  - simpl. lia.
Defined.

Definition staffed_done : t :=
  match execute_task answers "m1" first_task_started staffed with
  | Returns (_, o') => o'
  | _ => staffed
  end.

(** [increment_agent_workload] then [record_task_completion] on the
    chosen agent, seen from any agent of the registry. *)
Lemma bracket_lookup reg chosen success aid a :
  AgentRegistry.agents reg !! aid = Some a →
  (0 ≤ AgentRegistry.workload a)%Z →
  ∃ a', AgentRegistry.agents
          (AgentRegistry.record_task_completion chosen success
             (AgentRegistry.increment_agent_workload chosen reg)) !! aid = Some a' ∧
        AgentRegistry.workload a' = AgentRegistry.workload a ∧
        AgentRegistry.agent_type a' = AgentRegistry.agent_type a ∧
        AgentRegistry.total_tasks_completed a'
        = (AgentRegistry.total_tasks_completed a
           + if decide (aid = chosen) then (if success then 1 else 0) else 0)%Z ∧
        AgentRegistry.total_tasks_failed a'
        = (AgentRegistry.total_tasks_failed a
           + if decide (aid = chosen) then (if success then 0 else 1) else 0)%Z.
Proof.
  intros Ha Hw. simpl. destruct (decide (aid = chosen)) as [->|Hne].
  - rewrite !lookup_alter_eq, Ha. simpl. eexists. split; [done|].
    destruct success; simpl; (split; [lia|]); (split; [done|]); split; lia.
  - rewrite !lookup_alter_ne by done. exists a. split; [done|].
    split; [done|]. split; [done|]. split; lia.
Qed.

(** X26. [execute_task] gives back the work it hands out. On a registry
    built through the registry's methods, when [execute_task] returns:
    if [find_available_agent] finds no agent for the task's type, the
    call returns [False] and changes nothing; if it finds one, that agent
    is a record of the registry, every agent has afterwards the workload
    and the type it had before, the agent found has one more completed
    task when the call returned [True] and one more failed task when it
    returned [False], and no other counter has moved. The dependency
    graph is untouched. *)
Theorem execute_task_restores_workloads rops env msg_id task o ok o' :
  agent_registry o = AgentRegistryFacts.run rops AgentRegistry.init →
  execute_task env msg_id task o = Returns (ok, o') →
  dependency_graph o' = dependency_graph o ∧
  match AgentRegistry.find_available_agent (Some (TaskQueue.agent_type task)) None
                                           (agent_registry o) with
  | Returns None => ok = false ∧ o' = o
  | Returns (Some agent) =>
      AgentRegistry.agents (agent_registry o) !! AgentRegistry.agent_id agent
      = Some agent ∧
      ∀ aid a, AgentRegistry.agents (agent_registry o) !! aid = Some a →
        ∃ a', AgentRegistry.agents (agent_registry o') !! aid = Some a' ∧
              AgentRegistry.workload a' = AgentRegistry.workload a ∧
              AgentRegistry.agent_type a' = AgentRegistry.agent_type a ∧
              AgentRegistry.total_tasks_completed a'
              = (AgentRegistry.total_tasks_completed a
                 + if decide (aid = AgentRegistry.agent_id agent)
                   then (if ok then 1 else 0) else 0)%Z ∧
              AgentRegistry.total_tasks_failed a'
              = (AgentRegistry.total_tasks_failed a
                 + if decide (aid = AgentRegistry.agent_id agent)
                   then (if ok then 0 else 1) else 0)%Z
  | _ => False
  end.
Proof.
  intros Hreg H.
  apply OrchestratorFacts.execute_task_Returns in H
    as [(Hfind & -> & ->)|(agent & response & bus & Hfind & Hg & _ & Hr & _)];
    rewrite Hfind.
  - done.
  - split; [done|]. split.
    + destruct (AgentRegistryFacts.find_available_agent_registered _ _ _ _ Hfind)
        as (_ & aid & Ha).
      rewrite Hreg in Ha. pose proof (AgentRegistryFacts.run_agent_id _ _ _ Ha) as ->.
      by rewrite Hreg.
    + intros aid a Ha. rewrite Hr.
      assert (0 ≤ AgentRegistry.workload a)%Z as Hw.
      { apply (AgentRegistryFacts.workload_nonneg rops aid). by rewrite <- Hreg. }
      apply (bracket_lookup (agent_registry o) (AgentRegistry.agent_id agent)
               ok aid a Ha Hw).
Qed.

Lemma execute_task_restores_workloads_witness :
  dependency_graph staffed_done = dependency_graph staffed ∧
  AgentRegistry.agents (agent_registry staffed) !! "a1" = Some researcher_a1 ∧
  ∀ aid a, AgentRegistry.agents (agent_registry staffed) !! aid = Some a →
    ∃ a', AgentRegistry.agents (agent_registry staffed_done) !! aid = Some a' ∧
          AgentRegistry.workload a' = AgentRegistry.workload a ∧
          AgentRegistry.agent_type a' = AgentRegistry.agent_type a ∧
          AgentRegistry.total_tasks_completed a'
          = (AgentRegistry.total_tasks_completed a
             + if decide (aid = "a1") then 1 else 0)%Z ∧
          AgentRegistry.total_tasks_failed a'
          = (AgentRegistry.total_tasks_failed a
             + if decide (aid = "a1") then 0 else 0)%Z.
Proof.
  apply (execute_task_restores_workloads
           [AgentRegistryFacts.Register "a1" "researcher" "researcher" ["search"]]
           answers "m1" first_task_started staffed true staffed_done).
  - reflexivity.
  - vm_compute. reflexivity.
Defined.

(** X27. The orchestrator has no mailbox of its own until somebody
    registers it or sends to it: when an agent is chosen and, at the
    time the orchestrator calls [receive], the bus holds no mailbox for
    ["orchestrator"], [execute_task] raises [ValueError], whatever the
    task's timeout; it does not wait and it records no failure. *)
Theorem execute_task_without_mailbox_raises env msg_id task o agent :
  AgentRegistry.find_available_agent (Some (TaskQueue.agent_type task)) None
                                     (agent_registry o)
  = Returns (Some agent) →
  (∀ b, MessageBus.queues (env b) !! "orchestrator"
        = MessageBus.queues b !! "orchestrator") →
  MessageBus.queues (message_bus o) !! "orchestrator" = None →
  AgentRegistry.agent_id agent ≠ "orchestrator" →
  execute_task env msg_id task o = Raises ValueError.
Proof.
  intros Hfind Henv Hnone Hne. unfold execute_task. rewrite Hfind. cbv zeta.
  rewrite Henv, MessageBusFacts.send_queue_ne, Hnone by (simpl; congruence).
  unfold MessageBus.receive.
  rewrite Henv, MessageBusFacts.send_queue_ne, Hnone by (simpl; congruence).
  done.
Qed.

Definition unanswered : t :=
  register_agent "a1" "researcher" ["search"] first_task.

Lemma execute_task_without_mailbox_raises_witness :
  execute_task id "m1" first_task_started unanswered = Raises ValueError.
Proof.
  apply (execute_task_without_mailbox_raises id "m1" first_task_started unanswered
           (AgentRegistry.mkAgentInfo "a1" "researcher" "researcher" ["search"]
                                      "idle" 0 0 0)).
  - vm_compute. reflexivity.
  - done.
  - reflexivity.
  - done.
Defined.

End OrchestratorRuns.
